(** * Sudoku SAT solver: grid model, CNF compiler and decode pipeline

    A shallow embedding of [src/model/grid.py], [src/solvers/sat_solver.py]
    and [main.py].

    Python integers are [Z]; a numpy array of shape (n, n) is a list of
    rows, its elements of type [np.uint] being integers of [0, 2^64) and a
    write of any other integer raising [OverflowError]; Python sets of integers are [gset Z]; the proposition dictionary
    is an insertion-ordered association list, because the compiler iterates
    over it and clause order depends on that order.  Grid objects are
    references into a store of arrays, so that [copy] and in-place writes
    can be told apart.  Exceptions are an error monad.

    [grid.py] leaves [__post_init__], [block_size], [block_index], [block],
    [__str__] and [from_text] as placeholders: their body there only raises
    [NotImplementedError] with the message "copy from the previous lab", the
    code itself is not in the sources.  [src/utils/group_by.py], the solver
    base class and the solver registry are not in the sources either.  Where
    a property needs one of them, it is modelled from the specification and
    marked so; the SAT engine and the command line collaborators are
    parameters.

    Part I holds the program and the notions the properties are stated
    with; Part II holds the lemmas and the theorems. *)

From Stdlib Require Import ZArith Lia List Bool Ascii DecimalString DecimalN.
From stdpp Require Import base option list gmap sorting strings.

Local Open Scope Z_scope.
#[local] Set Warnings "-clear-no-such-hyp".

(** * Part I: the program *)

(** ** Exceptions and the two monads *)

Inductive exn : Type :=
  | IndexError
  | OverflowError
  | KeyError
  | TimeoutError
  | FuturesTimeoutError
  | OSError
  | ValueError
  | MalformedPuzzle
  | InvalidDimension
  | DanglingReference.

Inductive result (A : Type) : Type :=
  | Ok (x : A)
  | Raise (e : exn).
Arguments Ok {A} x.
Arguments Raise {A} e.

#[global] Instance result_ret : MRet result := fun A x => Ok x.
#[global] Instance result_bind : MBind result := fun A B f m =>
  match m with Ok x => f x | Raise e => Raise e end.

(** A numpy array of unsigned integers with two axes, row by row. *)
Abbreviation ndarray := (list (list Z)) (only parsing).

(** The store of arrays; a reference is an index into it. *)
Abbreviation loc := nat (only parsing).
Abbreviation store := (list (list (list Z))) (only parsing).

(** Computations that read and write the store and may raise. *)
Definition M (A : Type) : Type := store → result (A * store).

#[global] Instance M_ret : MRet M := fun A x σ => Ok (x, σ).
#[global] Instance M_bind : MBind M := fun A B f m σ =>
  match m σ with Ok (x, σ') => f x σ' | Raise e => Raise e end.

Definition raise {A} (e : exn) : M A := fun _ => Raise e.
Definition lift {A} (m : result A) : M A := fun σ =>
  match m with Ok x => Ok (x, σ) | Raise e => Raise e end.

Definition read (l : loc) : M ndarray := fun σ =>
  match σ !! l with Some a => Ok (a, σ) | None => Raise DanglingReference end.
Definition write (l : loc) (a : ndarray) : M unit := fun σ =>
  match σ !! l with
  | Some _ => Ok (tt, <[l := a]> σ)
  | None => Raise DanglingReference
  end.
Definition alloc (a : ndarray) : M loc := fun σ => Ok (length σ, σ ++ [a]).

(** [for x in xs: body], the loop state passed along. *)
Fixpoint for_each {A S} (xs : list A) (body : A → S → M S) (s : S) : M S :=
  match xs with
  | [] => mret s
  | x :: xs' => s' ← body x s; for_each xs' body s'
  end.

(** ** Indexing *)

(** Python and numpy indexing along an axis of length [n]: an index in
    [-n, 0) counts from the end, anything outside [-n, n) raises. *)
Definition py_index (n : nat) (i : Z) : result nat :=
  if (0 <=? i) && (i <? Z.of_nat n) then Ok (Z.to_nat i)
  else if (- Z.of_nat n <=? i) && (i <? 0) then Ok (Z.to_nat (i + Z.of_nat n))
  else Raise IndexError.

Definition shape0 (a : ndarray) : nat := length a.
Definition shape1 (a : ndarray) : nat :=
  match a with [] => 0%nat | row :: _ => length row end.

(** [a[r, c]] *)
Definition array_getitem (a : ndarray) (r c : Z) : result Z :=
  i ← py_index (shape0 a) r;
  j ← py_index (shape1 a) c;
  match a !! i ≫= (.!! j) with
  | Some v => Ok v
  | None => Raise IndexError
  end.

(** The largest value of [np.uint], an unsigned integer of 64 bits. *)
Definition uint_max : Z := 2 ^ 64 - 1.

(** [a[r, c] = value] for a Python integer [value]: the indices are
    resolved first; a value that is not one of the array's type then raises
    [OverflowError], and nothing is stored. *)
Definition array_setitem (a : ndarray) (r c : Z) (value : Z) : result ndarray :=
  i ← py_index (shape0 a) r;
  j ← py_index (shape1 a) c;
  match a !! i with
  | Some row =>
      if decide (j < length row)%nat then
        if decide (0 ≤ value ≤ uint_max) then Ok (<[i := <[j := value]> row]> a)
        else Raise OverflowError
      else Raise IndexError
  | None => Raise IndexError
  end.

Fixpoint enum_from {A} (i : Z) (l : list A) : list (Z * A) :=
  match l with
  | [] => []
  | x :: l' => (i, x) :: enum_from (i + 1) l'
  end.

(** [np.ndenumerate(a)]: ((row, col), value) in row-major order. *)
Definition ndenumerate (a : ndarray) : list ((Z * Z) * Z) :=
  '(r, row) ← enum_from 0 a;
  (fun '(c, v) => ((r, c), v)) <$> enum_from 0 row.

(** ** SudokuGrid *)

Record SudokuGrid : Type := mkSudokuGrid { _array : loc }.

(** [SudokuGrid.size] *)
Definition size (self : SudokuGrid) : M Z :=
  a ← read (_array self); mret (Z.of_nat (shape0 a)).

(** Modelled from the spec: the body of [SudokuGrid.block_size] is not in the
    sources.  "blockSize: sqrt(n), fails with InvalidDimension if n is not a
    perfect square". *)
Definition block_size (self : SudokuGrid) : M Z :=
  n ← size self;
  let k := Z.sqrt n in
  if k * k =? n then mret k else raise InvalidDimension.

(** Modelled from the spec: the body of [SudokuGrid.__post_init__] is not in
    the sources.  "InvalidDimension: grid size has no integer square root;
    detected at grid construction". *)
Definition __post_init__ (self : SudokuGrid) : M unit :=
  _ ← block_size self; mret tt.

(** [SudokuGrid.__getitem__] with a (row, col) pair. *)
Definition __getitem__ (self : SudokuGrid) (coords : Z * Z) : M Z :=
  a ← read (_array self); lift (array_getitem a coords.1 coords.2).

(** [SudokuGrid.__setitem__] with a (row, col) pair and a Python integer. *)
Definition __setitem__ (self : SudokuGrid) (coords : Z * Z) (value : Z) : M unit :=
  a ← read (_array self);
  a' ← lift (array_setitem a coords.1 coords.2 value);
  write (_array self) a'.

(** [SudokuGrid.enumerate] *)
Definition enumerate (self : SudokuGrid) : M (list ((Z * Z) * Z)) :=
  a ← read (_array self); mret (ndenumerate a).

(** Modelled from the spec: the body of [SudokuGrid.block_index] is not in
    the sources.  "Block index for cell (r,c) is (r / k) * k + (c / k),
    row-major over blocks", [k] the block size. *)
Definition block_index (self : SudokuGrid) (cell_row cell_column : Z) : M Z :=
  k ← block_size self;
  mret ((cell_row / k) * k + cell_column / k).

(** [SudokuGrid.copy]: a new grid object over a copy of the array. *)
Definition copy (self : SudokuGrid) : M SudokuGrid :=
  a ← read (_array self);
  l ← alloc a;
  let g := mkSudokuGrid l in
  _ ← __post_init__ g; mret g.

(** ** Insertion-ordered dictionaries *)

(** A Python [dict]: keys in insertion order, each key once. *)
Abbreviation dict K V := (list (K * V)) (only parsing).

Section dict.
Context {K V : Type} `{EqDecision K}.

(** [d[k]], [None] standing for [KeyError]. *)
Fixpoint dict_get (k : K) (d : dict K V) : option V :=
  match d with
  | [] => None
  | (k', v) :: d' => if decide (k = k') then Some v else dict_get k d'
  end.

(** [k in d] *)
Definition dict_contains (k : K) (d : dict K V) : bool :=
  bool_decide (is_Some (dict_get k d)).

(** [d[k] = v]: an existing key keeps its place, a new one goes last. *)
Fixpoint dict_setitem (k : K) (v : V) (d : dict K V) : dict K V :=
  match d with
  | [] => [(k, v)]
  | (k', v') :: d' =>
      if decide (k = k') then (k', v) :: d' else (k', v') :: dict_setitem k v d'
  end.

(** [d.values()] *)
Definition dict_values (d : dict K V) : list V := snd <$> d.

Definition dict_keys (d : dict K V) : list K := fst <$> d.
End dict.

(** ** Propositions *)

Record Coordinates : Type := mkCoordinates { row : Z; col : Z; block : Z }.

Record Proposition : Type := mkProposition { coords : Coordinates; val : Z; id : Z }.

#[global] Instance Coordinates_eq_dec : EqDecision Coordinates.
Proof. solve_decision. Defined.
#[global] Instance Proposition_eq_dec : EqDecision Proposition.
Proof. solve_decision. Defined.

(** [used[i].add(v)] on a list of sets. *)
Definition used_add (used : list (gset Z)) (i v : Z) : result (list (gset Z)) :=
  j ← py_index (length used) i;
  match used !! j with
  | Some s => Ok (<[j := {[v]} ∪ s]> used)
  | None => Raise IndexError
  end.

(** [used[i]] *)
Definition used_get (used : list (gset Z)) (i : Z) : result (gset Z) :=
  j ← py_index (length used) i;
  match used !! j with
  | Some s => Ok s
  | None => Raise IndexError
  end.

(** [sorted(s)] on a set of integers. *)
Definition sorted (s : gset Z) : list Z := merge_sort Z.le (elements s).

Abbreviation used_sets := (list (gset Z) * list (gset Z) * list (gset Z))%type (only parsing).

(** First loop of [_possible_propositions]: the values already placed in
    each row, column and block. *)
Definition scan_used (puzzle : SudokuGrid) (item : (Z * Z) * Z) (used : used_sets)
  : M used_sets :=
  let '((r, c), val) := item in
  let '(row_used, col_used, block_used) := used in
  let v := val in
  if decide (v ≠ 0) then
    b ← block_index puzzle r c;
    row_used ← lift (used_add row_used r v);
    col_used ← lift (used_add col_used c v);
    block_used ← lift (used_add block_used b v);
    mret (row_used, col_used, block_used)
  else mret used.

(** Innermost loop: one proposition per allowed value, the next free id. *)
Definition add_proposition (r c b : Z) (v : Z) (st : dict Z Proposition * Z)
  : M (dict Z Proposition * Z) :=
  let '(propositions, next_id) := st in
  mret (dict_setitem next_id (mkProposition (mkCoordinates r c b) v next_id) propositions,
        next_id + 1).

(** Second loop: the empty cells and their allowed values. *)
Definition scan_empty (puzzle : SudokuGrid) (all_vals : gset Z) (used : used_sets)
    (item : (Z * Z) * Z) (st : dict Z Proposition * Z) : M (dict Z Proposition * Z) :=
  let '((r, c), val) := item in
  let '(row_used, col_used, block_used) := used in
  if decide (val ≠ 0) then mret st
  else
    b ← block_index puzzle r c;
    rs ← lift (used_get row_used r);
    cs ← lift (used_get col_used c);
    bs ← lift (used_get block_used b);
    let allowed := all_vals ∖ rs ∖ cs ∖ bs in
    for_each (sorted allowed) (add_proposition r c b) st.

(** [SudokuCNF._possible_propositions] *)
Definition _possible_propositions (puzzle : SudokuGrid) : M (dict Z Proposition) :=
  size ← size puzzle;
  let all_vals : gset Z := list_to_set (seqZ 1 size) in
  let empty_sets : list (gset Z) := replicate (Z.to_nat size) ∅ in
  items ← enumerate puzzle;
  used ← for_each items (scan_used puzzle) (empty_sets, empty_sets, empty_sets);
  items ← enumerate puzzle;
  st ← for_each items (scan_empty puzzle all_vals used) ([], 1);
  mret st.1.

(** ** The CNF compiler *)

Record SudokuCNF : Type := mkSudokuCNF {
  cnf : list (list Z);
  propositions : dict Z Proposition;
  puzzle : SudokuGrid
}.

(** [self.cnf.append(clause)] *)
Definition cnf_append (self : SudokuCNF) (clause : list Z) : SudokuCNF :=
  mkSudokuCNF (cnf self ++ [clause]) (propositions self) (puzzle self).

(** [itertools.combinations(l, 2)] *)
Fixpoint combinations2 {A} (l : list A) : list (A * A) :=
  match l with
  | [] => []
  | x :: l' => (pair x <$> l') ++ combinations2 l'
  end.

(** [SudokuCNF._at_least_one] *)
Definition _at_least_one (self : SudokuCNF) (props : list Proposition) : SudokuCNF :=
  let clause := id <$> props in
  match clause with
  | [] => self
  | _ :: _ => cnf_append self clause
  end.

(** [SudokuCNF._at_most_one] *)
Definition _at_most_one (self : SudokuCNF) (props : list Proposition) : SudokuCNF :=
  foldl (fun self '(p, q) => cnf_append self [- id p; - id q]) self (combinations2 props).

(** [SudokuCNF._exactly_one] *)
Definition _exactly_one (self : SudokuCNF) (props : list Proposition) : SudokuCNF :=
  match props with
  | [] => self
  | _ :: _ => _at_most_one (_at_least_one self props) props
  end.

Section group_by.
Context {K A : Type} `{EqDecision K}.

Fixpoint group_add (k : K) (x : A) (groups : dict K (list A)) : dict K (list A) :=
  match groups with
  | [] => [(k, [x])]
  | (k', xs) :: groups' =>
      if decide (k = k') then (k', xs ++ [x]) :: groups'
      else (k', xs) :: group_add k x groups'
  end.

(** Modelled from the spec: [src/utils/group_by.py] is not in the sources.
    "an explicit mapping construction step building key -> ordered list of
    proposition references"; "grouping must be stable". *)
Definition group_by (xs : list A) (key : A → K) : dict K (list A) :=
  foldl (fun groups x => group_add (key x) x groups) [] xs.
End group_by.

(** [SudokuCNF._every_cell_has_a_single_value] *)
Definition _every_cell_has_a_single_value (self : SudokuCNF) : SudokuCNF :=
  foldl _exactly_one self
    (dict_values (group_by (dict_values (propositions self)) (fun p => coords p))).

(** [SudokuCNF._every_row_contains_unique_values] *)
Definition _every_row_contains_unique_values (self : SudokuCNF) : SudokuCNF :=
  let row_val_groups :=
    group_by (dict_values (propositions self)) (fun p => (row (coords p), val p)) in
  foldl _at_most_one self (dict_values row_val_groups).

(** [SudokuCNF._every_col_contains_unique_values] *)
Definition _every_col_contains_unique_values (self : SudokuCNF) : SudokuCNF :=
  let col_val_groups :=
    group_by (dict_values (propositions self)) (fun p => (col (coords p), val p)) in
  foldl _at_most_one self (dict_values col_val_groups).

(** [SudokuCNF._every_block_contains_unique_values] *)
Definition _every_block_contains_unique_values (self : SudokuCNF) : SudokuCNF :=
  let block_val_groups :=
    group_by (dict_values (propositions self)) (fun p => (block (coords p), val p)) in
  foldl _at_most_one self (dict_values block_val_groups).

(** [SudokuCNF.__post_init__] *)
Definition SudokuCNF__post_init__ (self : SudokuCNF) : SudokuCNF :=
  let self := _every_cell_has_a_single_value self in
  let self := _every_row_contains_unique_values self in
  let self := _every_col_contains_unique_values self in
  _every_block_contains_unique_values self.

(** [SudokuCNF.encode] *)
Definition encode (puzzle : SudokuGrid) : M SudokuCNF :=
  let cnf := [] in
  propositions ← _possible_propositions puzzle;
  mret (SudokuCNF__post_init__ (mkSudokuCNF cnf propositions puzzle)).

(** Body of the loop of [decode]. *)
Definition decode_step (self : SudokuCNF) (grid : SudokuGrid) (pid : Z) (_ : unit)
  : M unit :=
  if (0 <? pid) && dict_contains pid (propositions self) then
    match dict_get pid (propositions self) with
    | Some prop => __setitem__ grid (row (coords prop), col (coords prop)) (val prop)
    | None => raise KeyError
    end
  else mret tt.

(** [SudokuCNF.decode] *)
Definition decode (self : SudokuCNF) (results : list Z) : M SudokuGrid :=
  grid ← copy (puzzle self);
  _ ← for_each results (decode_step self grid) tt;
  mret grid.

(** ** The solver *)

Section solver.
(** The type of time limits. *)
Variable Time : Type.

(** What one run of the engine reports: the status returned by
    [solve_limited] ([None] interrupted, [Some false] unsatisfiable,
    [Some true] satisfied) and the list returned by [get_model]. *)
Record SolverRun : Type := mkSolverRun { status : option bool; get_model : list Z }.

(** The engine is outside the sources: a run of [Solver] bootstrapped with
    a formula, raced against a timer of the given limit. *)
Variable solve_limited : list (list Z) → Time → SolverRun.

Record SatSudokuSolver : Type := mkSatSudokuSolver {
  _puzzle : SudokuGrid;
  _time_limit : Time
}.

(** [SatSudokuSolver.run_algorithm] *)
Definition run_algorithm (self : SatSudokuSolver) : M (option SudokuGrid) :=
  sudoku_cnf ← encode (_puzzle self);
  let solver := solve_limited (cnf sudoku_cnf) (_time_limit self) in
  match status solver with
  | None => raise TimeoutError
  | Some false => mret None
  | Some true =>
      let model := get_model solver in
      g ← decode sudoku_cnf model; mret (Some g)
  end.
End solver.

(** ** The clause of a pair *)

(** The binary clause the at-most-one encoding emits for a pair. *)
Definition pair_clause (pq : Proposition * Proposition) : list Z :=
  [- id pq.1; - id pq.2].

(** ** Cell access *)

(** The value stored at row [r], column [c], both counted from 0. *)
Definition cell (a : ndarray) (r c : Z) : option Z :=
  if decide (0 ≤ r ∧ 0 ≤ c) then a !! Z.to_nat r ≫= (.!! Z.to_nat c) else None.

(** An array of shape (n, n). *)
Definition square (n : Z) (a : ndarray) : Prop :=
  Z.of_nat (length a) = n ∧ Forall (fun row => Z.of_nat (length row) = n) a.

#[global] Instance square_dec n a : Decision (square n a).
Proof. unfold square. apply _. Defined.

(** The array after writing [v] at row [i], column [j]. *)
Definition array_update (a : ndarray) (i j : nat) (v : Z) : ndarray :=
  match a !! i with
  | Some row => <[i := <[j := v]> row]> a
  | None => a
  end.

(** ** A solved grid *)

(** The 4x4 grid used in the examples on cell access. *)
Definition grid4 : ndarray :=
  [[1; 2; 3; 4]; [3; 4; 1; 2]; [2; 1; 4; 3]; [4; 3; 2; 1]].

(** ** Valid grids *)

Definition grid_size (a : ndarray) : Z := Z.of_nat (length a).

(** The block size of a valid grid. *)
Definition grid_block_size (a : ndarray) : Z := Z.sqrt (grid_size a).

(** The grid invariant: the side is a perfect square, the array has shape
    (n, n), and every stored value is in 0..n.  The array being one of
    [np.uint], the values 0..n are values of that type: n is at most
    [uint_max] (an array has far fewer rows than that). *)
Definition valid_grid (a : ndarray) : Prop :=
  grid_block_size a * grid_block_size a = grid_size a ∧
  Forall (fun row => Z.of_nat (length row) = grid_size a ∧
                     Forall (fun v => 0 ≤ v ≤ grid_size a) row) a ∧
  grid_size a ≤ uint_max.

#[global] Instance valid_grid_dec a : Decision (valid_grid a).
Proof. unfold valid_grid. apply _. Defined.

(** The block of cell (r, c) for block size [k]. *)
Definition block_of (k r c : Z) : Z := (r / k) * k + c / k.

(** ** The first loop: values already placed *)

(** The set at index [i] of a list of sets, for [i] in range. *)
Definition uget (used : list (gset Z)) (i : Z) : gset Z :=
  default ∅ (used !! Z.to_nat i).

(** The non-zero values among the enumerated items whose cell has key [i]. *)
Definition placed_by (key : Z * Z → Z) (items : list ((Z * Z) * Z)) (i : Z) : gset Z :=
  list_to_set (snd <$> filter (fun x => x.2 ≠ 0 ∧ key x.1 = i) items).

(** ** The proposition space as a function of the array *)

Definition row_used_of (a : ndarray) (r : Z) : gset Z :=
  placed_by fst (ndenumerate a) r.
Definition col_used_of (a : ndarray) (c : Z) : gset Z :=
  placed_by snd (ndenumerate a) c.
Definition block_used_of (a : ndarray) (b : Z) : gset Z :=
  placed_by (fun rc => block_of (grid_block_size a) rc.1 rc.2) (ndenumerate a) b.

(** The values still allowed in cell (r, c). *)
Definition allowed (a : ndarray) (r c : Z) : gset Z :=
  list_to_set (seqZ 1 (grid_size a)) ∖ row_used_of a r ∖ col_used_of a c
    ∖ block_used_of a (block_of (grid_block_size a) r c).

(** The (coordinates, value) pairs the second loop visits, in its order. *)
Definition pairs_of (a : ndarray) (items : list ((Z * Z) * Z)) : list (Coordinates * Z) :=
  '((r, c), v) ← items;
  if decide (v ≠ 0) then []
  else (fun w => (mkCoordinates r c (block_of (grid_block_size a) r c), w))
         <$> sorted (allowed a r c).

(** Numbering the pairs from [next] on. *)
Fixpoint mk_props (next : Z) (cvs : list (Coordinates * Z)) : dict Z Proposition :=
  match cvs with
  | [] => []
  | (co, v) :: cvs' => (next, mkProposition co v next) :: mk_props (next + 1) cvs'
  end.

(** The dictionary [_possible_propositions] returns for the array [a]. *)
Definition propositions_of (a : ndarray) : dict Z Proposition :=
  mk_props 1 (pairs_of a (ndenumerate a)).

(** ** Order of the proposition space *)

(** Row-major order over cells, then ascending value. *)
Definition triple_lt (x y : Z * Z * Z) : Prop :=
  x.1.1 < y.1.1 ∨ (x.1.1 = y.1.1 ∧ (x.1.2 < y.1.2 ∨ (x.1.2 = y.1.2 ∧ x.2 < y.2))).

(** Row, column and value of a proposition. *)
Definition key_of (p : Proposition) : Z * Z * Z :=
  (row (coords p), col (coords p), val p).

(** ** Membership in the proposition space *)

(** [v] is a candidate for cell (r, c): it is one of 1..n and no cell of the
    same row, column or block holds it. *)
Definition candidate (a : ndarray) (r c v : Z) : Prop :=
  1 ≤ v ≤ grid_size a ∧
  ∀ r' c', cell a r' c' = Some v →
           r' ≠ r ∧ c' ≠ c ∧
           block_of (grid_block_size a) r' c' ≠ block_of (grid_block_size a) r c.

(** Closed decidable facts are settled by evaluation. *)
Ltac by_evaluation := apply (bool_decide_unpack _); vm_compute; exact I.

(** A 4x4 puzzle with eight empty cells, used in the examples. *)
Definition puzzle4 : ndarray :=
  [[1; 0; 3; 0]; [0; 4; 0; 2]; [2; 0; 4; 0]; [0; 3; 0; 1]].

(** ** Grouping *)

(** [groups] is the grouping by [key] of the items seen so far. *)
Definition groups_of {K A : Type} `{EqDecision K} (key : A → K) (seen : list A)
    (groups : dict K (list A)) : Prop :=
  NoDup (groups.*1) ∧
  ∀ k g, (k, g) ∈ groups ↔ k ∈ key <$> seen ∧ g = filter (fun x => key x = k) seen.

(** ** The four constraint families *)

(** [p] stands before [q] in the list. *)
Definition before {A} (l : list A) (p q : A) : Prop :=
  ∃ i j : nat, (i < j)%nat ∧ l !! i = Some p ∧ l !! j = Some q.

(** What exactly-one appends for a group. *)
Definition exactly_one_clauses (g : list Proposition) : list (list Z) :=
  match g with
  | [] => []
  | _ => (id <$> g) :: (pair_clause <$> combinations2 g)
  end.

(** What at-most-one appends for a group. *)
Definition at_most_one_clauses (g : list Proposition) : list (list Z) :=
  pair_clause <$> combinations2 g.

(** The pairs the three uniqueness families and the cell family forbid. *)
Definition conflict (p q : Proposition) : Prop :=
  coords p = coords q ∨
  (row (coords p) = row (coords q) ∧ val p = val q) ∨
  (col (coords p) = col (coords q) ∧ val p = val q) ∨
  (block (coords p) = block (coords q) ∧ val p = val q).

(** ** The encoding of an array *)

(** The encoding of the grid object [self] holding the array [a]. *)
Definition encoding_of (self : SudokuGrid) (a : ndarray) : SudokuCNF :=
  SudokuCNF__post_init__ (mkSudokuCNF [] (propositions_of a) self).

(** A well-formed formula over a proposition map: no clause is empty and
    every literal is a non-zero integer whose variable is a key of the map. *)
Definition well_formed (e : SudokuCNF) : Prop :=
  ∀ cl, cl ∈ cnf e →
        cl ≠ [] ∧
        ∀ l, l ∈ cl → l ≠ 0 ∧ is_Some (dict_get (Z.abs l) (propositions e)).

(** A grid whose pre-filled cells clash (two 2s in row 0) and whose empty
    cell (0, 0) has no candidate left. *)
Definition clash4 : ndarray :=
  [[0; 1; 2; 2]; [0; 0; 0; 0]; [3; 0; 0; 0]; [4; 0; 0; 0]].

(** ** Decoding *)

(** What one id of the result list does to the array being filled. *)
Definition write_prop (d : dict Z Proposition) (b : ndarray) (pid : Z) : ndarray :=
  if 0 <? pid then
    match dict_get pid d with
    | Some prop =>
        array_update b (Z.to_nat (row (coords prop))) (Z.to_nat (col (coords prop)))
                     (val prop)
    | None => b
    end
  else b.

(** The array [decode] fills, starting from a copy of [a]. *)
Definition decoded (d : dict Z Proposition) (a : ndarray) (results : list Z) : ndarray :=
  foldl (write_prop d) a results.

(** The value id [pid] puts at (r, c), if any: [pid] must be positive and a
    key of the map, with a proposition at these coordinates. *)
Definition written (d : dict Z Proposition) (pid r c : Z) : option Z :=
  if 0 <? pid then
    match dict_get pid d with
    | Some prop =>
        if decide (row (coords prop) = r ∧ col (coords prop) = c)
        then Some (val prop) else None
    | None => None
    end
  else None.

(** The last value the result list puts at (r, c), if any. *)
Fixpoint last_write (d : dict Z Proposition) (results : list Z) (r c : Z) : option Z :=
  match results with
  | [] => None
  | pid :: results' =>
      match last_write d results' r c with
      | Some v => Some v
      | None => written d pid r c
      end
  end.

(** Every proposition of the map sits inside the n x n grid and holds a
    value of the array's type. *)
Definition props_in_grid (n : Z) (d : dict Z Proposition) : Prop :=
  ∀ i p, dict_get i d = Some p →
         0 ≤ row (coords p) < n ∧ 0 ≤ col (coords p) < n ∧
         0 ≤ val p ≤ uint_max.

(** ** The command line program *)

(** [except (TimeoutError, concurrent.futures.TimeoutError)] *)
Definition is_timeout (e : exn) : bool :=
  match e with
  | TimeoutError | FuturesTimeoutError => true
  | _ => false
  end.

(** What [parser.parse_args()] does: it returns the parsed arguments, or
    [argparse] leaves the program itself, with status 2 after a usage error
    and with status 0 after the help was asked for; the lines it printed are
    given. *)
Inductive parsed (Args : Type) : Type :=
  | Parsed (args : Args)
  | Exits (printed : list string) (status : Z).
Arguments Parsed {Args} args.
Arguments Exits {Args} printed status.

Section main.
(** Grids and parsed command lines as the program sees them, and what lies
    outside the sources: the text of an exception, the rows of a grid as
    comma-separated text, and the split of the file contents into lines. *)
Context {Grid Args : Type}.
Variable str_exn : exn → string.
Variable rows_text : Grid → list string.
Variable strip_splitlines : string → list string.

(** The collaborators: [parse_args], reading the file named on the command
    line, [SudokuGrid.from_text], [args.algorithm.solve] with the time limit
    of the command line, and [str(solution)], which [print(solution)] calls
    inside the last [try] block. *)
Variable parse_args : parsed Args.
Variable read_file : Args → result string.
Variable from_text : list string → result Grid.
Variable solve : Args → Grid → result (option Grid).
Variable render : Grid → result string.

(** The two [except] clauses of the last [try] block. *)
Definition solver_handlers (e : exn) : list string * Z :=
  if is_timeout e then (["TIMEOUT"], 2)
  else (["Solver error: " +:+ str_exn e], 1).

(** [main]: the lines printed and the exit status. *)
Definition main : list string * Z :=
  match parse_args with
  | Exits printed status => (printed, status)
  | Parsed args =>
      match read_file args with
      | Raise e => (["Error reading puzzle file: " +:+ str_exn e], 1)
      | Ok puzzle_data =>
          match from_text (strip_splitlines puzzle_data) with
          | Raise e => (["Invalid puzzle format: " +:+ str_exn e], 1)
          | Ok puzzle =>
              match solve args puzzle with
              | Ok (Some solution) =>
                  match render solution with
                  | Ok text => ([text], 0)
                  | Raise e => solver_handlers e
                  end
              | Ok None =>
                  ("INFEASIBLE" :: "    - puzzle grid:" :: rows_text puzzle, 1)
              | Raise e => solver_handlers e
              end
          end
      end
  end.

(** The four outcomes of a run whose command line was accepted: a solution
    found and printed, a puzzle proved infeasible, a timeout of the solver,
    and an input that is not in the puzzle format. *)
Definition solved_run : Prop :=
  ∃ args data puzzle solution text,
    parse_args = Parsed args ∧ read_file args = Ok data ∧
    from_text (strip_splitlines data) = Ok puzzle ∧
    solve args puzzle = Ok (Some solution) ∧ render solution = Ok text.
Definition infeasible_run : Prop :=
  ∃ args data puzzle,
    parse_args = Parsed args ∧ read_file args = Ok data ∧
    from_text (strip_splitlines data) = Ok puzzle ∧
    solve args puzzle = Ok None.
Definition timeout_run : Prop :=
  ∃ args data puzzle e,
    parse_args = Parsed args ∧ read_file args = Ok data ∧
    from_text (strip_splitlines data) = Ok puzzle ∧
    solve args puzzle = Raise e ∧ is_timeout e = true.
Definition format_error_run : Prop :=
  ∃ args data e,
    parse_args = Parsed args ∧ read_file args = Ok data ∧
    from_text (strip_splitlines data) = Raise e.
End main.

(** ** Rows, columns and blocks of a grid *)

Definition row_cells (n r : Z) : list (Z * Z) := (fun c => (r, c)) <$> seqZ 0 n.
Definition col_cells (n c : Z) : list (Z * Z) := (fun r => (r, c)) <$> seqZ 0 n.

(** Modelled from the spec: the body of [SudokuGrid.block] is not in the
    sources.  "Block: one of the n equal square sub-grids partitioning the
    puzzle", indexed row-major over blocks: block [b] starts at row
    (b / k) * k and column (b mod k) * k. *)
Definition block_cells (k b : Z) : list (Z * Z) :=
  i ← seqZ 0 k; (fun j => (b / k * k + i, b `mod` k * k + j)) <$> seqZ 0 k.

(** All cells, row-major. *)
Definition all_cells (n : Z) : list (Z * Z) := r ← seqZ 0 n; row_cells n r.

(** Two cells share a row, a column or a block. *)
Definition peer (k : Z) (x y : Z * Z) : Prop :=
  x.1 = y.1 ∨ x.2 = y.2 ∨ block_of k x.1 x.2 = block_of k y.1 y.2.

#[global] Instance peer_dec k x y : Decision (peer k x y).
Proof. unfold peer. apply _. Defined.

(** How many of the cells hold [v]. *)
Definition count_in (a : ndarray) (cells : list (Z * Z)) (v : Z) : nat :=
  length (filter (fun x => cell a x.1 x.2 = Some v) cells).

(** The cells hold each value 1..n exactly once. *)
Definition each_once (a : ndarray) (cells : list (Z * Z)) : Prop :=
  Forall (fun v => count_in a cells v = 1%nat) (seqZ 1 (grid_size a)).

(** Every row, column and block holds each value 1..n exactly once. *)
Definition solved (a : ndarray) : Prop :=
  Forall (fun i => each_once a (row_cells (grid_size a) i) ∧
                   each_once a (col_cells (grid_size a) i) ∧
                   each_once a (block_cells (grid_block_size a) i))
         (seqZ 0 (grid_size a)).

#[global] Instance solved_dec a : Decision (solved a).
Proof. unfold solved, each_once. apply _. Defined.

(** [a'] agrees with [a] on every cell that is not empty in [a]. *)
Definition agrees (a a' : ndarray) : Prop :=
  Forall (fun x => cell a x.1 x.2 ≠ Some 0 → cell a' x.1 x.2 = cell a x.1 x.2)
         (all_cells (grid_size a)).

#[global] Instance agrees_dec a a' : Decision (agrees a a').
Proof. unfold agrees. apply _. Defined.

(** A unit: [n] distinct cells of the grid that are peers of one another. *)
Definition unit_of (n k : Z) (U : list (Z * Z)) : Prop :=
  NoDup U ∧ length U = Z.to_nat n ∧
  (∀ x, x ∈ U → 0 ≤ x.1 < n ∧ 0 ≤ x.2 < n) ∧
  (∀ x y, x ∈ U → y ∈ U → peer k x y).

(** ** Models of the formula *)

(** The result list is a model of the formula: it never holds a literal
    together with its negation, and every clause has a literal in it. *)
Definition model_satisfies (results : list Z) (formula : list (list Z)) : Prop :=
  Forall (fun l => - l ∉ results) results ∧
  Forall (fun cl => Exists (fun l => l ∈ results) cl) formula.

#[global] Instance model_satisfies_dec results formula :
  Decision (model_satisfies results formula).
Proof. unfold model_satisfies. apply _. Defined.

(** No pre-filled cell has a peer with the same value. *)
Definition prefilled_consistent (a : ndarray) : Prop :=
  Forall (fun x =>
    Forall (fun y => x ≠ y → peer (grid_block_size a) x y →
                     cell a x.1 x.2 ≠ Some 0 → cell a x.1 x.2 ≠ cell a y.1 y.2)
           (all_cells (grid_size a)))
    (all_cells (grid_size a)).

#[global] Instance prefilled_consistent_dec a : Decision (prefilled_consistent a).
Proof. unfold prefilled_consistent. apply _. Defined.

(** Some value of 1..n is held by no peer of cell [x]. *)
Definition has_candidate (a : ndarray) (x : Z * Z) : Prop :=
  Exists (fun v => Forall (fun y => peer (grid_block_size a) x y →
                                    cell a y.1 y.2 ≠ Some v)
                          (all_cells (grid_size a)))
         (seqZ 1 (grid_size a)).

(** Every empty cell has a candidate. *)
Definition empty_cells_have_candidates (a : ndarray) : Prop :=
  Forall (fun x => cell a x.1 x.2 = Some 0 → has_candidate a x)
         (all_cells (grid_size a)).

#[global] Instance empty_cells_have_candidates_dec a :
  Decision (empty_cells_have_candidates a).
Proof. unfold empty_cells_have_candidates, has_candidate. apply _. Defined.

(** ** Two contradictory grids *)

(** A grid of clashing pre-filled cells without any empty cell, and a grid
    whose pre-filled cells do not clash but whose two empty cells have no
    candidate. *)
Definition ones4 : ndarray :=
  [[1; 1; 1; 1]; [1; 1; 1; 1]; [1; 1; 1; 1]; [1; 1; 1; 1]].
Definition hole4 : ndarray :=
  [[0; 1; 3; 4]; [3; 4; 1; 2]; [2; 0; 4; 3]; [4; 3; 2; 1]].

(** ** Text formats *)

(** [str(int(x))] for a stored value. *)
Definition str_int (v : Z) : string :=
  NilZero.string_of_uint (N.to_uint (Z.to_N v)).

(** [sep.join(parts)] *)
Fixpoint join (sep : string) (parts : list string) : string :=
  match parts with
  | [] => EmptyString
  | p :: parts' =>
      match parts' with
      | [] => p
      | _ => p +:+ sep +:+ join sep parts'
      end
  end.

(** One row as [main] prints it: [",".join(str(int(x)) for x in row)]. *)
Definition plain_row (row : list Z) : string := join "," (str_int <$> row).

(** The rows of a grid as [main] prints them, one line per row. *)
Definition plain_rows (a : ndarray) : list string := plain_row <$> a.

(** [s.split(sep)] for a separator of one character. *)
Fixpoint split_on (sep : ascii) (s : string) : list string :=
  match s with
  | EmptyString => [EmptyString]
  | String c s' =>
      if decide (c = sep) then EmptyString :: split_on sep s'
      else match split_on sep s' with
           | [] => [String c EmptyString]
           | field :: fields => String c field :: fields
           end
  end.

(** A non-negative integer in decimal digits. *)
Definition parse_int (s : string) : option Z :=
  d ← NilZero.uint_of_string s; Some (Z.of_N (N.of_uint d)).

Fixpoint parse_fields (fields : list string) : option (list Z) :=
  match fields with
  | [] => Some []
  | f :: fields' => v ← parse_int f; vs ← parse_fields fields'; Some (v :: vs)
  end.

(** One line: a comma-separated row of non-negative integers. *)
Definition parse_row (line : string) : option (list Z) :=
  parse_fields (split_on "," line).

Fixpoint parse_rows (lines : list string) : option ndarray :=
  match lines with
  | [] => Some []
  | l :: lines' => row ← parse_row l; rows ← parse_rows lines'; Some (row :: rows)
  end.

(** A line of a rendered grid that carries no values: the rule between two
    block-rows.  It starts with a dash, which no row does, the values being
    non-negative. *)
Definition is_rule (line : string) : bool :=
  match line with
  | String c _ => bool_decide (c = "-"%char)
  | EmptyString => false
  end.

(** A row without its layout: spaces are dropped and the bar between two
    blocks is read as a comma. *)
Fixpoint plain_line (line : string) : string :=
  match line with
  | EmptyString => EmptyString
  | String c line' =>
      if decide (c = " "%char) then plain_line line'
      else if decide (c = "|"%char) then String "," (plain_line line')
      else String c (plain_line line')
  end.

(** Modelled from the spec: the body of [SudokuGrid.from_text] is not in the
    sources.  "parse(lines): each line is a comma-separated row of
    non-negative integers; fails with MalformedPuzzle if row lengths are
    unequal, any value is out of [0, n], or n is not a perfect square";
    "MalformedPuzzle: input text violates the grid format"; "no whitespace
    requirements beyond comma separation".  The spec has [render] be the
    "inverse of parse", its blocks and separators being "purely
    presentational": the rules between block-rows and the bars and spaces
    between blocks are layout to the parser, not part of a row. *)
Definition parse_lines (lines : list string) : result ndarray :=
  let rows_text := plain_line <$> filter (fun l => is_rule l = false) lines in
  match parse_rows rows_text with
  | None => Raise MalformedPuzzle
  | Some rows => if decide (valid_grid rows) then Ok rows else Raise MalformedPuzzle
  end.

Definition from_text (lines : list string) : M SudokuGrid :=
  a ← lift (parse_lines lines);
  l ← alloc a;
  let g := mkSudokuGrid l in
  _ ← __post_init__ g; mret g.





(** The string holds no occurrence of the character. *)
Fixpoint no_char (c : ascii) (s : string) : Prop :=
  match s with
  | EmptyString => True
  | String x s' => x ≠ c ∧ no_char c s'
  end.

(** ** More of the grid *)

(** [SudokuGrid.flatten]: a 1D copy of the array, row after row. *)
Definition flatten (self : SudokuGrid) : M (list Z) :=
  a ← read (_array self); mret (concat a).

(** ** The model of a solution *)

(** The result list a filled grid [s] stands for over the propositions of
    the puzzle [a]: the id of a proposition whose cell holds its value in
    [s], the negated id of every other one. *)
Definition model_of (a s : ndarray) : list Z :=
  (fun p => if decide (cell s (row (coords p)) (col (coords p)) = Some (val p))
            then id p else - id p) <$> dict_values (propositions_of a).

(** ** Decoding over any proposition map *)

(** What the id [pid] makes [decode] raise on an n x n grid, if anything: a
    positive id that is a key of the map raises [IndexError] when the row or
    the column of its proposition is outside [-n, n), and otherwise
    [OverflowError] when the value of its proposition is not one of the
    array's type. *)
Definition write_fault (n : Z) (d : dict Z Proposition) (pid : Z) : option exn :=
  if 0 <? pid then
    match dict_get pid d with
    | Some p =>
        if decide (- n ≤ row (coords p) < n ∧ - n ≤ col (coords p) < n) then
          if decide (0 ≤ val p ≤ uint_max) then None else Some OverflowError
        else Some IndexError
    | None => None
    end
  else None.

(** The fault of the first id of the list that has one. *)
Fixpoint first_fault (n : Z) (d : dict Z Proposition) (results : list Z)
  : option exn :=
  match results with
  | [] => None
  | pid :: results' =>
      match write_fault n d pid with
      | Some err => Some err
      | None => first_fault n d results'
      end
  end.

(** * Part II: its properties *)

(** ** Clause-generating primitives *)

Lemma foldl_cnf_append self (cls : list (Proposition * Proposition)) :
  foldl (fun self '(p, q) => cnf_append self [- id p; - id q]) self cls
  = mkSudokuCNF (cnf self ++ (pair_clause <$> cls)) (propositions self) (puzzle self).
Proof.
  revert self. induction cls as [|[p q] cls IH]; intros self; simpl.
  - rewrite app_nil_r. by destruct self.
  - rewrite IH. simpl. by rewrite <- app_assoc.
Qed.

Lemma at_most_one_eq self P :
  _at_most_one self P
  = mkSudokuCNF (cnf self ++ (pair_clause <$> combinations2 P))
                (propositions self) (puzzle self).
Proof. apply foldl_cnf_append. Qed.

Lemma at_least_one_eq self P :
  _at_least_one self P
  = mkSudokuCNF (cnf self ++ match P with [] => [] | _ => [id <$> P] end)
                (propositions self) (puzzle self).
Proof.
  unfold _at_least_one. destruct P as [|p P]; simpl.
  - rewrite app_nil_r. by destruct self.
  - reflexivity.
Qed.

Lemma exactly_one_eq self P :
  _exactly_one self P
  = mkSudokuCNF
      (cnf self ++ match P with
                   | [] => []
                   | _ => (id <$> P) :: (pair_clause <$> combinations2 P)
                   end)
      (propositions self) (puzzle self).
Proof.
  destruct P as [|p P].
  - simpl. rewrite app_nil_r. by destruct self.
  - unfold _exactly_one. rewrite at_most_one_eq, at_least_one_eq. simpl.
    f_equal. by rewrite <- app_assoc.
Qed.

Lemma elem_of_combinations2 {A} (l : list A) (x y : A) :
  (x, y) ∈ combinations2 l ↔
  ∃ i j : nat, (i < j)%nat ∧ l !! i = Some x ∧ l !! j = Some y.
Proof.
  induction l as [|a l IH]; simpl.
  - split; [by intros ?%elem_of_nil | by intros (i & j & _ & ? & _)].
  - rewrite elem_of_app, list_elem_of_fmap, IH. split.
    + intros [(z & [= -> ->] & Hz) | (i & j & Hij & Hi & Hj)].
      * apply list_elem_of_lookup in Hz as [j Hj].
        exists 0%nat, (S j). split; [lia | done].
      * exists (S i), (S j). split; [lia | done].
    + intros (i & j & Hij & Hi & Hj).
      destruct j as [|j]; [lia |]. destruct i as [|i]; simpl in *.
      * left. exists y. injection Hi as ->. split; [done |].
        apply list_elem_of_lookup. eauto.
      * right. exists i, j. split; [lia | done].
Qed.

Lemma length_combinations2 {A} (l : list A) :
  (2 * length (combinations2 l) = length l * (length l - 1))%nat.
Proof.
  induction l as [|a l IH]; simpl; [done |].
  rewrite length_app, length_fmap. nia.
Qed.

(** C4.  At-least-one appends the single clause of the ids and nothing for
    an empty input; at-most-one appends, for every pair of positions i < j,
    the clause of the two negated ids, k(k-1)/2 clauses in all; exactly-one
    appends both, and nothing for an empty input.  No empty clause is ever
    appended, and the propositions and the puzzle are left alone. *)
Theorem clause_primitives_spec (self : SudokuCNF) (P : list Proposition) :
  (cnf (_at_least_one self P)
     = cnf self ++ match P with [] => [] | _ => [id <$> P] end) ∧
  (cnf (_at_most_one self P) = cnf self ++ (pair_clause <$> combinations2 P)) ∧
  (∀ p q, (p, q) ∈ combinations2 P ↔
          ∃ i j : nat, (i < j)%nat ∧ P !! i = Some p ∧ P !! j = Some q) ∧
  (length ((pair_clause <$> combinations2 P))
     = Nat.div (length P * (length P - 1)) 2) ∧
  (cnf (_exactly_one self P)
     = cnf (_at_most_one (_at_least_one self P) P)) ∧
  (P = [] → cnf (_at_least_one self P) = cnf self ∧
            cnf (_exactly_one self P) = cnf self) ∧
  (∀ f, f ∈ [_at_least_one; _at_most_one; _exactly_one] →
        propositions (f self P) = propositions self ∧
        puzzle (f self P) = puzzle self ∧
        ∀ cl, cl ∈ cnf (f self P) → cl ∈ cnf self ∨ cl ≠ []).
Proof.
  split_and!.
  - by rewrite at_least_one_eq.
  - by rewrite at_most_one_eq.
  - intros p q. apply elem_of_combinations2.
  - rewrite length_fmap. pose proof (length_combinations2 P) as H.
    rewrite <- H. symmetry. rewrite Nat.mul_comm. apply Nat.div_mul. lia.
  - destruct P as [|p P]; [|done].
    rewrite at_most_one_eq, at_least_one_eq. simpl. by rewrite !app_nil_r.
  - intros ->. split; [by rewrite at_least_one_eq, app_nil_r |].
    by rewrite exactly_one_eq, app_nil_r.
  - intros f Hf.
    assert (∃ new, f self P = mkSudokuCNF (cnf self ++ new)
                     (propositions self) (puzzle self) ∧ ∀ cl, cl ∈ new → cl ≠ [])
      as (new & -> & Hnew).
    { apply elem_of_cons in Hf as [-> | Hf]; [| apply elem_of_cons in Hf as [-> | Hf];
        [| apply list_elem_of_singleton in Hf as ->]].
      - eexists. split; [apply at_least_one_eq |].
        destruct P; [by intros ? ?%elem_of_nil |].
        by intros cl ->%list_elem_of_singleton.
      - eexists. split; [apply at_most_one_eq |].
        by intros cl ([? ?] & -> & _)%list_elem_of_fmap.
      - eexists. split; [apply exactly_one_eq |].
        destruct P; [by intros ? ?%elem_of_nil |].
        intros cl [-> | ([? ?] & -> & _)%list_elem_of_fmap]%elem_of_cons; done. }
    simpl. split_and!; [done .. |].
    intros cl [? | ?]%elem_of_app; [by left | right; auto].
Qed.

(** ** Cell access *)

Lemma py_index_in_range (n : nat) (i : Z) :
  - Z.of_nat n ≤ i < Z.of_nat n →
  py_index n i = Ok (Z.to_nat (i `mod` Z.of_nat n)).
Proof.
  intros Hi. unfold py_index.
  destruct (Z.leb_spec 0 i), (Z.ltb_spec i (Z.of_nat n)); simpl; try lia.
  - by rewrite Z.mod_small by lia.
  - destruct (Z.leb_spec (- Z.of_nat n) i), (Z.ltb_spec i 0); simpl; try lia.
    do 2 f_equal. rewrite <- (Z.mod_unique_pos i (Z.of_nat n) (-1) (i + Z.of_nat n)); lia.
Qed.

Lemma py_index_nonneg (n : nat) (i : Z) :
  0 ≤ i < Z.of_nat n → py_index n i = Ok (Z.to_nat i).
Proof.
  intros Hi. rewrite py_index_in_range by lia. by rewrite Z.mod_small by lia.
Qed.

Lemma py_index_out_of_range (n : nat) (i : Z) :
  ¬ (- Z.of_nat n ≤ i < Z.of_nat n) → py_index n i = Raise IndexError.
Proof.
  intros Hi. unfold py_index.
  destruct (Z.leb_spec 0 i), (Z.ltb_spec i (Z.of_nat n)); simpl; try lia;
  destruct (Z.leb_spec (- Z.of_nat n) i), (Z.ltb_spec i 0); simpl; try lia; done.
Qed.

Lemma py_index_lt (n : nat) (i : Z) (j : nat) :
  py_index n i = Ok j → (j < n)%nat.
Proof.
  unfold py_index.
  destruct (Z.leb_spec 0 i), (Z.ltb_spec i (Z.of_nat n)); simpl;
    try (intros [= <-]; lia);
  destruct (Z.leb_spec (- Z.of_nat n) i), (Z.ltb_spec i 0); simpl;
    try (intros [= <-]; lia); done.
Qed.

Lemma square_shape1 n a : square n a → 0 < n → Z.of_nat (shape1 a) = n.
Proof.
  intros [Hn Hrows] Hpos. destruct a as [|row a]; simpl in *; [lia |].
  by apply Forall_cons in Hrows as [? _].
Qed.

Lemma square_lookup n a (i : nat) :
  square n a → Z.of_nat i < n → ∃ row, a !! i = Some row ∧ Z.of_nat (length row) = n.
Proof.
  intros [Hn Hrows] Hi.
  destruct (lookup_lt_is_Some_2 a i) as [row Hrow]; [lia |].
  exists row. split; [done |].
  rewrite Forall_forall in Hrows. apply Hrows. by eapply list_elem_of_lookup_2.
Qed.

Lemma square_cell n a r c :
  square n a → 0 ≤ r < n → 0 ≤ c < n → is_Some (cell a r c).
Proof.
  intros Hsq Hr Hc. unfold cell. rewrite decide_True by lia.
  destruct (square_lookup n a (Z.to_nat r) Hsq) as (row & -> & Hlen); [lia |].
  simpl. apply lookup_lt_is_Some_2. lia.
Qed.

Lemma array_getitem_in_range n a r c :
  square n a → - n ≤ r < n → - n ≤ c < n →
  ∃ v, array_getitem a r c = Ok v ∧ cell a (r `mod` n) (c `mod` n) = Some v.
Proof.
  intros Hsq Hr Hc. assert (0 < n) as Hpos by lia.
  pose proof (square_shape1 n a Hsq Hpos) as H1. destruct Hsq as [H0 Hrows].
  unfold array_getitem, shape0.
  rewrite (py_index_in_range (length a) r) by lia. simpl.
  rewrite (py_index_in_range (shape1 a) c) by lia. simpl. rewrite H0, H1.
  pose proof (Z.mod_pos_bound r n Hpos). pose proof (Z.mod_pos_bound c n Hpos).
  destruct (square_cell n a (r `mod` n) (c `mod` n)) as [v Hv]; [done .. |].
  unfold cell in Hv. rewrite decide_True in Hv by lia.
  exists v. unfold cell. rewrite decide_True by lia. by rewrite Hv.
Qed.

Lemma array_getitem_out_of_range n a r c :
  square n a → ¬ (- n ≤ r < n ∧ - n ≤ c < n) →
  array_getitem a r c = Raise IndexError.
Proof.
  intros Hsq Hrc. unfold array_getitem, shape0.
  destruct (decide (- n ≤ r < n)) as [Hr | Hr].
  - assert (0 < n) as Hpos by lia.
    pose proof (square_shape1 n a Hsq Hpos) as H1. destruct Hsq as [H0 _].
    rewrite (py_index_in_range (length a) r) by lia. simpl.
    by rewrite (py_index_out_of_range (shape1 a) c) by lia.
  - destruct Hsq as [H0 _]. by rewrite (py_index_out_of_range (length a) r) by lia.
Qed.

Lemma array_setitem_in_range n a r c v :
  square n a → - n ≤ r < n → - n ≤ c < n → 0 ≤ v ≤ uint_max →
  array_setitem a r c v
  = Ok (array_update a (Z.to_nat (r `mod` n)) (Z.to_nat (c `mod` n)) v).
Proof.
  intros Hsq Hr Hc Hv. assert (0 < n) as Hpos by lia.
  pose proof (square_shape1 n a Hsq Hpos) as H1.
  pose proof (Z.mod_pos_bound r n Hpos) as Hrm.
  pose proof (Z.mod_pos_bound c n Hpos) as Hcm.
  destruct (square_lookup n a (Z.to_nat (r `mod` n)) Hsq) as (row & Hrow & Hlen);
    [lia |].
  destruct Hsq as [H0 Hrows]. unfold array_setitem, array_update, shape0.
  rewrite (py_index_in_range (length a) r) by lia. simpl.
  rewrite (py_index_in_range (shape1 a) c) by lia. simpl. rewrite H0, H1, Hrow.
  rewrite decide_True by lia. by rewrite decide_True by done.
Qed.

Lemma array_setitem_overflow n a r c v :
  square n a → - n ≤ r < n → - n ≤ c < n → ¬ (0 ≤ v ≤ uint_max) →
  array_setitem a r c v = Raise OverflowError.
Proof.
  intros Hsq Hr Hc Hv. assert (0 < n) as Hpos by lia.
  pose proof (square_shape1 n a Hsq Hpos) as H1.
  pose proof (Z.mod_pos_bound r n Hpos) as Hrm.
  pose proof (Z.mod_pos_bound c n Hpos) as Hcm.
  destruct (square_lookup n a (Z.to_nat (r `mod` n)) Hsq) as (row & Hrow & Hlen);
    [lia |].
  destruct Hsq as [H0 Hrows]. unfold array_setitem, shape0.
  rewrite (py_index_in_range (length a) r) by lia. simpl.
  rewrite (py_index_in_range (shape1 a) c) by lia. simpl. rewrite H0, H1, Hrow.
  rewrite decide_True by lia. by rewrite decide_False by done.
Qed.

Lemma array_setitem_out_of_range n a r c v :
  square n a → ¬ (- n ≤ r < n ∧ - n ≤ c < n) →
  array_setitem a r c v = Raise IndexError.
Proof.
  intros Hsq Hrc. unfold array_setitem, shape0.
  destruct (decide (- n ≤ r < n)) as [Hr | Hr].
  - assert (0 < n) as Hpos by lia.
    pose proof (square_shape1 n a Hsq Hpos) as H1. destruct Hsq as [H0 _].
    rewrite (py_index_in_range (length a) r) by lia. simpl.
    by rewrite (py_index_out_of_range (shape1 a) c) by lia.
  - destruct Hsq as [H0 _]. by rewrite (py_index_out_of_range (length a) r) by lia.
Qed.

Lemma cell_array_update a (i j : nat) v r c :
  is_Some (cell a (Z.of_nat i) (Z.of_nat j)) →
  cell (array_update a i j v) r c
  = if decide (r = Z.of_nat i ∧ c = Z.of_nat j) then Some v else cell a r c.
Proof.
  unfold cell, array_update. rewrite decide_True by lia. rewrite !Nat2Z.id.
  destruct (a !! i) as [row|] eqn:Hrow; simpl; [| by intros [? ?]].
  intros [w Hw]. pose proof (lookup_lt_Some _ _ _ Hrow) as Hi.
  pose proof (lookup_lt_Some _ _ _ Hw) as Hj.
  destruct (decide (0 ≤ r ∧ 0 ≤ c)) as [Hrc|Hrc].
  - destruct (decide (Z.to_nat r = i)) as [<-|Hne].
    + rewrite list_lookup_insert_eq by done. simpl.
      destruct (decide (Z.to_nat c = j)) as [<-|Hne'].
      * rewrite list_lookup_insert_eq by done. rewrite decide_True by lia. done.
      * rewrite list_lookup_insert_ne by done. rewrite decide_False by lia.
        by rewrite Hrow.
    + rewrite list_lookup_insert_ne by done. rewrite decide_False by lia. done.
  - rewrite decide_False by lia. done.
Qed.

Lemma square_array_update n a i j v : square n a → square n (array_update a i j v).
Proof.
  intros [H0 Hrows]. unfold array_update.
  destruct (a !! i) as [row|] eqn:Hrow; [| done]. split.
  - by rewrite length_insert.
  - apply Forall_insert; [done |]. rewrite length_insert.
    rewrite Forall_forall in Hrows. apply Hrows. by eapply list_elem_of_lookup_2.
Qed.

(** ** Running grid methods on a store *)

Lemma bind_run {A B} (m : M A) (f : A → M B) σ :
  (m ≫= f) σ = match m σ with Ok (x, σ') => f x σ' | Raise e => Raise e end.
Proof. reflexivity. Qed.

Lemma ret_run {A} (x : A) σ : (mret x : M A) σ = Ok (x, σ).
Proof. reflexivity. Qed.

Lemma read_run σ l a : σ !! l = Some a → read l σ = Ok (a, σ).
Proof. intros H. unfold read. by rewrite H. Qed.

Lemma write_run σ l a a' : σ !! l = Some a → write l a' σ = Ok (tt, <[l := a']> σ).
Proof. intros H. unfold write. by rewrite H. Qed.

Lemma getitem_run σ self a r c :
  σ !! _array self = Some a →
  __getitem__ self (r, c) σ
  = match array_getitem a r c with Ok v => Ok (v, σ) | Raise e => Raise e end.
Proof.
  intros H. unfold __getitem__. rewrite bind_run, (read_run _ _ _ H). done.
Qed.

Lemma setitem_run σ self a r c v :
  σ !! _array self = Some a →
  __setitem__ self (r, c) v σ
  = match array_setitem a r c v with
    | Ok a' => Ok (tt, <[_array self := a']> σ)
    | Raise e => Raise e
    end.
Proof.
  intros H. unfold __setitem__. rewrite bind_run, (read_run _ _ _ H). simpl.
  rewrite bind_run. unfold lift. destruct (array_setitem a r c v); [| done].
  by rewrite (write_run _ _ _ _ H).
Qed.

(** C10, as stated, fails: row -1 lies outside [0, 4), yet reading at
    (-1, 0) raises nothing and returns the value of cell (3, 0), and writing
    there changes cell (3, 0). *)
Lemma getitem_negative_row_counterexample :
  let g := mkSudokuGrid 0 in
  ¬ (0 ≤ -1 < 4) ∧
  __getitem__ g (-1, 0) [grid4] = Ok (4, [grid4]) ∧
  cell grid4 3 0 = Some 4 ∧
  __setitem__ g (-1, 0) 9 [grid4]
  = Ok (tt, [[[1; 2; 3; 4]; [3; 4; 1; 2]; [2; 1; 4; 3]; [9; 3; 2; 1]]]).
Proof. split; [lia |]. by vm_compute. Qed.

(** C10, amended.  On an n x n grid the accessors raise [IndexError] exactly
    when the row or the column lies outside [-n, n).  Inside that range they
    reach the cell at (row mod n, col mod n), which for indices in [0, n) is
    the cell named: the read returns its value and leaves the store alone;
    the write of a value of the array's type stores the value there and
    changes no other cell, and the write of any other integer raises
    [OverflowError]. *)
Theorem accessors_index_range (σ : store) (self : SudokuGrid) (a : ndarray)
    (n r c : Z) :
  σ !! _array self = Some a →
  square n a →
  (__getitem__ self (r, c) σ = Raise IndexError ↔ ¬ (- n ≤ r < n ∧ - n ≤ c < n)) ∧
  (∀ v, __setitem__ self (r, c) v σ = Raise IndexError
        ↔ ¬ (- n ≤ r < n ∧ - n ≤ c < n)) ∧
  (- n ≤ r < n ∧ - n ≤ c < n →
   (∃ w, __getitem__ self (r, c) σ = Ok (w, σ) ∧
         cell a (r `mod` n) (c `mod` n) = Some w) ∧
   (∀ v, 0 ≤ v ≤ uint_max →
         ∃ a', __setitem__ self (r, c) v σ = Ok (tt, <[_array self := a']> σ) ∧
               square n a' ∧
               ∀ r' c', cell a' r' c'
                        = if decide (r' = r `mod` n ∧ c' = c `mod` n) then Some v
                          else cell a r' c') ∧
   (∀ v, ¬ (0 ≤ v ≤ uint_max) →
         __setitem__ self (r, c) v σ = Raise OverflowError)) ∧
  (0 ≤ r < n ∧ 0 ≤ c < n → r `mod` n = r ∧ c `mod` n = c).
Proof.
  intros Hσ Hsq.
  assert (- n ≤ r < n ∧ - n ≤ c < n →
   (∃ w, __getitem__ self (r, c) σ = Ok (w, σ) ∧
         cell a (r `mod` n) (c `mod` n) = Some w) ∧
   (∀ v, 0 ≤ v ≤ uint_max →
         ∃ a', __setitem__ self (r, c) v σ = Ok (tt, <[_array self := a']> σ) ∧
               square n a' ∧
               ∀ r' c', cell a' r' c'
                        = if decide (r' = r `mod` n ∧ c' = c `mod` n) then Some v
                          else cell a r' c') ∧
   (∀ v, ¬ (0 ≤ v ≤ uint_max) →
         __setitem__ self (r, c) v σ = Raise OverflowError)) as Hin.
  { intros [Hr Hc]. assert (0 < n) as Hpos by lia.
    pose proof (Z.mod_pos_bound r n Hpos) as Hrm.
    pose proof (Z.mod_pos_bound c n Hpos) as Hcm. split_and!.
    - destruct (array_getitem_in_range n a r c Hsq Hr Hc) as (w & Hw & Hcell).
      exists w. by rewrite (getitem_run _ _ _ _ _ Hσ), Hw.
    - intros v Hv. eexists. rewrite (setitem_run _ _ _ _ _ _ Hσ).
      rewrite (array_setitem_in_range n) by done. split; [done |].
      split; [by apply square_array_update |]. intros r' c'.
      rewrite cell_array_update; rewrite !Z2Nat.id by lia; [done |].
      by apply (square_cell n).
    - intros v Hv. rewrite (setitem_run _ _ _ _ _ _ Hσ).
      by rewrite (array_setitem_overflow n). }
  split_and!; [| | done | intros [? ?]; by rewrite !Z.mod_small by lia].
  - rewrite (getitem_run _ _ _ _ _ Hσ). split.
    + intros Hraise Hrc. destruct (Hin Hrc) as [(w & Hw & _) _].
      rewrite (getitem_run _ _ _ _ _ Hσ) in Hw. by rewrite Hw in Hraise.
    + intros Hrc. by rewrite (array_getitem_out_of_range n).
  - intros v. split.
    + intros Hraise Hrc. destruct (Hin Hrc) as (_ & Hset & Hover).
      destruct (decide (0 ≤ v ≤ uint_max)) as [Hv | Hv].
      * destruct (Hset v Hv) as (a' & Ha' & _). by rewrite Ha' in Hraise.
      * by rewrite (Hover v Hv) in Hraise.
    + intros Hrc. rewrite (setitem_run _ _ _ _ _ _ Hσ).
      by rewrite (array_setitem_out_of_range n).
Qed.

Lemma accessors_index_range_witness :
  (__getitem__ (mkSudokuGrid 0) (5, 0) [grid4] = Raise IndexError
   ↔ ¬ (- 4 ≤ 5 < 4 ∧ - 4 ≤ 0 < 4)).
Proof.
  refine (proj1 (accessors_index_range [grid4] (mkSudokuGrid 0) grid4 4 5 0 _ _)).
  - reflexivity.
  - by_evaluation.
Defined.

(** ** Valid grids *)

Lemma valid_grid_square a : valid_grid a → square (grid_size a) a.
Proof.
  intros (_ & Hrows & _). split; [done |].
  eapply Forall_impl; [exact Hrows |]. by intros row [? _].
Qed.

Lemma block_of_range k r c :
  0 < k → 0 ≤ r < k * k → 0 ≤ c < k * k → 0 ≤ block_of k r c < k * k.
Proof.
  intros Hk Hr Hc. unfold block_of.
  assert (0 ≤ r / k < k) by (split; [apply Z.div_pos | apply Z.div_lt_upper_bound]; lia).
  assert (0 ≤ c / k < k) by (split; [apply Z.div_pos | apply Z.div_lt_upper_bound]; lia).
  nia.
Qed.

Lemma size_run σ self a :
  σ !! _array self = Some a → size self σ = Ok (grid_size a, σ).
Proof. intros H. unfold size. by rewrite bind_run, (read_run _ _ _ H). Qed.

Lemma block_size_run σ self a :
  σ !! _array self = Some a → valid_grid a →
  block_size self σ = Ok (grid_block_size a, σ).
Proof.
  intros H [Hk _]. unfold block_size. rewrite bind_run, (size_run _ _ _ H).
  fold (grid_block_size a). by rewrite (proj2 (Z.eqb_eq _ _) Hk).
Qed.

Lemma block_index_run σ self a r c :
  σ !! _array self = Some a → valid_grid a →
  block_index self r c σ = Ok (block_of (grid_block_size a) r c, σ).
Proof.
  intros H Hv. unfold block_index. by rewrite bind_run, (block_size_run _ _ _ H Hv).
Qed.

Lemma enumerate_run σ self a :
  σ !! _array self = Some a → enumerate self σ = Ok (ndenumerate a, σ).
Proof. intros H. unfold enumerate. by rewrite bind_run, (read_run _ _ _ H). Qed.

(** ** What [ndenumerate] yields *)

Lemma elem_of_enum_from {A} (l : list A) (i j : Z) (x : A) :
  (j, x) ∈ enum_from i l ↔ i ≤ j ∧ l !! Z.to_nat (j - i) = Some x.
Proof.
  revert i. induction l as [|y l IH]; intros i; simpl.
  - rewrite elem_of_nil. naive_solver.
  - rewrite elem_of_cons, IH. split.
    + intros [[= -> ->] | [Hle Hx]].
      * split; [lia |]. by rewrite Z.sub_diag.
      * split; [lia |]. replace (Z.to_nat (j - i)) with (S (Z.to_nat (j - (i + 1)))) by lia.
        done.
    + intros [Hle Hx]. destruct (decide (j = i)) as [-> | Hne].
      * left. rewrite Z.sub_diag in Hx. simpl in Hx. by injection Hx as ->.
      * right. split; [lia |].
        replace (Z.to_nat (j - i)) with (S (Z.to_nat (j - (i + 1)))) in Hx by lia.
        done.
Qed.

Lemma elem_of_ndenumerate a r c v :
  ((r, c), v) ∈ ndenumerate a ↔ cell a r c = Some v.
Proof.
  unfold ndenumerate, cell. rewrite list_elem_of_bind. split.
  - intros ([r' row] & Hin & Hrow). apply list_elem_of_fmap in Hin as ([c' v'] & [= -> -> ->] & Hc).
    apply elem_of_enum_from in Hrow as [Hr Hrow], Hc as [Hc Hv].
    rewrite Z.sub_0_r in Hrow, Hv. rewrite decide_True by lia. by rewrite Hrow.
  - destruct (decide (0 ≤ r ∧ 0 ≤ c)) as [[Hr Hc]|]; [| done].
    destruct (a !! Z.to_nat r) as [row|] eqn:Hrow; [| done]. simpl. intros Hv.
    exists (r, row). split.
    + apply list_elem_of_fmap. exists (c, v). split; [done |].
      apply elem_of_enum_from. by rewrite Z.sub_0_r.
    + apply elem_of_enum_from. by rewrite Z.sub_0_r.
Qed.

Lemma cell_range a r c v :
  valid_grid a → cell a r c = Some v →
  0 ≤ r < grid_size a ∧ 0 ≤ c < grid_size a ∧ 0 ≤ v ≤ grid_size a.
Proof.
  intros (_ & Hrows & _) Hcell. unfold cell in Hcell.
  destruct (decide (0 ≤ r ∧ 0 ≤ c)) as [[Hr Hc]|]; [| done].
  destruct (a !! Z.to_nat r) as [row|] eqn:Hrow; [| done]. simpl in Hcell.
  rewrite Forall_forall in Hrows.
  destruct (Hrows row) as [Hlen Hvals]; [by eapply list_elem_of_lookup_2 |].
  rewrite Forall_forall in Hvals.
  pose proof (lookup_lt_Some _ _ _ Hrow). pose proof (lookup_lt_Some _ _ _ Hcell).
  unfold grid_size in *. split_and!; try lia; apply Hvals;
    by eapply list_elem_of_lookup_2.
Qed.

(** ** The first loop: values already placed *)

Lemma elem_of_placed_by key items i v :
  v ∈ placed_by key items i ↔ v ≠ 0 ∧ ∃ rc, (rc, v) ∈ items ∧ key rc = i.
Proof.
  unfold placed_by. rewrite elem_of_list_to_set, list_elem_of_fmap. split.
  - intros ([rc w] & -> & [[Hw Hk] Hin]%list_elem_of_filter). simpl in *. eauto.
  - intros (Hv & rc & Hin & Hk). exists (rc, v). split; [done |].
    apply list_elem_of_filter. done.
Qed.

Lemma placed_by_cons key rc v items i w :
  w ∈ placed_by key ((rc, v) :: items) i ↔
  (w = v ∧ v ≠ 0 ∧ key rc = i) ∨ w ∈ placed_by key items i.
Proof.
  rewrite !elem_of_placed_by. split.
  - intros (Hw & rc' & [[= -> ->] | Hin]%elem_of_cons & Hk); [by left |].
    right. eauto.
  - intros [(-> & Hv & Hk) | (Hw & rc' & Hin & Hk)].
    + split; [done |]. exists rc. split; [by left | done].
    + split; [done |]. exists rc'. split; [by right | done].
Qed.

Lemma used_add_ok (used : list (gset Z)) (i v : Z) :
  0 ≤ i < Z.of_nat (length used) →
  ∃ used', used_add used i v = Ok used' ∧ length used' = length used ∧
           ∀ j w, 0 ≤ j → w ∈ uget used' j ↔ w ∈ uget used j ∨ (j = i ∧ w = v).
Proof.
  intros Hi. unfold used_add. rewrite py_index_nonneg by done. simpl.
  destruct (lookup_lt_is_Some_2 used (Z.to_nat i)) as [s Hs]; [lia |].
  rewrite Hs. eexists. split; [done |]. split; [by rewrite length_insert |].
  intros j w Hj. unfold uget. destruct (decide (j = i)) as [-> | Hne].
  - rewrite list_lookup_insert_eq by lia. rewrite Hs. simpl. set_solver.
  - rewrite list_lookup_insert_ne by lia. naive_solver.
Qed.

Lemma used_get_ok (used : list (gset Z)) (i : Z) :
  0 ≤ i < Z.of_nat (length used) → used_get used i = Ok (uget used i).
Proof.
  intros Hi. unfold used_get, uget. rewrite py_index_nonneg by done. simpl.
  destruct (lookup_lt_is_Some_2 used (Z.to_nat i)) as [s Hs]; [lia |].
  by rewrite Hs.
Qed.

Section first_loop.
Context (σ : store) (self : SudokuGrid) (a : ndarray).
Context (Hσ : σ !! _array self = Some a) (Hvalid : valid_grid a).

Local Abbreviation n := (grid_size a).
Local Abbreviation k := (grid_block_size a).

Lemma block_of_grid_range r c v :
  cell a r c = Some v → 0 ≤ block_of k r c < n.
Proof.
  intros Hc. destruct (cell_range a r c v Hvalid Hc) as (Hr & Hcc & _).
  destruct Hvalid as [Hk _]. rewrite <- Hk in *.
  pose proof (Z.sqrt_nonneg (grid_size a)) as Hk0. fold (grid_block_size a) in Hk0.
  assert (0 < k) by nia. by apply block_of_range.
Qed.

Lemma scan_used_loop items ru cu bu :
  (∀ rc v, (rc, v) ∈ items → cell a rc.1 rc.2 = Some v) →
  Z.of_nat (length ru) = n → Z.of_nat (length cu) = n → Z.of_nat (length bu) = n →
  ∃ ru' cu' bu',
    for_each items (scan_used self) (ru, cu, bu) σ = Ok ((ru', cu', bu'), σ) ∧
    Z.of_nat (length ru') = n ∧ Z.of_nat (length cu') = n ∧
    Z.of_nat (length bu') = n ∧
    ∀ i v, 0 ≤ i →
      (v ∈ uget ru' i ↔ v ∈ uget ru i ∨ v ∈ placed_by fst items i) ∧
      (v ∈ uget cu' i ↔ v ∈ uget cu i ∨ v ∈ placed_by snd items i) ∧
      (v ∈ uget bu' i ↔
       v ∈ uget bu i ∨ v ∈ placed_by (fun rc => block_of k rc.1 rc.2) items i).
Proof.
  revert ru cu bu. induction items as [|[[r c] v] items IH]; intros ru cu bu Hitems Hr Hc Hb.
  - exists ru, cu, bu. split; [done |]. split_and!; try done.
    intros i v _. rewrite !elem_of_placed_by. setoid_rewrite elem_of_nil. naive_solver.
  - assert (cell a r c = Some v) as Hcell by (apply (Hitems (r, c)); left).
    assert (∀ rc w, (rc, w) ∈ items → cell a rc.1 rc.2 = Some w) as Hitems'
      by (intros; apply Hitems; by right).
    simpl. rewrite bind_run. unfold scan_used at 1.
    destruct (decide (v ≠ 0)) as [Hv | Hv].
    + destruct (cell_range a r c v Hvalid Hcell) as (Hrr & Hcc & _).
      pose proof (block_of_grid_range r c v Hcell) as Hbb.
      destruct (used_add_ok ru r v) as (ru1 & Hru1 & Hlr & Hmr); [lia |].
      destruct (used_add_ok cu c v) as (cu1 & Hcu1 & Hlc & Hmc); [lia |].
      destruct (used_add_ok bu (block_of k r c) v) as (bu1 & Hbu1 & Hlb & Hmb); [lia |].
      rewrite bind_run, (block_index_run _ _ _ _ _ Hσ Hvalid).
      rewrite bind_run. unfold lift at 1. rewrite Hru1.
      rewrite bind_run. unfold lift at 1. rewrite Hcu1.
      rewrite bind_run. unfold lift at 1. rewrite Hbu1. simpl.
      destruct (IH ru1 cu1 bu1 Hitems') as (ru' & cu' & bu' & Hrun & ? & ? & ? & Hmem);
        [lia .. |].
      exists ru', cu', bu'. split; [done |]. split_and!; try done.
      intros i w Hi. destruct (Hmem i w Hi) as (Hm1 & Hm2 & Hm3).
      rewrite Hm1, Hm2, Hm3, Hmr, Hmc, Hmb by done.
      rewrite !placed_by_cons. simpl. clear -Hv. intuition congruence.
    + simpl.
      destruct (IH ru cu bu Hitems') as (ru' & cu' & bu' & Hrun & ? & ? & ? & Hmem);
        [done .. |].
      exists ru', cu', bu'. split; [done |]. split_and!; try done.
      intros i w Hi. destruct (Hmem i w Hi) as (Hm1 & Hm2 & Hm3).
      rewrite Hm1, Hm2, Hm3. rewrite !placed_by_cons. simpl.
      clear -Hv. intuition congruence.
Qed.
End first_loop.

(** ** The proposition space as a function of the array *)

Lemma mk_props_app next l1 l2 :
  mk_props next (l1 ++ l2)
  = mk_props next l1 ++ mk_props (next + Z.of_nat (length l1)) l2.
Proof.
  revert next. induction l1 as [|[co v] l1 IH]; intros next; simpl.
  - by rewrite Z.add_0_r.
  - rewrite IH. do 3 f_equal. lia.
Qed.

Lemma mk_props_keys next cvs :
  dict_keys (mk_props next cvs) = seqZ next (Z.of_nat (length cvs)).
Proof.
  revert next. induction cvs as [|[co v] cvs IH]; intros next; [done |].
  cbn [mk_props length]. unfold dict_keys in *. rewrite fmap_cons, IH.
  rewrite (seqZ_cons next) by lia. simpl. do 2 f_equal; lia.
Qed.

Lemma dict_setitem_fresh {V} (k : Z) (v : V) (d : dict Z V) :
  Forall (fun kv => kv.1 < k) d → dict_setitem k v d = d ++ [(k, v)].
Proof.
  induction 1 as [|[k' v'] d Hk _ IH]; simpl; [done |].
  simpl in Hk. rewrite decide_False by lia. by rewrite IH.
Qed.

Lemma mk_props_bound next cvs :
  Forall (fun kv => kv.1 < next + Z.of_nat (length cvs)) (mk_props next cvs).
Proof.
  revert next. induction cvs as [|[co v] cvs IH]; intros next; [constructor |].
  cbn [mk_props length]. constructor; [simpl; lia |].
  eapply Forall_impl; [apply (IH (next + 1)) |]. intros kv ?. simpl in *. lia.
Qed.

Lemma add_proposition_loop σ r c b ws ps next :
  Forall (fun kv => kv.1 < next) ps →
  for_each ws (add_proposition r c b) (ps, next) σ
  = Ok ((ps ++ mk_props next ((fun w => (mkCoordinates r c b, w)) <$> ws),
         next + Z.of_nat (length ws)), σ).
Proof.
  revert ps next. induction ws as [|w ws IH]; intros ps next Hps.
  - simpl. by rewrite app_nil_r, Z.add_0_r.
  - cbn [for_each]. rewrite bind_run. cbn [add_proposition]. rewrite ret_run.
    rewrite dict_setitem_fresh by done. rewrite IH.
    + rewrite <- app_assoc. simpl. do 3 f_equal. lia.
    + apply Forall_app. split.
      * eapply Forall_impl; [exact Hps |]. intros kv ?. simpl in *. lia.
      * constructor; [simpl; lia | constructor].
Qed.

Section second_loop.
Context (σ : store) (self : SudokuGrid) (a : ndarray).
Context (Hσ : σ !! _array self = Some a) (Hvalid : valid_grid a).

Local Abbreviation n := (grid_size a).
Local Abbreviation k := (grid_block_size a).

Lemma scan_empty_loop items ru cu bu ps next :
  (∀ rc v, (rc, v) ∈ items → cell a rc.1 rc.2 = Some v) →
  Z.of_nat (length ru) = n → Z.of_nat (length cu) = n → Z.of_nat (length bu) = n →
  (∀ i, 0 ≤ i < n → uget ru i = row_used_of a i ∧ uget cu i = col_used_of a i ∧
                    uget bu i = block_used_of a i) →
  Forall (fun kv => kv.1 < next) ps →
  for_each items (scan_empty self (list_to_set (seqZ 1 n)) (ru, cu, bu)) (ps, next) σ
  = Ok ((ps ++ mk_props next (pairs_of a items),
         next + Z.of_nat (length (pairs_of a items))), σ).
Proof.
  intros Hitems Hr Hc Hb Hused. revert ps next Hitems.
  induction items as [|[[r c] v] items IH]; intros ps next Hitems Hps.
  - simpl. by rewrite app_nil_r, Z.add_0_r.
  - assert (cell a r c = Some v) as Hcell by (apply (Hitems (r, c)); left).
    assert (∀ rc w, (rc, w) ∈ items → cell a rc.1 rc.2 = Some w) as Hitems'
      by (intros; apply Hitems; by right).
    cbn [for_each]. rewrite bind_run. unfold scan_empty at 1.
    unfold pairs_of. rewrite bind_cons. fold (pairs_of a items).
    destruct (decide (v ≠ 0)) as [Hv | Hv].
    + rewrite ret_run. simpl. by rewrite IH.
    + destruct (cell_range a r c v Hvalid Hcell) as (Hrr & Hcc & _).
      pose proof (block_of_grid_range a Hvalid r c v Hcell) as Hbb.
      rewrite bind_run, (block_index_run _ _ _ _ _ Hσ Hvalid).
      rewrite bind_run. unfold lift at 1. rewrite used_get_ok by lia.
      rewrite bind_run. unfold lift at 1. rewrite used_get_ok by lia.
      rewrite bind_run. unfold lift at 1. rewrite used_get_ok by lia.
      destruct (Hused r Hrr) as (-> & _ & _). destruct (Hused c Hcc) as (_ & -> & _).
      destruct (Hused _ Hbb) as (_ & _ & ->). fold (allowed a r c).
      rewrite add_proposition_loop by done. rewrite IH; [| done |].
      * rewrite mk_props_app, length_app, !length_fmap, <- app_assoc.
        by rewrite Nat2Z.inj_add, Z.add_assoc.
      * apply Forall_app. split.
        -- eapply Forall_impl; [exact Hps |]. intros kv ?. simpl in *. lia.
        -- match goal with |- Forall _ (mk_props _ ?l) =>
             pose proof (mk_props_bound next l) as Hbound end.
           by rewrite length_fmap in Hbound.
Qed.
End second_loop.

Lemma uget_replicate (m : nat) (i : Z) : uget (replicate m ∅) i = ∅.
Proof.
  unfold uget. destruct (replicate m ∅ !! Z.to_nat i) as [s|] eqn:Hs; [| done].
  by apply lookup_replicate in Hs as [-> _].
Qed.

(** On a valid grid [_possible_propositions] raises nothing, leaves the
    store alone and returns [propositions_of]. *)
Lemma possible_propositions_run σ self a :
  σ !! _array self = Some a → valid_grid a →
  _possible_propositions self σ = Ok (propositions_of a, σ).
Proof.
  intros Hσ Hvalid. unfold _possible_propositions.
  rewrite bind_run, (size_run _ _ _ Hσ).
  rewrite bind_run, (enumerate_run _ _ _ Hσ).
  assert (Z.of_nat (length (replicate (Z.to_nat (grid_size a)) (∅ : gset Z)))
          = grid_size a) as Hlen by (rewrite length_replicate; unfold grid_size; lia).
  destruct (scan_used_loop σ self a Hσ Hvalid (ndenumerate a) _ _ _
              (fun rc v H => proj1 (elem_of_ndenumerate a rc.1 rc.2 v)
                               (eq_rect _ (fun x => (x, v) ∈ ndenumerate a) H _
                                  (surjective_pairing rc)))
              Hlen Hlen Hlen)
    as (ru & cu & bu & Hrun & Hlr & Hlc & Hlb & Hmem).
  rewrite bind_run, Hrun. rewrite bind_run, (enumerate_run _ _ _ Hσ).
  rewrite bind_run.
  rewrite (scan_empty_loop σ self a Hσ Hvalid); try done.
  - intros [r c] v Hin. by apply elem_of_ndenumerate.
  - intros i Hi. split_and!; apply set_eq; intros v;
      destruct (Hmem i v (proj1 Hi)) as (H1 & H2 & H3);
      rewrite ?H1, ?H2, ?H3, uget_replicate; set_solver.
Qed.

(** ** Order of the proposition space *)

Lemma StronglySorted_bind {A B} (R' : relation A) (R : relation B)
    (f : A → list B) (l : list A) :
  StronglySorted R' l →
  (∀ x, x ∈ l → StronglySorted R (f x)) →
  (∀ x y u w, R' x y → u ∈ f x → w ∈ f y → R u w) →
  StronglySorted R (l ≫= f).
Proof.
  intros Hl Hf HR. induction Hl as [|x l Hl IH Hx]; [constructor |].
  rewrite bind_cons. apply StronglySorted_app_2.
  - intros u w Hu (y & Hw & Hy)%list_elem_of_bind. rewrite Forall_forall in Hx.
    eapply HR; [by apply Hx | done ..].
  - apply Hf. by left.
  - apply IH. intros y Hy. apply Hf. by right.
Qed.

Lemma enum_from_sorted {A} (i : Z) (l : list A) :
  StronglySorted (fun x y => x.1 < y.1) (enum_from i l).
Proof.
  revert i. induction l as [|x l IH]; intros i; simpl; constructor; [apply IH |].
  apply Forall_forall. intros [j y] [Hj _]%elem_of_enum_from. simpl. lia.
Qed.

Lemma ndenumerate_sorted a :
  StronglySorted (fun x y => x.1.1 < y.1.1 ∨ (x.1.1 = y.1.1 ∧ x.1.2 < y.1.2))
                 (ndenumerate a).
Proof.
  unfold ndenumerate.
  apply (StronglySorted_bind (fun x y => x.1 < y.1)); [apply enum_from_sorted | |].
  - intros [r rw] _.
    eapply (StronglySorted_fmap _ (fun x y => x.1 < y.1)); [| apply enum_from_sorted].
    intros [c v] [c' v'] Hc. simpl in *. right. done.
  - intros [r rw] [r' rw'] u w Hr ([c v] & -> & _)%list_elem_of_fmap
      ([c' v'] & -> & _)%list_elem_of_fmap. simpl in *. by left.
Qed.

Lemma elem_of_sorted (s : gset Z) v : v ∈ sorted s ↔ v ∈ s.
Proof. unfold sorted. by rewrite merge_sort_Permutation, elem_of_elements. Qed.

Lemma sorted_ascending (s : gset Z) : StronglySorted Z.lt (sorted s).
Proof.
  unfold sorted.
  assert (NoDup (merge_sort Z.le (elements s))) as Hnd
    by (rewrite merge_sort_Permutation; apply NoDup_elements).
  pose proof (StronglySorted_merge_sort Z.le (elements s)) as Hs.
  induction Hs as [|x l Hl IH Hx]; [constructor |].
  apply NoDup_cons in Hnd as [Hx' Hnd]. constructor; [by apply IH |].
  rewrite Forall_forall in Hx |- *. intros y Hy. specialize (Hx y Hy).
  assert (x ≠ y) by (by intros ->). lia.
Qed.

Lemma fmap_over_bind {A B C} (f : B → C) (g : A → list B) (l : list A) :
  f <$> (l ≫= g) = l ≫= (fun x => f <$> g x).
Proof.
  induction l as [|x l IH]; [done |]. by rewrite !bind_cons, fmap_app, IH.
Qed.

Lemma pairs_of_sorted a :
  StronglySorted triple_lt
    ((fun cv => (row cv.1, col cv.1, cv.2)) <$> pairs_of a (ndenumerate a)).
Proof.
  unfold pairs_of. rewrite fmap_over_bind.
  eapply StronglySorted_bind; [apply ndenumerate_sorted | |].
  - intros [[r c] v] _. simpl. destruct (decide (v ≠ 0)); [constructor |].
    rewrite <- list_fmap_compose.
    eapply (StronglySorted_fmap _ Z.lt); [| apply sorted_ascending].
    intros x y Hxy. unfold triple_lt. simpl. lia.
  - intros [[r c] v] [[r' c'] v'] u w Hlt. simpl in *.
    destruct (decide (v ≠ 0)); [by intros ?%elem_of_nil |].
    destruct (decide (v' ≠ 0)); [by intros _ ?%elem_of_nil |].
    rewrite <- !list_fmap_compose.
    intros (x & -> & _)%list_elem_of_fmap (y & -> & _)%list_elem_of_fmap.
    unfold triple_lt. simpl. lia.
Qed.

(** ** Membership in the proposition space *)

Lemma elem_of_allowed a r c v : v ∈ allowed a r c ↔ candidate a r c v.
Proof.
  unfold allowed, candidate, row_used_of, col_used_of, block_used_of.
  rewrite !elem_of_difference, elem_of_list_to_set, elem_of_seqZ, !elem_of_placed_by.
  split.
  - intros [[[Hv Hr] Hc] Hb]. split; [lia |]. intros r' c' Hcell.
    apply elem_of_ndenumerate in Hcell. split_and!; intros Heq.
    + apply Hr. split; [lia |]. by exists (r', c').
    + apply Hc. split; [lia |]. by exists (r', c').
    + apply Hb. split; [lia |]. by exists (r', c').
  - intros [Hv Hcand]. split_and!; try lia;
      intros (_ & [r' c'] & Hin%elem_of_ndenumerate & Hk); simpl in *;
      destruct (Hcand r' c' Hin) as (? & ? & ?); done.
Qed.

Lemma elem_of_pairs_of a co v :
  (co, v) ∈ pairs_of a (ndenumerate a) ↔
  cell a (row co) (col co) = Some 0 ∧
  block co = block_of (grid_block_size a) (row co) (col co) ∧
  candidate a (row co) (col co) v.
Proof.
  unfold pairs_of. rewrite list_elem_of_bind. split.
  - intros ([[r c] w] & Hin & Hcell%elem_of_ndenumerate).
    destruct (decide (w ≠ 0)) as [|Hw]; [by apply elem_of_nil in Hin |].
    apply list_elem_of_fmap in Hin as (v' & [= -> ->] & Hv%elem_of_sorted).
    simpl. apply elem_of_allowed in Hv. assert (w = 0) as -> by lia. done.
  - intros (Hcell & Hb & Hcand). exists ((row co, col co), 0). split.
    + rewrite decide_False by lia. apply list_elem_of_fmap. exists v. split.
      * destruct co; simpl in *; by subst.
      * by apply elem_of_sorted, elem_of_allowed.
    + by apply elem_of_ndenumerate.
Qed.

Lemma mk_props_values next cvs :
  dict_values (mk_props next cvs)
  = zip_with (fun i cv => mkProposition cv.1 cv.2 i)
             (seqZ next (Z.of_nat (length cvs))) cvs.
Proof.
  revert next. induction cvs as [|[co v] cvs IH]; intros next; [done |].
  cbn [mk_props length]. unfold dict_values in *. rewrite fmap_cons, IH.
  rewrite (seqZ_cons next) by lia. simpl. do 3 f_equal; lia.
Qed.

Lemma mk_props_self next cvs :
  mk_props next cvs = (fun p => (id p, p)) <$> dict_values (mk_props next cvs).
Proof.
  revert next. induction cvs as [|[co v] cvs IH]; intros next; [done |].
  cbn [mk_props]. unfold dict_values in *. rewrite !fmap_cons. simpl.
  f_equal. apply IH.
Qed.

Lemma mk_props_ids next cvs :
  id <$> dict_values (mk_props next cvs) = seqZ next (Z.of_nat (length cvs)).
Proof.
  rewrite <- mk_props_keys. rewrite (mk_props_self next cvs) at 2.
  unfold dict_keys. rewrite <- list_fmap_compose. done.
Qed.

Lemma mk_props_pairs next cvs :
  (fun p => (coords p, val p)) <$> dict_values (mk_props next cvs) = cvs.
Proof.
  revert next. induction cvs as [|[co v] cvs IH]; intros next; [done |].
  cbn [mk_props]. unfold dict_values in *. rewrite !fmap_cons. simpl.
  f_equal. apply IH.
Qed.

Lemma dict_get_mk_props next cvs i p :
  dict_get i (mk_props next cvs) = Some p ↔
  next ≤ i ∧ dict_values (mk_props next cvs) !! Z.to_nat (i - next) = Some p.
Proof.
  revert next. induction cvs as [|[co v] cvs IH]; intros next.
  - simpl. naive_solver.
  - cbn [mk_props dict_get]. unfold dict_values in *. rewrite fmap_cons. simpl.
    destruct (decide (i = next)) as [-> | Hne].
    + rewrite Z.sub_diag. simpl. naive_solver lia.
    + rewrite IH. split.
      * intros [Hle Hp]. split; [lia |].
        replace (Z.to_nat (i - next)) with (S (Z.to_nat (i - (next + 1)))) by lia.
        done.
      * intros [Hle Hp]. split; [lia |].
        replace (Z.to_nat (i - next)) with (S (Z.to_nat (i - (next + 1)))) in Hp by lia.
        done.
Qed.

Lemma puzzle4_valid : valid_grid puzzle4.
Proof. by_evaluation. Defined.

(** C2.  On a valid grid [_possible_propositions] returns, whatever the
    store and the grid object, the dictionary [propositions_of a], a function
    of the array alone.  Its keys are the ids of its values; the ids are
    1..k in order, so looking up id i gives the i-th proposition; there is a
    proposition with coordinates [co] and value [v] exactly when [co] is an
    empty cell with its block and [v] a candidate there; and the
    propositions come in row-major order of cells, ascending in value within
    a cell, so no cell-value pair occurs twice. *)
Theorem possible_propositions_spec (σ : store) (self : SudokuGrid) (a : ndarray) :
  σ !! _array self = Some a →
  valid_grid a →
  let d := propositions_of a in
  let ps := dict_values d in
  _possible_propositions self σ = Ok (d, σ) ∧
  d = (fun p => (id p, p)) <$> ps ∧
  id <$> ps = seqZ 1 (Z.of_nat (length ps)) ∧
  (∀ i p, dict_get i d = Some p ↔ 1 ≤ i ∧ ps !! Z.to_nat (i - 1) = Some p) ∧
  (∀ co v, (∃ p, p ∈ ps ∧ coords p = co ∧ val p = v) ↔
           cell a (row co) (col co) = Some 0 ∧
           block co = block_of (grid_block_size a) (row co) (col co) ∧
           candidate a (row co) (col co) v) ∧
  StronglySorted triple_lt (key_of <$> ps).
Proof.
  intros Hσ Hvalid d ps. unfold ps, d, propositions_of. split_and!.
  - by apply possible_propositions_run.
  - apply mk_props_self.
  - rewrite mk_props_ids. f_equal.
    rewrite <- (mk_props_pairs 1 (pairs_of a (ndenumerate a))) at 1.
    by rewrite length_fmap.
  - intros i p. apply dict_get_mk_props.
  - intros co v. rewrite <- elem_of_pairs_of.
    set (cvs := pairs_of a (ndenumerate a)). split.
    + intros (p & Hp & <- & <-). rewrite <- (mk_props_pairs 1 cvs).
      apply list_elem_of_fmap. by exists p.
    + intros Hin. rewrite <- (mk_props_pairs 1 cvs) in Hin.
      apply list_elem_of_fmap in Hin as (p & [= -> ->] & Hp). by exists p.
  - pose proof (pairs_of_sorted a) as Hs.
    rewrite <- (mk_props_pairs 1 (pairs_of a (ndenumerate a))) in Hs.
    by rewrite <- list_fmap_compose in Hs.
Qed.

Lemma possible_propositions_spec_witness :
  _possible_propositions (mkSudokuGrid 0) [puzzle4]
  = Ok (propositions_of puzzle4, [puzzle4]).
Proof.
  exact (proj1 (possible_propositions_spec [puzzle4] (mkSudokuGrid 0) puzzle4
                  eq_refl puzzle4_valid)).
Defined.

(** ** Grouping *)

Section group_by_facts.
Context {K A : Type} `{EqDecision K} (key : A → K).

Lemma elem_of_group_add k x (groups : dict K (list A)) k' g' :
  NoDup (groups.*1) →
  (k', g') ∈ group_add k x groups ↔
  (k' ≠ k ∧ (k', g') ∈ groups) ∨
  (k' = k ∧ ((∃ g, (k, g) ∈ groups ∧ g' = g ++ [x]) ∨ ((k ∉ (groups.*1)) ∧ g' = [x]))).
Proof.
  induction groups as [|[k0 g0] groups IH]; intros Hnd; simpl.
  - rewrite list_elem_of_singleton. setoid_rewrite elem_of_nil. naive_solver.
  - apply NoDup_cons in Hnd as [Hk0 Hnd]. specialize (IH Hnd).
    assert (∀ g, (k0, g) ∈ groups → False) as Hk0'.
    { intros g Hg. apply Hk0. apply list_elem_of_fmap. by exists (k0, g). }
    destruct (decide (k = k0)) as [-> | Hne].
    + rewrite not_elem_of_cons. setoid_rewrite elem_of_cons. split.
      * intros [[= -> ->] | Hin].
        -- right. split; [done |]. left. exists g0. split; [by left | done].
        -- left. split; [| by right]. intros ->. by eapply Hk0'.
      * intros [[Hne Hin] | [-> Hin]].
        -- destruct Hin as [[= -> _] | Hin]; [done | by right].
        -- destruct Hin as [(g & Hin & ->) | [[Hnot _] _]]; [| done].
           destruct Hin as [[= ->] | Hin]; [by left |]. exfalso. by eapply Hk0'.
    + rewrite not_elem_of_cons. setoid_rewrite elem_of_cons. rewrite IH. split.
      * intros [[= -> ->] | [[Hne' Hin] | [-> Hin]]].
        -- left. split; [done | by left].
        -- left. split; [done | by right].
        -- right. split; [done |]. destruct Hin as [(g & Hin & ->) | [Hnot ->]].
           ++ left. exists g. split; [by right | done].
           ++ right. done.
      * intros [[Hne' Hin] | [-> Hin]].
        -- destruct Hin as [[= -> ->] | Hin]; [by left |]. right. left. done.
        -- right. right. split; [done |].
           destruct Hin as [(g & Hin & ->) | [[_ Hnot] ->]].
           ++ destruct Hin as [[= -> _] | Hin]; [done |]. left. by exists g.
           ++ right. done.
Qed.

Lemma group_add_keys k x (groups : dict K (list A)) :
  (group_add k x groups).*1
  = groups.*1 ++ (if decide (k ∈ groups.*1) then [] else [k]).
Proof.
  induction groups as [|[k0 g0] groups IH]; cbn [group_add fmap list_fmap app].
  - case_decide as Hk; [by apply elem_of_nil in Hk | done].
  - destruct (decide (k = k0)) as [-> | Hne]; cbn [fmap list_fmap fst].
    + rewrite decide_True by (by left). by rewrite app_nil_r.
    + change (list_fmap _ _ fst ?l) with (l.*1). rewrite IH. simpl. f_equal. f_equal.
      destruct (decide (k ∈ groups.*1)) as [Hin | Hnin].
      * by rewrite decide_True by (by right).
      * rewrite decide_False; [done |]. by intros [? | ?]%elem_of_cons.
Qed.

Lemma filter_none (P : A → Prop) `{∀ x, Decision (P x)} (l : list A) :
  (∀ y, y ∈ l → ¬ P y) → filter P l = [].
Proof.
  intros Hl. destruct (filter P l) as [|y l'] eqn:Hf; [done |].
  assert (y ∈ filter P l) as [Hy Hin]%list_elem_of_filter by (rewrite Hf; by left).
  by destruct (Hl y Hin).
Qed.

Lemma groups_of_step seen groups x :
  groups_of key seen groups → groups_of key (seen ++ [x]) (group_add (key x) x groups).
Proof.
  intros [Hnd Hgr].
  assert (key x ∈ groups.*1 ↔ key x ∈ key <$> seen) as Hkeys.
  { rewrite !list_elem_of_fmap. split.
    - intros ([k0 g0] & Hk0 & [Hin _]%Hgr). simpl in Hk0. subst k0.
      by apply list_elem_of_fmap in Hin.
    - intros (y & Hy & Hin). eexists (key x, _). split; [done |].
      apply Hgr. split; [| done]. rewrite Hy. by apply list_elem_of_fmap_2. }
  assert (key x ∉ key <$> seen → filter (fun y => key y = key x) seen = []) as Hnone.
  { intros Hnin. apply filter_none. intros y Hy Heq. apply Hnin.
    rewrite <- Heq. by apply list_elem_of_fmap_2. }
  split.
  - rewrite group_add_keys. case_decide; [by rewrite app_nil_r |].
    apply NoDup_app. split_and!; [done | | apply NoDup_singleton].
    by intros k Hk ->%list_elem_of_singleton.
  - intros k g. rewrite elem_of_group_add by done.
    rewrite fmap_app, elem_of_app, filter_app. simpl.
    rewrite list_elem_of_singleton, filter_cons, filter_nil. split.
    + intros [[Hne [Hk ->]%Hgr] | [-> Hin]].
      * split; [by left |]. rewrite decide_False by done. by rewrite app_nil_r.
      * rewrite decide_True by done.
        destruct Hin as [(g0 & [Hk ->]%Hgr & ->) | [Hnot ->]].
        -- split; [by left | done].
        -- split; [by right |]. rewrite Hnone; [done |]. by rewrite <- Hkeys.
    + intros [Hk ->]. destruct (decide (k = key x)) as [-> | Hne].
      * right. split; [done |]. rewrite decide_True by done.
        destruct (decide (key x ∈ key <$> seen)) as [Hin | Hnin].
        -- left. eexists. split; [| done]. by apply Hgr.
        -- right. split; [by rewrite Hkeys |]. by rewrite Hnone.
      * left. split; [done |]. destruct Hk as [Hk | Hk]; [| done].
        apply Hgr. split; [done |]. rewrite decide_False by done.
        by rewrite app_nil_r.
Qed.

Lemma groups_of_foldl seen groups xs :
  groups_of key seen groups →
  groups_of key (seen ++ xs) (foldl (fun groups x => group_add (key x) x groups) groups xs).
Proof.
  revert seen groups. induction xs as [|x xs IH]; intros seen groups Hgr; simpl.
  - by rewrite app_nil_r.
  - replace (seen ++ x :: xs) with ((seen ++ [x]) ++ xs) by by rewrite <- app_assoc.
    apply IH. by apply groups_of_step.
Qed.

(** The groups are, for each key that occurs, the items with that key in
    their original order, and each key has one group. *)
Lemma group_by_groups (xs : list A) : groups_of key xs (group_by xs key).
Proof.
  apply (groups_of_foldl [] [] xs). split; [constructor |].
  intros k g. rewrite elem_of_nil. simpl. rewrite elem_of_nil. naive_solver.
Qed.

Lemma elem_of_group_by_values (xs : list A) (g : list A) :
  g ∈ dict_values (group_by xs key) ↔
  ∃ x, x ∈ xs ∧ g = filter (fun y => key y = key x) xs.
Proof.
  destruct (group_by_groups xs) as [_ Hgr]. unfold dict_values.
  rewrite list_elem_of_fmap. split.
  - intros ([k g'] & -> & [(x & -> & Hx)%list_elem_of_fmap ->]%Hgr). by exists x.
  - intros (x & Hx & ->). eexists (key x, _). split; [done |].
    apply Hgr. split; [by apply list_elem_of_fmap_2 | done].
Qed.
End group_by_facts.

(** ** The four constraint families *)

Lemma foldl_at_most_one self (gs : list (list Proposition)) :
  foldl _at_most_one self gs
  = mkSudokuCNF (cnf self ++ (gs ≫= at_most_one_clauses))
                (propositions self) (puzzle self).
Proof.
  revert self. induction gs as [|g gs IH]; intros self; simpl.
  - rewrite app_nil_r. by destruct self.
  - rewrite IH, at_most_one_eq. simpl. by rewrite <- app_assoc.
Qed.

Lemma foldl_exactly_one self (gs : list (list Proposition)) :
  foldl _exactly_one self gs
  = mkSudokuCNF (cnf self ++ (gs ≫= exactly_one_clauses))
                (propositions self) (puzzle self).
Proof.
  revert self. induction gs as [|g gs IH]; intros self; simpl.
  - rewrite app_nil_r. by destruct self.
  - rewrite IH, exactly_one_eq. simpl. by rewrite <- app_assoc.
Qed.

Lemma elem_of_combinations2_cons {A} (x : A) l p q :
  (p, q) ∈ combinations2 (x :: l) ↔ (p = x ∧ q ∈ l) ∨ (p, q) ∈ combinations2 l.
Proof.
  simpl. rewrite elem_of_app, list_elem_of_fmap. split.
  - intros [(y & [= -> ->] & Hy) | Hin]; [by left | by right].
  - intros [[-> Hq] | Hin]; [left; by exists q | by right].
Qed.

Lemma elem_of_combinations2_elem {A} (l : list A) p q :
  (p, q) ∈ combinations2 l → p ∈ l ∧ q ∈ l.
Proof.
  intros (i & j & _ & Hi & Hj)%elem_of_combinations2.
  split; by eapply list_elem_of_lookup_2.
Qed.

Lemma elem_of_combinations2_filter {A} (P : A → Prop) `{∀ x, Decision (P x)}
    (l : list A) p q :
  (p, q) ∈ combinations2 (filter P l) ↔ P p ∧ P q ∧ (p, q) ∈ combinations2 l.
Proof.
  induction l as [|x l IH]; [rewrite filter_nil; simpl; rewrite elem_of_nil; tauto |].
  rewrite filter_cons. destruct (decide (P x)) as [Hx | Hx].
  - rewrite !elem_of_combinations2_cons, IH, list_elem_of_filter. split.
    + intros [(-> & Hq & Hin) | (Hp & Hq & Hin)]; split_and?; auto.
    + intros (Hp & Hq & [[-> Hin] | Hin]); [left | right]; done.
  - rewrite elem_of_combinations2_cons, IH. split.
    + intros (Hp & Hq & Hin). split_and?; auto.
    + intros (Hp & Hq & [[-> Hin] | Hin]); done.
Qed.

Section families.
Context {K : Type} `{EqDecision K} (key : Proposition → K).

Lemma elem_of_exactly_one_family (ps : list Proposition) cl :
  cl ∈ dict_values (group_by ps key) ≫= exactly_one_clauses ↔
  (∃ p, p ∈ ps ∧ cl = id <$> filter (fun q => key q = key p) ps) ∨
  (∃ p q, before ps p q ∧ key p = key q ∧ cl = [- id p; - id q]).
Proof.
  rewrite list_elem_of_bind. setoid_rewrite elem_of_group_by_values. split.
  - intros (g & Hcl & x & Hx & ->).
    assert (x ∈ filter (fun y => key y = key x) ps) as Hne
      by (by apply list_elem_of_filter).
    unfold exactly_one_clauses in Hcl.
    destruct (filter (fun y => key y = key x) ps) as [|y g] eqn:Hg;
      [by apply elem_of_nil in Hne |].
    rewrite <- Hg in *. apply elem_of_cons in Hcl as [-> | Hcl].
    + left. by exists x.
    + right. apply list_elem_of_fmap in Hcl as ([p q] & -> & Hpq).
      apply elem_of_combinations2_filter in Hpq as (Hp & Hq & Hpq).
      exists p, q. split; [by apply elem_of_combinations2 |]. split; [congruence | done].
  - intros [(p & Hp & ->) | (p & q & Hpq & Hk & ->)].
    + exists (filter (fun q => key q = key p) ps). split; [| by exists p].
      unfold exactly_one_clauses.
      destruct (filter (fun q => key q = key p) ps) as [|y g] eqn:Hg; [| by left].
      assert (p ∈ filter (fun q => key q = key p) ps) as Hin
        by (by apply list_elem_of_filter).
      rewrite Hg in Hin. by apply elem_of_nil in Hin.
    + apply elem_of_combinations2 in Hpq.
      destruct (elem_of_combinations2_elem _ _ _ Hpq) as [Hp Hq].
      exists (filter (fun y => key y = key p) ps). split; [| by exists p].
      assert ((p, q) ∈ combinations2 (filter (fun y => key y = key p) ps)) as Hin
        by (by apply elem_of_combinations2_filter).
      unfold exactly_one_clauses.
      destruct (filter (fun y => key y = key p) ps) as [|y g] eqn:Hg;
        [by apply elem_of_nil in Hin |].
      right. apply list_elem_of_fmap. by exists (p, q).
Qed.

Lemma elem_of_at_most_one_family (ps : list Proposition) cl :
  cl ∈ dict_values (group_by ps key) ≫= at_most_one_clauses ↔
  ∃ p q, before ps p q ∧ key p = key q ∧ cl = [- id p; - id q].
Proof.
  rewrite list_elem_of_bind. setoid_rewrite elem_of_group_by_values.
  unfold at_most_one_clauses. split.
  - intros (g & Hcl & x & Hx & ->).
    apply list_elem_of_fmap in Hcl as ([p q] & -> & Hpq).
    apply elem_of_combinations2_filter in Hpq as (Hp & Hq & Hpq).
    exists p, q. split; [by apply elem_of_combinations2 |]. split; [congruence | done].
  - intros (p & q & Hpq & Hk & ->). apply elem_of_combinations2 in Hpq.
    destruct (elem_of_combinations2_elem _ _ _ Hpq) as [Hp Hq].
    exists (filter (fun y => key y = key p) ps). split; [| by exists p].
    apply list_elem_of_fmap. exists (p, q). split; [done |].
    by apply elem_of_combinations2_filter.
Qed.
End families.

(** The clauses [__post_init__] appends, family by family. *)
Lemma post_init_eq self :
  let ps := dict_values (propositions self) in
  SudokuCNF__post_init__ self
  = mkSudokuCNF
      (cnf self
       ++ (dict_values (group_by ps (fun p => coords p)) ≫= exactly_one_clauses)
       ++ (dict_values (group_by ps (fun p => (row (coords p), val p)))
             ≫= at_most_one_clauses)
       ++ (dict_values (group_by ps (fun p => (col (coords p), val p)))
             ≫= at_most_one_clauses)
       ++ (dict_values (group_by ps (fun p => (block (coords p), val p)))
             ≫= at_most_one_clauses))
      (propositions self) (puzzle self).
Proof.
  intros ps. unfold SudokuCNF__post_init__, _every_block_contains_unique_values,
    _every_col_contains_unique_values, _every_row_contains_unique_values,
    _every_cell_has_a_single_value.
  rewrite !foldl_at_most_one, foldl_exactly_one. simpl.
  by rewrite <- !app_assoc.
Qed.

(** C3.  [__post_init__] keeps the propositions and the puzzle and appends
    to the formula four families of clauses, in this order and nothing else.
    The cell family: for the coordinates of every proposition, the clause of
    the ids of all propositions with these coordinates, and for every
    proposition [p] standing before a proposition [q] with the same
    coordinates the clause of the two negated ids.  The row, column and
    block families: for every [p] standing before a [q] with the same row
    and value (column and value, block and value) the clause of the two
    negated ids. *)
Theorem post_init_families (self : SudokuCNF) :
  let e := SudokuCNF__post_init__ self in
  let ps := dict_values (propositions self) in
  propositions e = propositions self ∧
  puzzle e = puzzle self ∧
  ∃ cells rows cols blocks,
    cnf e = cnf self ++ cells ++ rows ++ cols ++ blocks ∧
    (∀ cl, cl ∈ cells ↔
       (∃ p, p ∈ ps ∧ cl = id <$> filter (fun q => coords q = coords p) ps) ∨
       (∃ p q, before ps p q ∧ coords p = coords q ∧ cl = [- id p; - id q])) ∧
    (∀ cl, cl ∈ rows ↔
       ∃ p q, before ps p q ∧ row (coords p) = row (coords q) ∧ val p = val q ∧
              cl = [- id p; - id q]) ∧
    (∀ cl, cl ∈ cols ↔
       ∃ p q, before ps p q ∧ col (coords p) = col (coords q) ∧ val p = val q ∧
              cl = [- id p; - id q]) ∧
    (∀ cl, cl ∈ blocks ↔
       ∃ p q, before ps p q ∧ block (coords p) = block (coords q) ∧
              val p = val q ∧ cl = [- id p; - id q]).
Proof.
  intros e ps. unfold e. rewrite post_init_eq. fold ps. simpl.
  split; [done |]. split; [done |]. do 4 eexists. split; [done |].
  split_and!; intros cl.
  - apply elem_of_exactly_one_family.
  - rewrite elem_of_at_most_one_family. split.
    + intros (p & q & Hb & [= Hk1 Hk2] & ->). by exists p, q.
    + intros (p & q & Hb & Hk1 & Hk2 & ->). exists p, q.
      split_and!; [done | congruence | done].
  - rewrite elem_of_at_most_one_family. split.
    + intros (p & q & Hb & [= Hk1 Hk2] & ->). by exists p, q.
    + intros (p & q & Hb & Hk1 & Hk2 & ->). exists p, q.
      split_and!; [done | congruence | done].
  - rewrite elem_of_at_most_one_family. split.
    + intros (p & q & Hb & [= Hk1 Hk2] & ->). by exists p, q.
    + intros (p & q & Hb & Hk1 & Hk2 & ->). exists p, q.
      split_and!; [done | congruence | done].
Qed.

(** ** Encoding never rejects a valid grid *)

Lemma encode_run σ self a :
  σ !! _array self = Some a → valid_grid a →
  encode self σ = Ok (encoding_of self a, σ).
Proof.
  intros Hσ Hvalid. unfold encode.
  by rewrite bind_run, (possible_propositions_run _ _ _ Hσ Hvalid).
Qed.

Lemma encoding_of_propositions self a :
  propositions (encoding_of self a) = propositions_of a.
Proof. unfold encoding_of. by rewrite post_init_eq. Qed.

Lemma encoding_of_puzzle self a : puzzle (encoding_of self a) = self.
Proof. unfold encoding_of. by rewrite post_init_eq. Qed.

Lemma mk_props_lookup next cvs p :
  p ∈ dict_values (mk_props next cvs) →
  next ≤ id p ∧ dict_get (id p) (mk_props next cvs) = Some p.
Proof.
  revert next. induction cvs as [|[co v] cvs IH]; intros next.
  - by intros ?%elem_of_nil.
  - cbn [mk_props dict_get]. unfold dict_values in *. rewrite fmap_cons. simpl.
    intros [-> | Hin]%elem_of_cons; simpl.
    + split; [lia |]. by rewrite decide_True.
    + destruct (IH _ Hin) as [Hle Hget]. split; [lia |].
      by rewrite decide_False by lia.
Qed.

Lemma dict_get_values {V} (d : dict Z V) i v :
  dict_get i d = Some v → v ∈ dict_values d.
Proof.
  induction d as [|[k w] d IH]; [done |]. cbn [dict_get]. unfold dict_values in *.
  rewrite fmap_cons. destruct (decide (i = k)).
  - intros [= ->]. by left.
  - intros Hget. right. by apply IH.
Qed.

(** The clauses of the encoding of [a]. *)
Lemma elem_of_encoding_cnf self a cl :
  let ps := dict_values (propositions_of a) in
  cl ∈ cnf (encoding_of self a) ↔
  (∃ p, p ∈ ps ∧ cl = id <$> filter (fun q => coords q = coords p) ps) ∨
  (∃ p q, before ps p q ∧ conflict p q ∧ cl = [- id p; - id q]).
Proof.
  intros ps. unfold encoding_of. rewrite post_init_eq. simpl. fold ps.
  rewrite !elem_of_app, elem_of_exactly_one_family,
    !elem_of_at_most_one_family. unfold conflict. split.
  - intros [[Hcell | (p & q & Hb & Hk & ->)] |
            [(p & q & Hb & [= Hk1 Hk2] & ->) |
             [(p & q & Hb & [= Hk1 Hk2] & ->) | (p & q & Hb & [= Hk1 Hk2] & ->)]]];
      [by left | right; exists p, q; split_and!; auto ..].
  - intros [Hcell | (p & q & Hb & [Hk | [[Hk1 Hk2] | [[Hk1 Hk2] | [Hk1 Hk2]]]] & ->)].
    + left. by left.
    + left. right. by exists p, q.
    + right. left. exists p, q. split_and!; [done | congruence | done].
    + right. right. left. exists p, q. split_and!; [done | congruence | done].
    + right. right. right. exists p, q. split_and!; [done | congruence | done].
Qed.

Lemma before_elem {A} (l : list A) p q : before l p q → p ∈ l ∧ q ∈ l.
Proof. intros (i & j & _ & Hi & Hj). split; by eapply list_elem_of_lookup_2. Qed.

Lemma encoding_well_formed self a : well_formed (encoding_of self a).
Proof.
  intros cl Hcl. rewrite encoding_of_propositions.
  assert (∀ p, p ∈ dict_values (propositions_of a) →
               id p ≠ 0 ∧ - id p ≠ 0 ∧
               is_Some (dict_get (Z.abs (id p)) (propositions_of a)) ∧
               is_Some (dict_get (Z.abs (- id p)) (propositions_of a))) as Hlit.
  { intros p Hp. destruct (mk_props_lookup _ _ _ Hp) as [Hle Hget].
    rewrite Z.abs_opp, Z.abs_eq by lia. fold (propositions_of a) in Hget.
    rewrite Hget. split_and!; [lia | lia | done | done]. }
  apply elem_of_encoding_cnf in Hcl as [(p & Hp & ->) | (p & q & Hb & _ & ->)].
  - split.
    + assert (p ∈ filter (fun q => coords q = coords p)
                         (dict_values (propositions_of a))) as Hin
        by (by apply list_elem_of_filter).
      intros Hnil%fmap_nil_inv. rewrite Hnil in Hin. by apply elem_of_nil in Hin.
    + intros l (q & -> & [_ Hq]%list_elem_of_filter)%list_elem_of_fmap.
      destruct (Hlit q Hq) as (? & _ & ? & _). done.
  - destruct (before_elem _ _ _ Hb) as [Hp Hq]. split; [done |].
    intros l [-> | ->%list_elem_of_singleton]%elem_of_cons.
    + destruct (Hlit p Hp) as (_ & ? & _ & ?). done.
    + destruct (Hlit q Hq) as (_ & ? & _ & ?). done.
Qed.

Lemma clash4_valid : valid_grid clash4.
Proof. by_evaluation. Defined.

(** C8, amended.  On every valid grid, whatever its pre-filled cells,
    [encode] raises nothing and leaves the store alone; the encoding holds
    the grid object it was given, the proposition space of the array, and a
    well-formed formula.  Nothing is said on whether that formula is
    satisfiable. *)
Theorem encode_never_rejects (σ : store) (self : SudokuGrid) (a : ndarray) :
  σ !! _array self = Some a →
  valid_grid a →
  ∃ e, encode self σ = Ok (e, σ) ∧
       puzzle e = self ∧
       propositions e = propositions_of a ∧
       well_formed e.
Proof.
  intros Hσ Hvalid. exists (encoding_of self a). split_and!.
  - by apply encode_run.
  - apply encoding_of_puzzle.
  - apply encoding_of_propositions.
  - apply encoding_well_formed.
Qed.

Lemma encode_never_rejects_witness :
  (∃ e, encode (mkSudokuGrid 0) [clash4] = Ok (e, [clash4]) ∧
        puzzle e = mkSudokuGrid 0 ∧
        propositions e = propositions_of clash4 ∧
        well_formed e) ∧
  ¬ candidate clash4 0 0 1 ∧ ¬ candidate clash4 0 0 2 ∧
  ¬ candidate clash4 0 0 3 ∧ ¬ candidate clash4 0 0 4 ∧
  cell clash4 0 2 = cell clash4 0 3.
Proof.
  split; [exact (encode_never_rejects [clash4] (mkSudokuGrid 0) clash4
                   eq_refl clash4_valid) |].
  split_and!; [| | | | done].
  - intros [_ H]. by destruct (H 0 1 eq_refl) as (? & _).
  - intros [_ H]. by destruct (H 0 2 eq_refl) as (? & _).
  - intros [_ H]. by destruct (H 2 0 eq_refl) as (_ & ? & _).
  - intros [_ H]. by destruct (H 3 0 eq_refl) as (_ & ? & _).
Defined.

(** ** Decoding *)

Lemma write_prop_square n d b pid : square n b → square n (write_prop d b pid).
Proof.
  intros Hsq. unfold write_prop. destruct (0 <? pid); [| done].
  destruct (dict_get pid d); [| done]. by apply square_array_update.
Qed.

Lemma cell_write_prop n d b pid r c :
  square n b → props_in_grid n d →
  cell (write_prop d b pid) r c
  = match written d pid r c with Some v => Some v | None => cell b r c end.
Proof.
  intros Hsq Hd. unfold write_prop, written. destruct (0 <? pid); [| done].
  destruct (dict_get pid d) as [p|] eqn:Hp; [| done].
  destruct (Hd _ _ Hp) as (Hr & Hc & _).
  rewrite cell_array_update; rewrite !Z2Nat.id by lia.
  - destruct (decide (row (coords p) = r ∧ col (coords p) = c)) as [[<- <-]|Hne].
    + by rewrite decide_True.
    + rewrite decide_False; [done |]. intros [-> ->]. by apply Hne.
  - by apply (square_cell n).
Qed.

Lemma cell_decoded n d a results r c :
  square n a → props_in_grid n d →
  cell (decoded d a results) r c
  = match last_write d results r c with Some v => Some v | None => cell a r c end.
Proof.
  intros Hsq Hd. unfold decoded. revert a Hsq.
  induction results as [|pid results IH]; intros a Hsq; [done |].
  cbn [foldl last_write]. rewrite IH by by apply write_prop_square.
  destruct (last_write d results r c); [done |]. by apply (cell_write_prop n).
Qed.

Lemma decoded_square n d a results : square n a → square n (decoded d a results).
Proof.
  unfold decoded. revert a. induction results as [|pid results IH]; intros a Hsq;
    [done |]. simpl. apply IH. by apply write_prop_square.
Qed.

Lemma decode_step_run n σ e g b pid :
  σ !! _array g = Some b → square n b → props_in_grid n (propositions e) →
  decode_step e g pid tt σ
  = Ok (tt, <[_array g := write_prop (propositions e) b pid]> σ).
Proof.
  intros Hσ Hsq Hd. unfold decode_step, write_prop, dict_contains.
  destruct (0 <? pid); simpl; [| by rewrite list_insert_id].
  destruct (dict_get pid (propositions e)) as [p|] eqn:Hp.
  - rewrite bool_decide_eq_true_2 by done. destruct (Hd _ _ Hp) as (Hr & Hc & Hv).
    rewrite (setitem_run _ _ _ _ _ _ Hσ).
    rewrite (array_setitem_in_range n) by (done || lia).
    by rewrite !Z.mod_small by lia.
  - rewrite bool_decide_eq_false_2 by (by intros [? ?]). by rewrite list_insert_id.
Qed.

Lemma decode_loop_run n σ e g b results :
  σ !! _array g = Some b → square n b → props_in_grid n (propositions e) →
  for_each results (decode_step e g) tt σ
  = Ok (tt, <[_array g := decoded (propositions e) b results]> σ).
Proof.
  intros Hσ Hsq Hd. revert σ b Hσ Hsq.
  induction results as [|pid results IH]; intros σ b Hσ Hsq.
  - simpl. by rewrite list_insert_id.
  - cbn [for_each]. rewrite bind_run, (decode_step_run n _ _ _ b) by done.
    rewrite (IH _ (write_prop (propositions e) b pid)).
    + by rewrite list_insert_insert_eq.
    + apply list_lookup_insert_eq. by eapply lookup_lt_Some.
    + by apply write_prop_square.
Qed.

Lemma copy_run σ self a :
  σ !! _array self = Some a → valid_grid a →
  copy self σ = Ok (mkSudokuGrid (length σ), σ ++ [a]).
Proof.
  intros Hσ Hvalid. unfold copy. rewrite bind_run, (read_run _ _ _ Hσ).
  rewrite bind_run. unfold alloc at 1. rewrite bind_run. unfold __post_init__.
  rewrite bind_run. rewrite (block_size_run _ _ a); [done | | done].
  simpl. by rewrite list_lookup_middle.
Qed.

Lemma decode_run σ e a results :
  σ !! _array (puzzle e) = Some a → valid_grid a →
  props_in_grid (grid_size a) (propositions e) →
  decode e results σ
  = Ok (mkSudokuGrid (length σ), σ ++ [decoded (propositions e) a results]).
Proof.
  intros Hσ Hvalid Hd. unfold decode.
  rewrite bind_run, (copy_run _ _ _ Hσ Hvalid). rewrite bind_run.
  rewrite (decode_loop_run (grid_size a) _ _ _ a);
    [| simpl; by rewrite list_lookup_middle | by apply valid_grid_square | done].
  simpl. rewrite ret_run. do 2 f_equal.
  replace (length σ) with (length σ + 0)%nat at 1 by lia.
  by rewrite insert_app_r.
Qed.

Lemma propositions_of_in_grid a :
  valid_grid a → props_in_grid (grid_size a) (propositions_of a).
Proof.
  intros Hvalid i p Hp%dict_get_values.
  assert ((coords p, val p) ∈ pairs_of a (ndenumerate a)) as Hin.
  { rewrite <- (mk_props_pairs 1 (pairs_of a (ndenumerate a))).
    apply list_elem_of_fmap. by exists p. }
  apply elem_of_pairs_of in Hin as (Hcell & _ & [Hval _]).
  destruct (cell_range _ _ _ _ Hvalid Hcell) as (? & ? & _).
  destruct Hvalid as (_ & _ & Hmax). split; [done |]. split; [done | lia].
Qed.

(** C5.  For the encoding [e] of a valid grid and every result list,
    [decode] raises nothing and returns a new grid object over a new array;
    every array the store held before, the puzzle's among them, is left as
    it was.  Cell (r, c) of the new array holds the value of the last
    positive id of the list that is a key of the proposition map with a
    proposition at (r, c), and the puzzle's value if there is none; ids that
    are not positive or not keys write nothing. *)
Theorem decode_postcondition_and_frame (σ : store) (self : SudokuGrid)
    (a : ndarray) (e : SudokuCNF) (results : list Z) :
  σ !! _array self = Some a →
  valid_grid a →
  encode self σ = Ok (e, σ) →
  ∃ a', decode e results σ = Ok (mkSudokuGrid (length σ), σ ++ [a']) ∧
        puzzle e = self ∧
        _array (puzzle e) ≠ length σ ∧
        (σ ++ [a']) !! _array (puzzle e) = Some a ∧
        square (grid_size a) a' ∧
        (∀ r c, cell a' r c
                = match last_write (propositions e) results r c with
                  | Some v => Some v
                  | None => cell a r c
                  end) ∧
        (∀ pid r c, pid ≤ 0 ∨ dict_get pid (propositions e) = None →
                    written (propositions e) pid r c = None).
Proof.
  intros Hσ Hvalid He. rewrite (encode_run _ _ _ Hσ Hvalid) in He.
  injection He as <-. rewrite encoding_of_puzzle, encoding_of_propositions.
  pose proof (propositions_of_in_grid a Hvalid) as Hd.
  exists (decoded (propositions_of a) a results). split_and!.
  - rewrite <- (encoding_of_propositions self a). apply decode_run.
    + by rewrite encoding_of_puzzle.
    + done.
    + by rewrite encoding_of_propositions.
  - done.
  - apply lookup_lt_Some in Hσ. lia.
  - by apply lookup_app_l_Some.
  - by apply decoded_square, valid_grid_square.
  - intros r c. apply (cell_decoded (grid_size a)); [by apply valid_grid_square | done].
  - intros pid r c [Hpid | Hget]; unfold written.
    + by rewrite (proj2 (Z.ltb_ge 0 pid)) by lia.
    + rewrite Hget. by destruct (0 <? pid).
Qed.

Lemma decode_postcondition_and_frame_witness :
  ∃ a', decode (encoding_of (mkSudokuGrid 0) puzzle4) [1; -2; 100; 3] [puzzle4]
        = Ok (mkSudokuGrid 1, [puzzle4; a']) ∧
        cell a' 0 1 = Some 2 ∧ cell a' 0 3 = Some 0 ∧ cell a' 1 0 = Some 3.
Proof.
  destruct (decode_postcondition_and_frame [puzzle4] (mkSudokuGrid 0) puzzle4
              (encoding_of (mkSudokuGrid 0) puzzle4) [1; -2; 100; 3]
              eq_refl puzzle4_valid ltac:(by vm_compute))
    as (a' & Hrun & _ & _ & _ & _ & Hcell & _).
  exists a'. split; [exact Hrun |]. split_and!; rewrite Hcell; reflexivity.
Defined.

(** ** Outcomes of [run_algorithm] *)

(** C6.  On a valid puzzle, [run_algorithm] raises [TimeoutError] exactly
    when the engine was interrupted, returns no grid exactly when the engine
    reported the formula unsatisfiable, and returns a grid exactly when the
    engine reported it satisfied; that grid is the decoding of the engine's
    model.  The three outcomes exclude one another. *)
Theorem run_algorithm_outcomes (Time : Type)
    (solve_limited : list (list Z) → Time → SolverRun)
    (self : SatSudokuSolver Time) (σ : store) (a : ndarray) :
  σ !! _array (_puzzle Time self) = Some a →
  valid_grid a →
  let solver := solve_limited (cnf (encoding_of (_puzzle Time self) a))
                              (_time_limit Time self) in
  let outcome := run_algorithm Time solve_limited self σ in
  (outcome = Raise TimeoutError ↔ status solver = None) ∧
  ((∃ σ', outcome = Ok (None, σ')) ↔ status solver = Some false) ∧
  ((∃ g σ', outcome = Ok (Some g, σ')) ↔ status solver = Some true) ∧
  (status solver = Some false → outcome = Ok (None, σ)) ∧
  (status solver = Some true →
   outcome = Ok (Some (mkSudokuGrid (length σ)),
                 σ ++ [decoded (propositions_of a) a (get_model solver)])).
Proof.
  intros Hσ Hvalid solver outcome.
  assert (outcome = match status solver with
                    | None => Raise TimeoutError
                    | Some false => Ok (None, σ)
                    | Some true =>
                        Ok (Some (mkSudokuGrid (length σ)),
                            σ ++ [decoded (propositions_of a) a (get_model solver)])
                    end) as ->.
  { unfold outcome, run_algorithm. rewrite bind_run, (encode_run _ _ _ Hσ Hvalid).
    fold solver. destruct (status solver) as [[|]|]; [| done | done].
    rewrite bind_run, (decode_run _ _ a).
    - by rewrite encoding_of_propositions.
    - by rewrite encoding_of_puzzle.
    - done.
    - rewrite encoding_of_propositions. by apply propositions_of_in_grid. }
  destruct (status solver) as [[|]|].
  - split_and!; [done | | | done | done].
    + split; [by intros (σ' & ?) | done].
    + split; [done |]. intros _. by eexists _, _.
  - split_and!; [done | | | done | done].
    + split; [done |]. intros _. by eexists.
    + split; [by intros (g & σ' & ?) | done].
  - split_and!; [done | | | done | done].
    + split; [by intros (σ' & ?) | done].
    + split; [by intros (g & σ' & ?) | done].
Qed.

Lemma run_algorithm_outcomes_witness :
  run_algorithm Z (fun _ _ => mkSolverRun None [])
                (mkSatSudokuSolver Z (mkSudokuGrid 0) 60) [puzzle4]
  = Raise TimeoutError.
Proof.
  apply (run_algorithm_outcomes Z (fun _ _ => mkSolverRun None [])
           (mkSatSudokuSolver Z (mkSudokuGrid 0) 60) [puzzle4] puzzle4
           eq_refl puzzle4_valid).
  reflexivity.
Defined.

(** ** The command line program *)

(** C7, as stated, fails: a run that ends in a format error and a run that
    proves the puzzle infeasible leave with the same exit status 1. *)
Lemma exit_status_shared_counterexample :
  let str_exn := fun _ : exn => "bad row" in
  let format_error :=
    main (Grid := unit) (Args := unit) str_exn (fun _ => []) (fun s => [s])
         (Parsed tt) (fun _ => Ok "1,x") (fun _ => Raise ValueError)
         (fun _ _ => Ok None) (fun _ => Ok EmptyString) in
  let infeasible :=
    main (Grid := unit) (Args := unit) str_exn (fun _ => ["1,1"]) (fun s => [s])
         (Parsed tt) (fun _ => Ok "1,1") (fun _ => Ok tt)
         (fun _ _ => Ok None) (fun _ => Ok EmptyString) in
  format_error.2 = 1 ∧ infeasible.2 = 1 ∧ format_error.2 = infeasible.2.
Proof. by vm_compute. Qed.

(** C7, amended.  The exit status tells three outcomes apart, not four: it
    is 0 after a solution was found and printed, 2 after a timeout of the
    solver, and 1 both after the puzzle was proved infeasible and after an
    input that is not in the puzzle format.  These two are told apart by the
    first printed line only. *)
Theorem exit_status_spec {Grid Args : Type} (str_exn : exn → string)
    (rows_text : Grid → list string) (strip_splitlines : string → list string)
    (parse_args : parsed Args) (read_file : Args → result string)
    (from_text : list string → result Grid)
    (solve : Args → Grid → result (option Grid))
    (render : Grid → result string) :
  let run := main str_exn rows_text strip_splitlines parse_args read_file
                  from_text solve render in
  (solved_run strip_splitlines parse_args read_file from_text solve render →
   run.2 = 0) ∧
  (timeout_run strip_splitlines parse_args read_file from_text solve →
   run.2 = 2) ∧
  (infeasible_run strip_splitlines parse_args read_file from_text solve →
   run.2 = 1 ∧ head run.1 = Some "INFEASIBLE") ∧
  (format_error_run strip_splitlines parse_args read_file from_text →
   run.2 = 1 ∧
   ∃ e, head run.1 = Some ("Invalid puzzle format: " +:+ str_exn e)) ∧
  (∀ e, "INFEASIBLE" ≠ "Invalid puzzle format: " +:+ str_exn e).
Proof.
  intros run. unfold run, main. split_and!.
  - intros (args & data & puzzle & solution & text & -> & -> & -> & -> & ->).
    done.
  - intros (args & data & puzzle & e & -> & -> & -> & -> & Ht).
    unfold solver_handlers. by rewrite Ht.
  - by intros (args & data & puzzle & -> & -> & -> & ->).
  - intros (args & data & e & -> & -> & ->). split; [done |]. by exists e.
  - intros e. simpl. discriminate.
Qed.

Lemma exit_status_spec_witness :
  (main (Grid := unit) (Args := unit) (fun _ => "late") (fun _ => [])
        (fun s => [s]) (Parsed tt) (fun _ => Ok "0") (fun _ => Ok tt)
        (fun _ _ => Raise TimeoutError) (fun _ => Ok EmptyString)).2 = 2.
Proof.
  apply (exit_status_spec (Grid := unit) (Args := unit) (fun _ => "late")
           (fun _ => []) (fun s => [s]) (Parsed tt) (fun _ => Ok "0")
           (fun _ => Ok tt) (fun _ _ => Raise TimeoutError)
           (fun _ => Ok EmptyString)).
  exists tt, "0", tt, TimeoutError. by split_and!.
Defined.

(** ** Rows, columns and blocks of a grid *)

Lemma elem_of_all_cells n x : x ∈ all_cells n ↔ 0 ≤ x.1 < n ∧ 0 ≤ x.2 < n.
Proof.
  unfold all_cells, row_cells. destruct x as [r c]. simpl. split.
  - intros (r' & Hx & Hr)%list_elem_of_bind.
    apply list_elem_of_fmap in Hx as (c' & [= -> ->] & Hc).
    apply elem_of_seqZ in Hr, Hc. lia.
  - intros [Hr Hc]. apply list_elem_of_bind. exists r. split.
    + apply list_elem_of_fmap. exists c. split; [done |]. apply elem_of_seqZ. lia.
    + apply elem_of_seqZ. lia.
Qed.

Lemma row_cells_unit n k r : 0 ≤ r < n → unit_of n k (row_cells n r).
Proof.
  intros Hr. unfold row_cells. split_and!.
  - apply NoDup_fmap_2_strong; [| apply NoDup_seqZ]. by intros c c' _ _ [= ->].
  - by rewrite length_fmap, length_seqZ.
  - intros x (c & -> & Hc%elem_of_seqZ)%list_elem_of_fmap. simpl. lia.
  - intros x y (c & -> & _)%list_elem_of_fmap (c' & -> & _)%list_elem_of_fmap.
    by left.
Qed.

Lemma col_cells_unit n k c : 0 ≤ c < n → unit_of n k (col_cells n c).
Proof.
  intros Hc. unfold col_cells. split_and!.
  - apply NoDup_fmap_2_strong; [| apply NoDup_seqZ]. by intros r r' _ _ [= ->].
  - by rewrite length_fmap, length_seqZ.
  - intros x (r & -> & Hr%elem_of_seqZ)%list_elem_of_fmap. simpl. lia.
  - intros x y (r & -> & _)%list_elem_of_fmap (r' & -> & _)%list_elem_of_fmap.
    right. by left.
Qed.

Lemma length_bind_const {A B} (f : A → list B) (l : list A) (m : nat) :
  (∀ x, x ∈ l → length (f x) = m) → length (l ≫= f) = (length l * m)%nat.
Proof.
  induction l as [|x l IH]; intros Hf; [done |].
  rewrite bind_cons, length_app, IH, Hf; [simpl; lia | by left |].
  intros y Hy. apply Hf. by right.
Qed.

Lemma block_cell_facts k b i j :
  0 < k → 0 ≤ b < k * k → 0 ≤ i < k → 0 ≤ j < k →
  let r := b / k * k + i in
  let c := b `mod` k * k + j in
  0 ≤ r < k * k ∧ 0 ≤ c < k * k ∧ block_of k r c = b.
Proof.
  intros Hk Hb Hi Hj r c.
  assert (0 ≤ b / k < k)
    by (split; [apply Z.div_pos | apply Z.div_lt_upper_bound]; lia).
  pose proof (Z.mod_pos_bound b k Hk) as Hm.
  assert (r / k = b / k) as Hrk.
  { unfold r. rewrite Z.div_add_l by lia. rewrite (Z.div_small i k) by lia. lia. }
  assert (c / k = b `mod` k) as Hck.
  { unfold c. rewrite Z.div_add_l by lia. rewrite (Z.div_small j k) by lia. lia. }
  split_and!; [unfold r; nia | unfold r; nia | unfold c; nia | unfold c; nia |].
  unfold block_of. rewrite Hrk, Hck. pose proof (Z.div_mod b k). lia.
Qed.

Lemma elem_of_block_cells k b x :
  x ∈ block_cells k b ↔
  ∃ i j, 0 ≤ i < k ∧ 0 ≤ j < k ∧ x = (b / k * k + i, b `mod` k * k + j).
Proof.
  unfold block_cells. split.
  - intros (i & Hx & Hi)%list_elem_of_bind.
    apply list_elem_of_fmap in Hx as (j & -> & Hj).
    apply elem_of_seqZ in Hi, Hj. exists i, j. split_and!; (lia || done).
  - intros (i & j & Hi & Hj & ->). apply list_elem_of_bind. exists i. split.
    + apply list_elem_of_fmap. exists j. split; [done |]. apply elem_of_seqZ. lia.
    + apply elem_of_seqZ. lia.
Qed.

Lemma block_cells_unit k b : 0 < k → 0 ≤ b < k * k → unit_of (k * k) k (block_cells k b).
Proof.
  intros Hk Hb. split_and!.
  - unfold block_cells. apply NoDup_bind; [| | apply NoDup_seqZ].
    + intros i i' y _ _ (j & -> & _)%list_elem_of_fmap (j' & [= Hi _] & _)%list_elem_of_fmap.
      lia.
    + intros i _. apply NoDup_fmap_2_strong; [| apply NoDup_seqZ].
      intros j j' _ _ [= Hj]. lia.
  - unfold block_cells. rewrite (length_bind_const _ _ (Z.to_nat k)).
    + rewrite length_seqZ. lia.
    + intros i _. by rewrite length_fmap, length_seqZ.
  - intros x (i & j & Hi & Hj & ->)%elem_of_block_cells.
    destruct (block_cell_facts k b i j) as (? & ? & _); done.
  - intros x y (i & j & Hi & Hj & ->)%elem_of_block_cells
      (i' & j' & Hi' & Hj' & ->)%elem_of_block_cells.
    right. right. simpl.
    destruct (block_cell_facts k b i j) as (_ & _ & ->); [done .. |].
    destruct (block_cell_facts k b i' j') as (_ & _ & ->); done.
Qed.

Lemma length_filter_unique {A} (P : A → Prop) `{∀ x, Decision (P x)}
    (l : list A) (x : A) :
  NoDup l → x ∈ l → P x → (∀ y, y ∈ l → P y → y = x) →
  length (filter P l) = 1%nat.
Proof.
  intros Hnd Hx HP Huniq.
  assert (filter P l ≡ₚ [x]) as ->; [| done].
  apply NoDup_Permutation; [by apply NoDup_filter | apply NoDup_singleton |].
  intros y. rewrite list_elem_of_filter, list_elem_of_singleton. split.
  - intros [? ?]. by apply Huniq.
  - by intros ->.
Qed.

(** In a grid whose cells all hold a value of 1..n and whose peers hold
    different values, every unit holds each value exactly once. *)
Lemma unit_each_once (a : ndarray) (k : Z) (U : list (Z * Z)) :
  (∀ x, 0 ≤ x.1 < grid_size a → 0 ≤ x.2 < grid_size a →
        ∃ v, cell a x.1 x.2 = Some v ∧ 1 ≤ v ≤ grid_size a) →
  (∀ x y, x ∈ U → y ∈ U → x ≠ y → peer k x y →
          cell a x.1 x.2 ≠ cell a y.1 y.2) →
  unit_of (grid_size a) k U →
  each_once a U.
Proof.
  intros Hfilled Hdistinct (Hnd & Hlen & Hin & Hpeer).
  set (f := fun x : Z * Z => default 0 (cell a x.1 x.2)).
  assert (∀ x, x ∈ U → cell a x.1 x.2 = Some (f x) ∧ 1 ≤ f x ≤ grid_size a) as Hf.
  { intros x Hx. destruct (Hin x Hx) as [Hr Hc].
    destruct (Hfilled x Hr Hc) as (v & Hv & Hrange). unfold f. by rewrite Hv. }
  assert (∀ x y, x ∈ U → y ∈ U → f x = f y → x = y) as Hinj.
  { intros x y Hx Hy Hxy. destruct (decide (x = y)) as [| Hne]; [done |].
    destruct (Hdistinct x y Hx Hy Hne (Hpeer x y Hx Hy)).
    destruct (Hf x Hx) as [-> _]. destruct (Hf y Hy) as [-> _]. by rewrite Hxy. }
  assert (f <$> U ≡ₚ seqZ 1 (grid_size a)) as Hperm.
  { apply submseteq_length_Permutation.
    - apply NoDup_submseteq; [by apply NoDup_fmap_2_strong |].
      intros v (x & -> & Hx)%list_elem_of_fmap. apply elem_of_seqZ.
      destruct (Hf x Hx) as [_ ?]. lia.
    - rewrite length_fmap, length_seqZ. lia. }
  apply Forall_forall. intros v Hv. rewrite <- Hperm in Hv.
  apply list_elem_of_fmap in Hv as (x & -> & Hx). unfold count_in.
  apply (length_filter_unique _ _ x); [done | done | by apply Hf |].
  intros y Hy Hcell. apply Hinj; [done | done |].
  destruct (Hf y Hy) as [Hy' _]. congruence.
Qed.

(** ** Models of the formula *)

Lemma has_candidate_candidate a r c :
  valid_grid a → has_candidate a (r, c) → ∃ v, candidate a r c v.
Proof.
  intros Hvalid (v & Hv%elem_of_seqZ & Hpeers)%Exists_exists. exists v.
  split; [lia |]. intros r' c' Hcell. rewrite Forall_forall in Hpeers.
  destruct (cell_range _ _ _ _ Hvalid Hcell) as (Hr & Hc & _).
  assert (¬ peer (grid_block_size a) (r, c) (r', c')) as Hnp.
  { intros Hp. eapply (Hpeers (r', c')); [by apply elem_of_all_cells | done | done]. }
  unfold peer in Hnp. simpl in Hnp. split_and!; intros Heq; apply Hnp; auto.
Qed.

Lemma last_write_Some d results r c v :
  last_write d results r c = Some v →
  ∃ pid p, pid ∈ results ∧ 0 < pid ∧ dict_get pid d = Some p ∧
           row (coords p) = r ∧ col (coords p) = c ∧ val p = v.
Proof.
  induction results as [|pid results IH]; [done |]. cbn [last_write].
  destruct (last_write d results r c) as [w|].
  - intros [= ->]. destruct (IH eq_refl) as (pid' & p & Hin & Hrest).
    exists pid', p. split; [by right | done].
  - unfold written. destruct (Z.ltb_spec 0 pid); [| done].
    destruct (dict_get pid d) as [p|] eqn:Hp; [| done].
    destruct (decide _) as [[Hr Hc]|]; [| done]. intros [= <-].
    exists pid, p. split; [by left | done].
Qed.

Lemma last_write_is_Some d results r c pid p :
  pid ∈ results → 0 < pid → dict_get pid d = Some p →
  row (coords p) = r → col (coords p) = c →
  is_Some (last_write d results r c).
Proof.
  intros Hin Hpos Hget Hr Hc. induction results as [|pid' results IH];
    [by apply elem_of_nil in Hin |].
  cbn [last_write]. destruct (last_write d results r c) as [w|] eqn:Hw; [done |].
  apply elem_of_cons in Hin as [<- | Hin].
  - unfold written. rewrite (proj2 (Z.ltb_lt 0 pid)) by done. rewrite Hget.
    by rewrite decide_True.
  - by destruct (IH Hin).
Qed.

Lemma dict_get_mk_props_id next cvs i p :
  dict_get i (mk_props next cvs) = Some p → id p = i.
Proof.
  revert next. induction cvs as [|[co v] cvs IH]; intros next; [done |].
  cbn [mk_props dict_get]. destruct (decide (i = next)) as [-> | Hne].
  - by intros [= <-].
  - apply IH.
Qed.

(** What the propositions of a grid say about the grid. *)
Lemma proposition_facts a p :
  p ∈ dict_values (propositions_of a) →
  0 < id p ∧ dict_get (id p) (propositions_of a) = Some p ∧
  cell a (row (coords p)) (col (coords p)) = Some 0 ∧
  block (coords p)
  = block_of (grid_block_size a) (row (coords p)) (col (coords p)) ∧
  candidate a (row (coords p)) (col (coords p)) (val p).
Proof.
  intros Hp. destruct (mk_props_lookup _ _ _ Hp) as [Hle Hget].
  assert ((coords p, val p) ∈ pairs_of a (ndenumerate a)) as Hin.
  { rewrite <- (mk_props_pairs 1 (pairs_of a (ndenumerate a))).
    apply list_elem_of_fmap. by exists p. }
  apply elem_of_pairs_of in Hin as (Hcell & Hb & Hcand).
  split_and!; [lia | done ..].
Qed.

Lemma before_total {A} (l : list A) (p q : A) :
  p ∈ l → q ∈ l → p ≠ q → before l p q ∨ before l q p.
Proof.
  intros [i Hi]%list_elem_of_lookup [j Hj]%list_elem_of_lookup Hne.
  destruct (Nat.lt_trichotomy i j) as [Hlt | [-> | Hlt]].
  - left. by exists i, j.
  - congruence.
  - right. by exists j, i.
Qed.

(** ** Soundness of decoding a model *)

Section soundness.
Context (self : SudokuGrid) (a : ndarray) (results : list Z).
Context (Hvalid : valid_grid a).

Local Abbreviation n := (grid_size a).
Local Abbreviation k := (grid_block_size a).
Local Abbreviation d := (propositions_of a).
Local Abbreviation a' := (decoded (propositions_of a) a results).

(** A decoded cell either keeps the puzzle's value or holds the value of a
    proposition of that cell whose id is in the result list. *)
Lemma decoded_cell_cases r c :
  (last_write d results r c = None ∧ cell a' r c = cell a r c) ∨
  (∃ p, p ∈ dict_values d ∧ id p ∈ results ∧
        row (coords p) = r ∧ col (coords p) = c ∧ cell a' r c = Some (val p)).
Proof.
  rewrite (cell_decoded n);
    [| by apply valid_grid_square | by apply propositions_of_in_grid].
  destruct (last_write d results r c) as [v|] eqn:Hlw; [| by left].
  right. apply last_write_Some in Hlw as (pid & p & Hin & _ & Hget & Hr & Hc & <-).
  exists p. pose proof (dict_get_mk_props_id _ _ _ _ Hget) as ->.
  split_and!; try done. by eapply dict_get_values.
Qed.

Lemma decoded_agrees : agrees a a'.
Proof.
  apply Forall_forall. intros [r c] _ Hne. cbn [fst snd] in *.
  destruct (decoded_cell_cases r c) as [[_ ?] | (p & Hp & _ & <- & <- & _)]; [done |].
  by destruct (proposition_facts a p Hp) as (_ & _ & ? & _).
Qed.

Lemma decoded_grid_size : grid_size a' = n.
Proof.
  apply (decoded_square n (propositions_of a) a results).
  by apply valid_grid_square.
Qed.

Context (Hsat : model_satisfies results (cnf (encoding_of self a))).

Lemma decoded_filled x :
  empty_cells_have_candidates a →
  0 ≤ x.1 < n → 0 ≤ x.2 < n →
  ∃ v, cell a' x.1 x.2 = Some v ∧ 1 ≤ v ≤ n.
Proof.
  intros Hcand Hr Hc. destruct x as [r c]. cbn [fst snd] in *.
  destruct (decoded_cell_cases r c) as [[Hlw ->] | (p & Hp & _ & <- & <- & ->)].
  2: { eexists. split; [done |].
       by destruct (proposition_facts a p Hp) as (_ & _ & _ & _ & [? _]). }
  destruct (square_cell n a r c (valid_grid_square a Hvalid) Hr Hc) as [v0 Hv0].
  destruct (cell_range a r c v0 Hvalid Hv0) as (_ & _ & Hrange).
  destruct (decide (v0 = 0)) as [-> | Hne]; [| exists v0; split; [done | lia]].
  exfalso. unfold empty_cells_have_candidates in Hcand.
  rewrite Forall_forall in Hcand.
  destruct (has_candidate_candidate a r c Hvalid) as [v Hv].
  { apply (Hcand (r, c)); [by apply elem_of_all_cells | done]. }
  assert ((mkCoordinates r c (block_of k r c), v) ∈ pairs_of a (ndenumerate a))
    as Hin by (by apply elem_of_pairs_of).
  rewrite <- (mk_props_pairs 1 (pairs_of a (ndenumerate a))) in Hin.
  apply list_elem_of_fmap in Hin as (p & Hpco & Hp). injection Hpco as Hco Hval.
  destruct Hsat as [_ Hclauses]. rewrite Forall_forall in Hclauses.
  destruct (proj1 (Exists_exists _ _)
              (Hclauses (id <$> filter (fun q => coords q = coords p) (dict_values d))
                 ltac:(apply elem_of_encoding_cnf; left; by exists p)))
    as (l & (q & -> & [Hq Hqin]%list_elem_of_filter)%list_elem_of_fmap & Hl).
  destruct (proposition_facts a q Hqin) as (Hpos & Hget & _).
  destruct (last_write_is_Some d results r c (id q) q Hl Hpos Hget) as [w Hw].
  - by rewrite Hq, <- Hco.
  - by rewrite Hq, <- Hco.
  - fold (propositions_of a) in Hw. congruence.
Qed.

Lemma true_propositions_compatible p q :
  p ∈ dict_values d → q ∈ dict_values d → p ≠ q → conflict p q →
  id p ∈ results → id q ∈ results → False.
Proof.
  intros Hp Hq Hne Hconf Hpr Hqr. destruct Hsat as [Hcons Hclauses].
  rewrite Forall_forall in Hcons. rewrite Forall_forall in Hclauses.
  assert ([- id p; - id q] ∈ cnf (encoding_of self a) ∨
          [- id q; - id p] ∈ cnf (encoding_of self a)) as [Hcl | Hcl].
  { destruct (before_total _ p q Hp Hq Hne) as [Hb | Hb].
    - left. apply elem_of_encoding_cnf. right. by exists p, q.
    - right. apply elem_of_encoding_cnf. right. exists q, p. split; [done |].
      split; [| done]. unfold conflict in *. intuition congruence. }
  - apply Hclauses, Exists_exists in Hcl as (l & Hl & Hlr).
    apply elem_of_cons in Hl as [-> | ->%list_elem_of_singleton].
    + apply (Hcons _ Hlr). by rewrite Z.opp_involutive.
    + apply (Hcons _ Hlr). by rewrite Z.opp_involutive.
  - apply Hclauses, Exists_exists in Hcl as (l & Hl & Hlr).
    apply elem_of_cons in Hl as [-> | ->%list_elem_of_singleton].
    + apply (Hcons _ Hlr). by rewrite Z.opp_involutive.
    + apply (Hcons _ Hlr). by rewrite Z.opp_involutive.
Qed.

Lemma decoded_distinct x y v :
  prefilled_consistent a →
  0 ≤ x.1 < n → 0 ≤ x.2 < n → 0 ≤ y.1 < n → 0 ≤ y.2 < n →
  x ≠ y → peer k x y → v ≠ 0 →
  cell a' x.1 x.2 = Some v → cell a' y.1 y.2 = Some v → False.
Proof.
  intros Hcons Hxr Hxc Hyr Hyc Hne Hpeer Hv Hx Hy.
  unfold prefilled_consistent in Hcons. rewrite Forall_forall in Hcons.
  assert (x ∈ all_cells n) as Hxin by (by apply elem_of_all_cells).
  assert (y ∈ all_cells n) as Hyin by (by apply elem_of_all_cells).
  destruct x as [r c], y as [r' c']. cbn [fst snd] in *.
  destruct (decoded_cell_cases r c)
    as [[_ Hax] | (p & Hp & Hpr & Hprow & Hpcol & Hpval)];
  destruct (decoded_cell_cases r' c')
    as [[_ Hay] | (q & Hq & Hqr & Hqrow & Hqcol & Hqval)].
  - specialize (Hcons _ Hxin). rewrite Forall_forall in Hcons.
    apply (Hcons _ Hyin Hne Hpeer); simpl; congruence.
  - destruct (proposition_facts a q Hq) as (_ & _ & _ & _ & [_ Hcand]).
    assert (val q = v) as Hval by congruence.
    rewrite Hqrow, Hqcol, Hval in Hcand.
    destruct (Hcand r c) as (? & ? & ?); [congruence |].
    unfold peer in Hpeer. simpl in Hpeer. intuition congruence.
  - destruct (proposition_facts a p Hp) as (_ & _ & _ & _ & [_ Hcand]).
    assert (val p = v) as Hval by congruence.
    rewrite Hprow, Hpcol, Hval in Hcand.
    destruct (Hcand r' c') as (? & ? & ?); [congruence |].
    unfold peer in Hpeer. simpl in Hpeer. intuition congruence.
  - destruct (proposition_facts a p Hp) as (_ & _ & _ & Hpb & _).
    destruct (proposition_facts a q Hq) as (_ & _ & _ & Hqb & _).
    apply (true_propositions_compatible p q); try done.
    + intros ->. apply Hne. congruence.
    + assert (val p = val q) by congruence.
      unfold conflict, peer in *. simpl in Hpeer.
      rewrite Hpb, Hqb, Hprow, Hpcol, Hqrow, Hqcol. intuition congruence.
Qed.

Lemma decoded_solved :
  prefilled_consistent a → empty_cells_have_candidates a → solved a'.
Proof.
  intros Hcons Hcand. unfold solved, grid_block_size. rewrite decoded_grid_size.
  fold k. apply Forall_forall. intros i Hi%elem_of_seqZ.
  assert (∀ U, unit_of n k U → each_once a' U) as Hunit.
  { intros U HU. apply (unit_each_once a' k U); rewrite ?decoded_grid_size; [| | done].
    - intros x Hr Hc. by apply decoded_filled.
    - destruct HU as (_ & _ & Hin & _). intros x y Hx Hy Hne Hpeer Heq.
      destruct (Hin x Hx) as [Hxr Hxc]. destruct (Hin y Hy) as [Hyr Hyc].
      destruct (decoded_filled x Hcand Hxr Hxc) as (v & Hv & Hrange).
      apply (decoded_distinct x y v); try done; [lia | congruence]. }
  destruct Hvalid as [Hk _].
  pose proof (Z.sqrt_nonneg n) as Hk0. fold k in Hk0.
  split_and!; apply Hunit.
  - apply row_cells_unit. lia.
  - apply col_cells_unit. lia.
  - rewrite <- Hk. apply block_cells_unit; [nia | lia].
Qed.
End soundness.

(** C1, as stated, fails.  Both grids are valid, their formula has no
    clause, so the empty result list is a model of it; the grid returned for
    that model is the puzzle itself, in which not every row holds each of
    1..4 exactly once. *)
Lemma soundness_counterexample :
  (valid_grid ones4 ∧
   ∃ e, encode (mkSudokuGrid 0) [ones4] = Ok (e, [ones4]) ∧
        model_satisfies [] (cnf e) ∧
        decode e [] [ones4] = Ok (mkSudokuGrid 1, [ones4; ones4]) ∧
        ¬ solved ones4) ∧
  (valid_grid hole4 ∧ prefilled_consistent hole4 ∧
   ∃ e, encode (mkSudokuGrid 0) [hole4] = Ok (e, [hole4]) ∧
        model_satisfies [] (cnf e) ∧
        decode e [] [hole4] = Ok (mkSudokuGrid 1, [hole4; hole4]) ∧
        ¬ solved hole4).
Proof.
  split.
  - split; [by_evaluation |]. exists (encoding_of (mkSudokuGrid 0) ones4).
    split_and!; [by vm_compute | by_evaluation | by vm_compute | by_evaluation].
  - split; [by_evaluation |]. split; [by_evaluation |].
    exists (encoding_of (mkSudokuGrid 0) hole4).
    split_and!; [by vm_compute | by_evaluation | by vm_compute | by_evaluation].
Qed.

(** C8, as stated, fails in its last part: the contradiction in a grid need
    not show as unsatisfiability.  For the two valid grids [ones4] (clashing
    pre-filled cells) and [hole4] (two empty cells without candidates) the
    formula has no clause at all, and the empty result list is a model. *)
Lemma contradiction_not_unsatisfiable_counterexample :
  (¬ prefilled_consistent ones4 ∧
   ∃ e, encode (mkSudokuGrid 0) [ones4] = Ok (e, [ones4]) ∧
        cnf e = [] ∧ model_satisfies [] (cnf e)) ∧
  (¬ empty_cells_have_candidates hole4 ∧
   ∃ e, encode (mkSudokuGrid 0) [hole4] = Ok (e, [hole4]) ∧
        cnf e = [] ∧ model_satisfies [] (cnf e)).
Proof.
  split.
  - split; [by_evaluation |]. exists (encoding_of (mkSudokuGrid 0) ones4).
    split_and!; [by vm_compute | by vm_compute | by_evaluation].
  - split; [by_evaluation |]. exists (encoding_of (mkSudokuGrid 0) hole4).
    split_and!; [by vm_compute | by vm_compute | by_evaluation].
Qed.

(** C1, amended.  For the encoding of a valid grid and every result list,
    [decode] returns a grid that agrees with the puzzle on every cell that
    is not empty there.  If moreover no pre-filled cell has a peer with the
    same value, every empty cell has a candidate, and the result list is a
    model of the formula, then every row, column and block of the returned
    grid holds each value 1..n exactly once. *)
Theorem solve_decode_sound (σ : store) (self : SudokuGrid) (a : ndarray)
    (e : SudokuCNF) (results : list Z) :
  σ !! _array self = Some a →
  valid_grid a →
  encode self σ = Ok (e, σ) →
  ∃ a', decode e results σ = Ok (mkSudokuGrid (length σ), σ ++ [a']) ∧
        agrees a a' ∧
        (prefilled_consistent a → empty_cells_have_candidates a →
         model_satisfies results (cnf e) → solved a').
Proof.
  intros Hσ Hvalid He. rewrite (encode_run _ _ _ Hσ Hvalid) in He.
  injection He as <-. exists (decoded (propositions_of a) a results). split_and!.
  - rewrite <- (encoding_of_propositions self a). apply decode_run.
    + by rewrite encoding_of_puzzle.
    + done.
    + rewrite encoding_of_propositions. by apply propositions_of_in_grid.
  - by apply decoded_agrees.
  - intros Hcons Hcand Hsat. by apply (decoded_solved self).
Qed.

Lemma solve_decode_sound_witness :
  ∃ a', decode (encoding_of (mkSudokuGrid 0) puzzle4) [1; 2; 3; 4; 5; 6; 7; 8]
               [puzzle4]
        = Ok (mkSudokuGrid 1, [puzzle4; a']) ∧
        agrees puzzle4 a' ∧ solved a'.
Proof.
  destruct (solve_decode_sound [puzzle4] (mkSudokuGrid 0) puzzle4
              (encoding_of (mkSudokuGrid 0) puzzle4) [1; 2; 3; 4; 5; 6; 7; 8]
              eq_refl puzzle4_valid ltac:(by vm_compute))
    as (a' & Hrun & Hagrees & Hsolved).
  exists a'. split; [exact Hrun |]. split; [exact Hagrees |].
  apply Hsolved; by_evaluation.
Defined.

(** ** Text formats *)

Lemma split_on_no_sep sep s : no_char sep s → split_on sep s = [s].
Proof.
  induction s as [|c s IH]; [done |]. intros [Hc Hs]. simpl.
  rewrite decide_False by done. by rewrite IH.
Qed.

Lemma split_on_app_sep sep s t :
  no_char sep s → split_on sep (s +:+ String sep t) = s :: split_on sep t.
Proof.
  induction s as [|c s IH]; intros Hs; simpl.
  - by rewrite decide_True.
  - destruct Hs as [Hc Hs]. rewrite decide_False by done. by rewrite IH.
Qed.

Lemma split_on_join (parts : list string) :
  parts ≠ [] → Forall (no_char ",") parts →
  split_on "," (join "," parts) = parts.
Proof.
  induction parts as [|p parts IH]; [done |]. intros _ Hall.
  apply Forall_cons in Hall as [Hp Hall]. destruct parts as [|q parts].
  - simpl. by apply split_on_no_sep.
  - change (join "," (p :: q :: parts))
      with (p +:+ String "," (join "," (q :: parts))).
    rewrite split_on_app_sep by done. by rewrite IH.
Qed.

Lemma digits_no_comma d : no_char "," (NilEmpty.string_of_uint d).
Proof. induction d; simpl; try split; done. Qed.

Lemma str_int_no_comma v : no_char "," (str_int v).
Proof.
  unfold str_int, NilZero.string_of_uint.
  destruct (N.to_uint (Z.to_N v)); try apply digits_no_comma. by split.
Qed.

Lemma to_uint_not_nil n : N.to_uint n ≠ Decimal.Nil.
Proof.
  intros Hnil. pose proof (DecimalN.Unsigned.to_of (N.to_uint n)) as H.
  rewrite DecimalN.Unsigned.of_to in H. rewrite Hnil in H at 2.
  destruct n as [|p]; [done |]. simpl in H.
  by apply (DecimalPos.Unsigned.to_uint_nonnil p).
Qed.

Lemma parse_str_int v : 0 ≤ v → parse_int (str_int v) = Some v.
Proof.
  intros Hv. unfold parse_int, str_int.
  rewrite NilZero.usu by apply to_uint_not_nil. simpl.
  rewrite DecimalN.Unsigned.of_to. f_equal. lia.
Qed.

Lemma parse_fields_str row :
  Forall (fun v => 0 ≤ v) row → parse_fields (str_int <$> row) = Some row.
Proof.
  induction 1 as [|v row Hv _ IH]; [done |]. cbn [fmap list_fmap parse_fields].
  rewrite parse_str_int by done. simpl.
  change (list_fmap _ _ str_int row) with (str_int <$> row). by rewrite IH.
Qed.

Lemma parse_plain_row row :
  row ≠ [] → Forall (fun v => 0 ≤ v) row → parse_row (plain_row row) = Some row.
Proof.
  intros Hne Hrow. unfold parse_row, plain_row. rewrite split_on_join.
  - by apply parse_fields_str.
  - by destruct row.
  - apply Forall_fmap, Forall_forall. intros v _. apply str_int_no_comma.
Qed.

Lemma parse_plain_rows (a : ndarray) :
  Forall (fun row => row ≠ [] ∧ Forall (fun v => 0 ≤ v) row) a →
  parse_rows (plain_rows a) = Some a.
Proof.
  unfold plain_rows. induction 1 as [|row a [Hne Hrow] _ IH]; [done |].
  rewrite fmap_cons. cbn [parse_rows]. rewrite parse_plain_row by done.
  cbn [mbind option_bind]. by rewrite IH.
Qed.






(** *** Characters a rendered grid does and does not hold *)






(** *** Reading a rendered row *)




(** *** Chunks *)



(** *** The rules between block-rows *)




(** *** The round trip *)






(** ** More of the grid: writes, reads, copies and enumeration *)

Lemma getitem_in_range_run σ self a n r c :
  σ !! _array self = Some a → square n a → - n ≤ r < n → - n ≤ c < n →
  ∃ v, __getitem__ self (r, c) σ = Ok (v, σ) ∧
       cell a (r `mod` n) (c `mod` n) = Some v.
Proof.
  intros Hσ Hsq Hr Hc.
  destruct (array_getitem_in_range n a r c Hsq Hr Hc) as (v & Hv & Hcell).
  exists v. by rewrite (getitem_run _ _ _ _ _ Hσ), Hv.
Qed.

Lemma getitem_cell σ self a n r c v :
  σ !! _array self = Some a → square n a → 0 ≤ r → 0 ≤ c →
  __getitem__ self (r, c) σ = Ok (v, σ) ↔ cell a r c = Some v.
Proof.
  intros Hσ Hsq Hr Hc. split.
  - intros Hget. destruct (decide (r < n ∧ c < n)) as [[Hrn Hcn] | Hout].
    + destruct (getitem_in_range_run σ self a n r c Hσ Hsq) as (w & Hw & Hcell);
        [lia .. |].
      rewrite !Z.mod_small in Hcell by lia. congruence.
    + rewrite (getitem_run _ _ _ _ _ Hσ) in Hget.
      rewrite (array_getitem_out_of_range n) in Hget by (done || lia). done.
  - intros Hcell. assert (0 < n ∧ r < n ∧ c < n) as (Hn & Hrn & Hcn).
    { unfold cell in Hcell. rewrite decide_True in Hcell by lia.
      destruct Hsq as [Hlen Hrows].
      destruct (a !! Z.to_nat r) as [rw|] eqn:Hrow; [| done]. simpl in Hcell.
      rewrite Forall_forall in Hrows.
      pose proof (Hrows rw (list_elem_of_lookup_2 _ _ _ Hrow)).
      apply lookup_lt_Some in Hrow, Hcell. lia. }
    destruct (getitem_in_range_run σ self a n r c Hσ Hsq) as (w & Hw & Hcell');
      [lia .. |].
    rewrite !Z.mod_small in Hcell' by lia. congruence.
Qed.

(** X1.  After [grid[row, col] = value] with both indices inside [-n, n)
    and a value of the array's type (an integer of 0..[uint_max]), reading
    at the same indices returns the value written, reading any other cell
    returns what it held before, and no other grid object of the store is
    touched. *)
Theorem setitem_then_getitem (σ : store) (self : SudokuGrid) (a : ndarray)
    (n r c v : Z) :
  σ !! _array self = Some a →
  square n a →
  - n ≤ r < n → - n ≤ c < n →
  0 ≤ v ≤ uint_max →
  ∃ σ', __setitem__ self (r, c) v σ = Ok (tt, σ') ∧
        __getitem__ self (r, c) σ' = Ok (v, σ') ∧
        (∀ r' c' w, - n ≤ r' < n → - n ≤ c' < n →
                    (r' `mod` n, c' `mod` n) ≠ (r `mod` n, c `mod` n) →
                    __getitem__ self (r', c') σ = Ok (w, σ) →
                    __getitem__ self (r', c') σ' = Ok (w, σ')) ∧
        (∀ other, _array other ≠ _array self →
                  σ' !! _array other = σ !! _array other).
Proof.
  intros Hσ Hsq Hr Hc Hv. assert (0 < n) as Hn by lia.
  pose proof (Z.mod_pos_bound r n Hn) as Hrm.
  pose proof (Z.mod_pos_bound c n Hn) as Hcm.
  set (a' := array_update a (Z.to_nat (r `mod` n)) (Z.to_nat (c `mod` n)) v).
  assert (∀ r' c', cell a' r' c'
            = if decide (r' = r `mod` n ∧ c' = c `mod` n) then Some v
              else cell a r' c') as Hcell.
  { intros r' c'. unfold a'. rewrite cell_array_update; rewrite !Z2Nat.id by lia;
      [done | by apply (square_cell n)]. }
  assert (square n a') as Hsq' by by apply square_array_update.
  exists (<[_array self := a']> σ).
  assert (<[_array self := a']> σ !! _array self = Some a') as Hσ'.
  { apply list_lookup_insert_eq. by eapply lookup_lt_Some. }
  split_and!.
  - rewrite (setitem_run _ _ _ _ _ _ Hσ). by rewrite (array_setitem_in_range n).
  - destruct (getitem_in_range_run _ self a' n r c Hσ' Hsq' Hr Hc) as (w & Hw & Hw').
    rewrite Hcell, decide_True in Hw' by done. congruence.
  - intros r' c' w Hr' Hc' Hne Hget.
    destruct (getitem_in_range_run _ self a n r' c' Hσ Hsq Hr' Hc') as (w1 & Hw1 & Hc1).
    destruct (getitem_in_range_run _ self a' n r' c' Hσ' Hsq' Hr' Hc')
      as (w2 & Hw2 & Hc2).
    rewrite Hcell, decide_False in Hc2 by (intros [? ?]; apply Hne; congruence).
    congruence.
  - intros other Hne. by rewrite list_lookup_insert_ne.
Qed.

Lemma setitem_then_getitem_witness :
  ∃ σ', __setitem__ (mkSudokuGrid 0) (-1, 2) 9 [grid4] = Ok (tt, σ') ∧
        __getitem__ (mkSudokuGrid 0) (-1, 2) σ' = Ok (9, σ').
Proof.
  destruct (setitem_then_getitem [grid4] (mkSudokuGrid 0) grid4 4 (-1) 2 9
              eq_refl ltac:(by_evaluation) ltac:(lia) ltac:(lia)
              ltac:(by_evaluation))
    as (σ' & Hset & Hget & _).
  exists σ'. by split.
Defined.

(** X2.  [copy] of a valid grid returns a new grid object over an array of
    its own with the same contents: a later write through the copy leaves
    the array of the original as it was, and a later write through the
    original leaves the array of the copy as it was. *)
Theorem copy_is_independent (σ : store) (self : SudokuGrid) (a : ndarray) :
  σ !! _array self = Some a →
  valid_grid a →
  ∃ g σ1, copy self σ = Ok (g, σ1) ∧
          _array g ≠ _array self ∧
          σ1 !! _array g = Some a ∧
          σ1 !! _array self = Some a ∧
          (∀ r c v σ2, __setitem__ g (r, c) v σ1 = Ok (tt, σ2) →
                       σ2 !! _array self = Some a) ∧
          (∀ r c v σ2, __setitem__ self (r, c) v σ1 = Ok (tt, σ2) →
                       σ2 !! _array g = Some a).
Proof.
  intros Hσ Hvalid. exists (mkSudokuGrid (length σ)), (σ ++ [a]).
  pose proof (lookup_lt_Some _ _ _ Hσ) as Hlt.
  assert ((σ ++ [a]) !! length σ = Some a) as Hnew by by rewrite list_lookup_middle.
  assert ((σ ++ [a]) !! _array self = Some a) as Hold by by apply lookup_app_l_Some.
  split_and!; try done.
  - by apply copy_run.
  - simpl. lia.
  - intros r c v σ2 Hset.
    rewrite (setitem_run _ (mkSudokuGrid (length σ)) _ _ _ _ Hnew) in Hset.
    destruct (array_setitem a r c v); [| done]. injection Hset as <-.
    rewrite list_lookup_insert_ne by (simpl; lia). done.
  - intros r c v σ2 Hset. rewrite (setitem_run _ _ _ _ _ _ Hold) in Hset.
    destruct (array_setitem a r c v); [| done]. injection Hset as <-.
    rewrite list_lookup_insert_ne by (simpl; lia). done.
Qed.

Lemma copy_is_independent_witness :
  ∃ g σ1, copy (mkSudokuGrid 0) [grid4] = Ok (g, σ1) ∧
          _array g ≠ 0%nat ∧ σ1 !! _array g = Some grid4.
Proof.
  destruct (copy_is_independent [grid4] (mkSudokuGrid 0) grid4 eq_refl
              ltac:(by_evaluation))
    as (g & σ1 & Hcopy & Hne & Hg & _).
  exists g, σ1. by split_and!.
Defined.

Lemma fst_enum_from {A} (i : Z) (l : list A) :
  (enum_from i l).*1 = seqZ i (Z.of_nat (length l)).
Proof.
  revert i. induction l as [|x l IH]; intros i; [done |].
  cbn [enum_from length]. rewrite fmap_cons, IH.
  rewrite (seqZ_cons i) by lia. simpl. do 2 f_equal; lia.
Qed.

Lemma snd_enum_from {A} (i : Z) (l : list A) : (enum_from i l).*2 = l.
Proof.
  revert i. induction l as [|x l IH]; intros i; [done |].
  cbn [enum_from]. by rewrite fmap_cons, IH.
Qed.

Lemma ndenumerate_values (a : ndarray) : (ndenumerate a).*2 = concat a.
Proof.
  unfold ndenumerate.
  enough (∀ i, (enum_from i a ≫=
                 (fun '(r, row) => (fun '(c, v) => (r, c, v)) <$> enum_from 0 row)).*2
               = concat a) as H by apply H.
  induction a as [|rw a IH]; intros i; [done |].
  cbn [enum_from concat]. rewrite bind_cons, fmap_app, IH. f_equal.
  rewrite <- list_fmap_compose. rewrite <- (snd_enum_from 0 rw) at 2.
  apply list_fmap_ext. by intros _ [c v] _.
Qed.

Lemma ndenumerate_coords n (a : ndarray) :
  square n a → (ndenumerate a).*1 = all_cells n.
Proof.
  intros [Hlen Hrows]. unfold ndenumerate, all_cells.
  enough (∀ i, (enum_from i a ≫=
                 (fun '(r, row) => (fun '(c, v) => (r, c, v)) <$> enum_from 0 row)).*1
               = seqZ i (Z.of_nat (length a)) ≫= row_cells n) as H
    by (specialize (H 0); rewrite Hlen in H; exact H).
  clear Hlen. induction a as [|rw a IH]; intros i; [done |].
  apply Forall_cons in Hrows as [Hrw Hrows].
  cbn [enum_from length]. rewrite bind_cons, fmap_app, (IH Hrows).
  rewrite (seqZ_cons i) by lia. rewrite bind_cons.
  replace (Z.pred (Z.of_nat (S (length a)))) with (Z.of_nat (length a)) by lia.
  replace (Z.succ i) with (i + 1) by lia. f_equal.
  unfold row_cells. rewrite <- Hrw, <- fst_enum_from, <- !list_fmap_compose.
  apply list_fmap_ext. by intros _ [c v] _.
Qed.

Lemma length_all_cells n : 0 ≤ n → length (all_cells n) = Z.to_nat (n * n).
Proof.
  intros Hn. unfold all_cells. rewrite (length_bind_const _ _ (Z.to_nat n)).
  - rewrite length_seqZ. rewrite Z2Nat.inj_mul by lia. done.
  - intros r _. unfold row_cells. by rewrite length_fmap, length_seqZ.
Qed.

Lemma concat_lookup {A} (l : list (list A)) (m i j : nat) :
  Forall (fun rw => length rw = m) l → (j < m)%nat →
  concat l !! (i * m + j)%nat = l !! i ≫= (.!! j).
Proof.
  intros Hl Hj. revert i. induction Hl as [|rw l Hrw Hl IH]; intros i.
  - simpl. by rewrite !lookup_nil.
  - cbn [concat]. destruct i as [|i].
    + simpl. by rewrite lookup_app_l by lia.
    + rewrite lookup_app_r by (simpl; lia). simpl.
      replace (m + i * m + j - length rw)%nat with (i * m + j)%nat by lia.
      apply IH.
Qed.

(** X3.  On an n x n grid [enumerate] yields one item per cell, n * n in
    all, the coordinates running row-major from (0, 0) to (n-1, n-1); the
    value of an item is the value [grid[row, col]] returns. *)
Theorem enumerate_spec (σ : store) (self : SudokuGrid) (a : ndarray) (n : Z) :
  σ !! _array self = Some a →
  square n a →
  ∃ items, enumerate self σ = Ok (items, σ) ∧
           items.*1 = all_cells n ∧
           length items = Z.to_nat (n * n) ∧
           ∀ r c v, (r, c, v) ∈ items ↔
                    0 ≤ r ∧ 0 ≤ c ∧ __getitem__ self (r, c) σ = Ok (v, σ).
Proof.
  intros Hσ Hsq. exists (ndenumerate a). split_and!.
  - by apply enumerate_run.
  - by apply ndenumerate_coords.
  - rewrite <- (length_fmap fst), (ndenumerate_coords n) by done.
    apply length_all_cells. destruct Hsq as [<- _]. lia.
  - intros r c v. rewrite elem_of_ndenumerate. split.
    + intros Hcell. assert (0 ≤ r ∧ 0 ≤ c) as [Hr Hc].
      { unfold cell in Hcell. by destruct (decide (0 ≤ r ∧ 0 ≤ c)). }
      split_and!; [done .. |]. by apply (getitem_cell σ self a n).
    + intros (Hr & Hc & Hget). by apply (getitem_cell σ self a n) in Hget.
Qed.

Lemma enumerate_spec_witness :
  ∃ items, enumerate (mkSudokuGrid 0) [grid4] = Ok (items, [grid4]) ∧
           length items = 16%nat.
Proof.
  destruct (enumerate_spec [grid4] (mkSudokuGrid 0) grid4 4 eq_refl
              ltac:(by_evaluation)) as (items & Hrun & _ & Hlen & _).
  exists items. by split.
Defined.

(** X4.  On an n x n grid [flatten] returns the values of [enumerate] in
    the same order, n * n of them; position row * n + col of the result
    holds the value [grid[row, col]] returns. *)
Theorem flatten_spec (σ : store) (self : SudokuGrid) (a : ndarray) (n : Z) :
  σ !! _array self = Some a →
  square n a →
  ∃ items flat, enumerate self σ = Ok (items, σ) ∧
                flatten self σ = Ok (flat, σ) ∧
                flat = items.*2 ∧
                length flat = Z.to_nat (n * n) ∧
                ∀ r c v, 0 ≤ r < n → 0 ≤ c < n →
                  (flat !! Z.to_nat (r * n + c) = Some v ↔
                   __getitem__ self (r, c) σ = Ok (v, σ)).
Proof.
  intros Hσ Hsq. exists (ndenumerate a), (concat a). split_and!.
  - by apply enumerate_run.
  - unfold flatten. by rewrite bind_run, (read_run _ _ _ Hσ).
  - by rewrite ndenumerate_values.
  - rewrite <- ndenumerate_values, length_fmap.
    rewrite <- (length_fmap fst), (ndenumerate_coords n) by done.
    apply length_all_cells. destruct Hsq as [<- _]. lia.
  - intros r c v Hr Hc. rewrite (getitem_cell σ self a n) by (done || lia).
    unfold cell. rewrite decide_True by lia.
    replace (Z.to_nat (r * n + c))
      with (Z.to_nat r * Z.to_nat n + Z.to_nat c)%nat by nia.
    rewrite (concat_lookup a (Z.to_nat n)); [done | | lia].
    destruct Hsq as [_ Hrows]. eapply Forall_impl; [exact Hrows |].
    intros rw ?. simpl in *. lia.
Qed.

Lemma flatten_spec_witness :
  ∃ flat, flatten (mkSudokuGrid 0) [grid4] = Ok (flat, [grid4]) ∧
          length flat = 16%nat.
Proof.
  destruct (flatten_spec [grid4] (mkSudokuGrid 0) grid4 4 eq_refl
              ltac:(by_evaluation)) as (items & flat & _ & Hrun & _ & Hlen & _).
  exists flat. by split.
Defined.

(** ** What the clause primitives mean for a model *)

Lemma model_satisfies_app (results : list Z) f g :
  model_satisfies results (f ++ g) ↔
  model_satisfies results f ∧ Forall (fun cl => Exists (fun l => l ∈ results) cl) g.
Proof. unfold model_satisfies. rewrite Forall_app. tauto. Qed.

Lemma pair_clauses_hold (results : list Z) (props : list Proposition) :
  Forall (fun cl => Exists (fun l => l ∈ results) cl)
         (pair_clause <$> combinations2 props) ↔
  ∀ i j p q, (i < j)%nat → props !! i = Some p → props !! j = Some q →
             - id p ∈ results ∨ - id q ∈ results.
Proof.
  rewrite Forall_fmap, Forall_forall. split.
  - intros H i j p q Hij Hi Hj.
    assert ((p, q) ∈ combinations2 props) as Hin
      by (apply elem_of_combinations2; by exists i, j).
    apply H in Hin. simpl in Hin. unfold pair_clause in Hin. simpl in Hin.
    apply Exists_cons in Hin as [Hin | Hin]; [by left |].
    apply Exists_cons in Hin as [Hin | Hin]; [by right |].
    by apply Exists_nil in Hin.
  - intros H [p q] (i & j & Hij & Hi & Hj)%elem_of_combinations2.
    simpl. unfold pair_clause. simpl.
    destruct (H i j p q Hij Hi Hj); [by apply Exists_cons_hd |].
    by apply Exists_cons_tl, Exists_cons_hd.
Qed.

(** X5.  A model satisfies the formula after [_at_most_one] exactly when it
    satisfies the formula before and, of any two positions of the list, it
    holds the negated id of at least one: no two of the propositions are
    left true. *)
Theorem at_most_one_meaning (self : SudokuCNF) (props : list Proposition)
    (results : list Z) :
  model_satisfies results (cnf (_at_most_one self props)) ↔
  model_satisfies results (cnf self) ∧
  ∀ i j p q, (i < j)%nat → props !! i = Some p → props !! j = Some q →
             - id p ∈ results ∨ - id q ∈ results.
Proof.
  rewrite at_most_one_eq. cbn [cnf].
  by rewrite model_satisfies_app, pair_clauses_hold.
Qed.

(** X6.  A model satisfies the formula after [_exactly_one] exactly when it
    satisfies the formula before and, unless the list is empty, holds the id
    at one position of the list and the negated id, and not the id, at every
    other position.  For an empty list nothing is demanded. *)
Theorem exactly_one_meaning (self : SudokuCNF) (props : list Proposition)
    (results : list Z) :
  model_satisfies results (cnf (_exactly_one self props)) ↔
  model_satisfies results (cnf self) ∧
  (props = [] ∨
   ∃ i p, props !! i = Some p ∧ id p ∈ results ∧
          ∀ j q, j ≠ i → props !! j = Some q →
                 - id q ∈ results ∧ id q ∉ results).
Proof.
  rewrite exactly_one_eq. cbn [cnf]. rewrite model_satisfies_app.
  destruct props as [|p0 props'].
  { split; [intros [H _]; split; [done | by left] | by intros [H _]]. }
  set (props := p0 :: props'). rewrite Forall_cons, pair_clauses_hold. split.
  - intros (Hm & Hsome & Hpairs). split; [done |]. right.
    destruct Hm as [Hcons _]. rewrite Forall_forall in Hcons.
    apply Exists_exists in Hsome as (l & (p & -> & Hp)%list_elem_of_fmap & Hl).
    apply list_elem_of_lookup in Hp as [i Hi]. exists i, p.
    split_and!; [done .. |]. intros j q Hne Hj.
    assert (- id q ∈ results) as Hq.
    { destruct (Nat.lt_trichotomy i j) as [Hlt | [-> | Hlt]]; [| done |].
      - destruct (Hpairs i j p q Hlt Hi Hj) as [Hp |]; [| done].
        by destruct (Hcons _ Hl).
      - destruct (Hpairs j i q p Hlt Hj Hi) as [| Hp]; [done |].
        by destruct (Hcons _ Hl). }
    split; [done |]. intros Hq'. by destruct (Hcons _ Hq').
  - intros (Hm & [Hnil | (i & p & Hi & Hp & Hothers)]); [done |].
    split_and!; [done | |].
    + apply Exists_exists. exists (id p). split; [| done].
      apply list_elem_of_fmap. exists p. split; [done |].
      by eapply list_elem_of_lookup_2.
    + intros i1 i2 q1 q2 Hlt H1 H2. destruct (decide (i1 = i)) as [-> | Hne].
      * right. apply (Hothers i2 q2); [lia | done].
      * left. by apply (Hothers i1 q1).
Qed.

(** ** Grids without candidates *)

Lemma decoded_nil a results : decoded [] a results = a.
Proof.
  unfold decoded. induction results as [|pid results IH]; [done |].
  cbn [foldl]. unfold write_prop at 2. simpl. by destruct (0 <? pid).
Qed.

(** X7.  On a valid grid the formula [encode] builds has no clause exactly
    when there is no proposition, which is exactly when no empty cell has a
    candidate (a grid without empty cells is such a grid); [decode] then
    returns, for every result list, a copy of the puzzle as it is. *)
Theorem formula_without_candidates (σ : store) (self : SudokuGrid) (a : ndarray) :
  σ !! _array self = Some a →
  valid_grid a →
  ∃ e, encode self σ = Ok (e, σ) ∧
       (cnf e = [] ↔ propositions e = []) ∧
       (propositions e = [] ↔
        ∀ r c v, cell a r c = Some 0 → ¬ candidate a r c v) ∧
       (propositions e = [] →
        ∀ results, decode e results σ = Ok (mkSudokuGrid (length σ), σ ++ [a])).
Proof.
  intros Hσ Hvalid. exists (encoding_of self a).
  split; [by apply encode_run |]. rewrite encoding_of_propositions. split_and!.
  - split.
    + intros Hcnf. destruct (dict_values (propositions_of a)) as [|p ps] eqn:Hps.
      * by destruct (propositions_of a).
      * assert (id <$> filter (fun q => coords q = coords p)
                              (dict_values (propositions_of a))
                ∈ cnf (encoding_of self a)) as Hin.
        { apply elem_of_encoding_cnf. left. exists p. split; [| done].
          rewrite Hps. by left. }
        rewrite Hcnf in Hin. by apply elem_of_nil in Hin.
    + intros Hnil. apply elem_of_nil_inv. intros cl Hcl.
      apply elem_of_encoding_cnf in Hcl. rewrite Hnil in Hcl. simpl in Hcl.
      destruct Hcl as [(p & Hp & _) | (p & q & (i & j & _ & Hi & _) & _)].
      * by apply elem_of_nil in Hp.
      * by rewrite lookup_nil in Hi.
  - split.
    + intros Hnil r c v Hcell Hcand.
      assert ((mkCoordinates r c (block_of (grid_block_size a) r c), v)
              ∈ pairs_of a (ndenumerate a)) as Hin by by apply elem_of_pairs_of.
      rewrite <- (mk_props_pairs 1) in Hin. fold (propositions_of a) in Hin.
      rewrite Hnil in Hin. by apply elem_of_nil in Hin.
    + intros Hnone. unfold propositions_of.
      destruct (pairs_of a (ndenumerate a)) as [|[co v] cvs] eqn:Hcvs; [done |].
      assert ((co, v) ∈ pairs_of a (ndenumerate a)) as Hin
        by (rewrite Hcvs; by left).
      apply elem_of_pairs_of in Hin as (Hcell & _ & Hcand).
      by destruct (Hnone _ _ _ Hcell Hcand).
  - intros Hnil results. rewrite (decode_run _ _ a).
    + by rewrite encoding_of_propositions, Hnil, decoded_nil.
    + by rewrite encoding_of_puzzle.
    + done.
    + rewrite encoding_of_propositions. by apply propositions_of_in_grid.
Qed.

Lemma formula_without_candidates_witness :
  ∃ e, encode (mkSudokuGrid 0) [grid4] = Ok (e, [grid4]) ∧
       (cnf e = [] ↔ propositions e = []).
Proof.
  destruct (formula_without_candidates [grid4] (mkSudokuGrid 0) grid4 eq_refl
              ltac:(by_evaluation)) as (e & Hrun & Hcnf & _).
  exists e. by split.
Defined.

(** ** Completeness of the encoding *)

Lemma StronglySorted_NoDup {A} (R : A → A → Prop) (l : list A) :
  (∀ x, ¬ R x x) → StronglySorted R l → NoDup l.
Proof.
  intros Hirr. induction 1 as [|x l Hs IH Hx]; constructor; [| done].
  intros Hin. rewrite Forall_forall in Hx. by apply (Hirr x), Hx.
Qed.

Lemma props_NoDup a : NoDup (key_of <$> dict_values (propositions_of a)).
Proof.
  apply (StronglySorted_NoDup triple_lt).
  - intros [[r c] v]. unfold triple_lt. simpl. lia.
  - pose proof (pairs_of_sorted a) as Hs.
    rewrite <- (mk_props_pairs 1 (pairs_of a (ndenumerate a))) in Hs.
    rewrite <- list_fmap_compose in Hs. exact Hs.
Qed.

Lemma props_injective a p q :
  p ∈ dict_values (propositions_of a) → q ∈ dict_values (propositions_of a) →
  key_of p = key_of q → p = q.
Proof.
  intros [i Hi]%list_elem_of_lookup [j Hj]%list_elem_of_lookup Hkey.
  assert (i = j) as ->; [| congruence].
  apply (NoDup_lookup _ i j (key_of p) (props_NoDup a)); rewrite list_lookup_fmap.
  - by rewrite Hi.
  - by rewrite Hj, Hkey.
Qed.

Lemma each_once_distinct (s : ndarray) (U : list (Z * Z)) x y v :
  each_once s U → 1 ≤ v ≤ grid_size s → x ∈ U → y ∈ U →
  cell s x.1 x.2 = Some v → cell s y.1 y.2 = Some v → x = y.
Proof.
  intros Hall Hv Hx Hy Hcx Hcy. unfold each_once in Hall.
  rewrite Forall_forall in Hall.
  assert (v ∈ seqZ 1 (grid_size s)) as Hin by (apply elem_of_seqZ; lia).
  apply Hall in Hin. unfold count_in in Hin.
  assert (∀ z, z ∈ U → cell s z.1 z.2 = Some v →
               z ∈ filter (fun x : Z * Z => cell s x.1 x.2 = Some v) U) as Hf
    by (intros z ? ?; by apply list_elem_of_filter).
  pose proof (Hf x Hx Hcx) as Hx'. pose proof (Hf y Hy Hcy) as Hy'.
  revert Hin Hx' Hy'.
  generalize (filter (fun x : Z * Z => cell s x.1 x.2 = Some v) U).
  intros [|z [|z' l]] Hlen; [done | | done].
  intros ->%list_elem_of_singleton ->%list_elem_of_singleton. done.
Qed.

Lemma each_once_filled (s : ndarray) (U : list (Z * Z)) x :
  NoDup U → length U = Z.to_nat (grid_size s) → each_once s U → x ∈ U →
  ∃ v, cell s x.1 x.2 = Some v ∧ 1 ≤ v ≤ grid_size s.
Proof.
  intros Hnd Hlen Hall Hx. unfold each_once in Hall. rewrite Forall_forall in Hall.
  set (f := fun v => filter (fun x : Z * Z => cell s x.1 x.2 = Some v) U).
  assert (seqZ 1 (grid_size s) ≫= f ≡ₚ U) as Hperm.
  { apply submseteq_length_Permutation.
    - apply NoDup_submseteq.
      + apply NoDup_bind; [| | apply NoDup_seqZ].
        * intros v1 v2 y _ _ [H1 _]%list_elem_of_filter [H2 _]%list_elem_of_filter.
          congruence.
        * intros v _. by apply NoDup_filter.
      + by intros y (v & [_ Hy]%list_elem_of_filter & _)%list_elem_of_bind.
    - rewrite (length_bind_const _ _ 1).
      + rewrite length_seqZ. lia.
      + intros v Hv. apply (Hall v Hv). }
  rewrite <- Hperm in Hx.
  apply list_elem_of_bind in Hx as (v & [Hc _]%list_elem_of_filter & Hv%elem_of_seqZ).
  exists v. split; [done | lia].
Qed.

Lemma in_block_cells k r c :
  0 < k → 0 ≤ r < k * k → 0 ≤ c < k * k → (r, c) ∈ block_cells k (block_of k r c).
Proof.
  intros Hk Hr Hc. apply elem_of_block_cells. exists (r `mod` k), (c `mod` k).
  pose proof (Z.mod_pos_bound r k Hk). pose proof (Z.mod_pos_bound c k Hk).
  split; [lia |]. split; [lia |]. unfold block_of.
  assert (0 ≤ c / k < k)
    by (split; [apply Z.div_pos | apply Z.div_lt_upper_bound]; lia).
  assert ((r / k * k + c / k) / k = r / k) as ->.
  { rewrite Z.div_add_l by lia. rewrite (Z.div_small (c / k)) by lia. lia. }
  assert ((r / k * k + c / k) `mod` k = c / k) as ->.
  { rewrite Z.add_comm, Z.mod_add by lia. apply Z.mod_small. lia. }
  pose proof (Z.div_mod r k). pose proof (Z.div_mod c k). f_equal; lia.
Qed.

Lemma square_ext n (a b : ndarray) :
  square n a → square n b →
  (∀ r c, 0 ≤ r < n → 0 ≤ c < n → cell a r c = cell b r c) → a = b.
Proof.
  intros [Hla Hra] [Hlb Hrb] Hcell. apply list_eq. intros i.
  destruct (decide (i < length a)%nat) as [Hi | Hi].
  2: { rewrite !lookup_ge_None_2 by lia. done. }
  destruct (lookup_lt_is_Some_2 a i Hi) as [ra Hra'].
  destruct (lookup_lt_is_Some_2 b i ltac:(lia)) as [rb Hrb'].
  rewrite Hra', Hrb'. f_equal. apply list_eq. intros j.
  rewrite Forall_forall in Hra. rewrite Forall_forall in Hrb.
  pose proof (Hra ra (list_elem_of_lookup_2 _ _ _ Hra')).
  pose proof (Hrb rb (list_elem_of_lookup_2 _ _ _ Hrb')).
  destruct (decide (j < length ra)%nat) as [Hj | Hj].
  2: { rewrite !lookup_ge_None_2 by lia. done. }
  specialize (Hcell (Z.of_nat i) (Z.of_nat j) ltac:(lia) ltac:(lia)).
  unfold cell in Hcell. rewrite !decide_True in Hcell by lia.
  rewrite !Nat2Z.id in Hcell. by rewrite Hra', Hrb' in Hcell.
Qed.

Lemma elem_of_model_of a s l :
  l ∈ model_of a s ↔
  ∃ p, p ∈ dict_values (propositions_of a) ∧
       ((l = id p ∧ cell s (row (coords p)) (col (coords p)) = Some (val p)) ∨
        (l = - id p ∧ cell s (row (coords p)) (col (coords p)) ≠ Some (val p))).
Proof.
  unfold model_of. rewrite list_elem_of_fmap. split.
  - intros (p & -> & Hp). exists p. split; [done |].
    destruct (decide _); [by left | by right].
  - intros (p & Hp & [[-> Hc] | [-> Hc]]); exists p; (split; [| done]).
    + by rewrite decide_True.
    + by rewrite decide_False.
Qed.

Lemma id_injective a p q :
  p ∈ dict_values (propositions_of a) → q ∈ dict_values (propositions_of a) →
  id p = id q → p = q.
Proof.
  intros Hp Hq Hid.
  destruct (proposition_facts a p Hp) as (_ & Hgp & _).
  destruct (proposition_facts a q Hq) as (_ & Hgq & _). congruence.
Qed.

Lemma model_of_true a s p :
  p ∈ dict_values (propositions_of a) →
  id p ∈ model_of a s ↔ cell s (row (coords p)) (col (coords p)) = Some (val p).
Proof.
  intros Hp. rewrite elem_of_model_of. split.
  - intros (q & Hq & [[Hid Hc] | [Hid _]]).
    + by rewrite (id_injective a p q Hp Hq Hid).
    + destruct (proposition_facts a p Hp) as (? & _).
      destruct (proposition_facts a q Hq) as (? & _). lia.
  - intros Hc. exists p. split; [done |]. by left.
Qed.

Lemma model_of_false a s p :
  p ∈ dict_values (propositions_of a) →
  - id p ∈ model_of a s ↔ cell s (row (coords p)) (col (coords p)) ≠ Some (val p).
Proof.
  intros Hp. rewrite elem_of_model_of. split.
  - intros (q & Hq & [[Hid _] | [Hid Hc]]).
    + destruct (proposition_facts a p Hp) as (? & _).
      destruct (proposition_facts a q Hq) as (? & _). lia.
    + assert (id p = id q) as Hid' by lia.
      by rewrite (id_injective a p q Hp Hq Hid').
  - intros Hc. exists p. split; [done |]. by right.
Qed.

Section completeness.
Context (self : SudokuGrid) (a s : ndarray).
Context (Hvalid : valid_grid a).
Context (Hshape : square (grid_size a) s).
Context (Hsolved : solved s).
Context (Hagrees : agrees a s).

Local Abbreviation n := (grid_size a).
Local Abbreviation k := (grid_block_size a).
Local Abbreviation ps := (dict_values (propositions_of a)).

Lemma solution_size : grid_size s = n.
Proof. by destruct Hshape. Qed.

Lemma block_size_facts : 0 < k ∨ n = 0.
Proof.
  destruct Hvalid as [Hk _]. pose proof (Z.sqrt_nonneg n) as Hk0.
  fold k in Hk0. nia.
Qed.

Lemma solution_units i :
  0 ≤ i < n →
  each_once s (row_cells n i) ∧ each_once s (col_cells n i) ∧
  each_once s (block_cells k i).
Proof.
  intros Hi. pose proof Hsolved as Hs. unfold solved, grid_block_size in Hs.
  rewrite solution_size in Hs. rewrite Forall_forall in Hs.
  apply Hs, elem_of_seqZ. lia.
Qed.

Lemma solution_filled r c :
  0 ≤ r < n → 0 ≤ c < n → ∃ v, cell s r c = Some v ∧ 1 ≤ v ≤ n.
Proof.
  intros Hr Hc. destruct (solution_units r Hr) as (Hrow & _).
  destruct (row_cells_unit n k r Hr) as (Hnd & Hlen & _).
  destruct (each_once_filled s (row_cells n r) (r, c)) as (v & Hv & Hrange);
    [done | by rewrite solution_size | done | |].
  - apply list_elem_of_fmap. exists c. split; [done |]. apply elem_of_seqZ. lia.
  - exists v. split; [done |]. by rewrite <- solution_size.
Qed.

Lemma solution_distinct r c r' c' v :
  0 ≤ r < n → 0 ≤ c < n → 0 ≤ r' < n → 0 ≤ c' < n →
  peer k (r, c) (r', c') →
  cell s r c = Some v → cell s r' c' = Some v → (r, c) = (r', c').
Proof.
  intros Hr Hc Hr' Hc' Hpeer Hv Hv'.
  assert (1 ≤ v ≤ grid_size s) as Hrange.
  { destruct (solution_filled r c Hr Hc) as (w & Hw & ?).
    rewrite solution_size. congruence. }
  destruct Hvalid as [Hk _].
  destruct block_size_facts as [Hk0 |]; [| lia].
  destruct Hpeer as [Heq | [Heq | Heq]]; simpl in Heq.
  - destruct (solution_units r Hr) as (Hrow & _). subst r'.
    apply (each_once_distinct s (row_cells n r) (r, c) (r, c') v); try done.
    + apply list_elem_of_fmap. exists c. split; [done |]. apply elem_of_seqZ. lia.
    + apply list_elem_of_fmap. exists c'. split; [done |]. apply elem_of_seqZ. lia.
  - destruct (solution_units c Hc) as (_ & Hcol & _). subst c'.
    apply (each_once_distinct s (col_cells n c) (r, c) (r', c) v); try done.
    + apply list_elem_of_fmap. exists r. split; [done |]. apply elem_of_seqZ. lia.
    + apply list_elem_of_fmap. exists r'. split; [done |]. apply elem_of_seqZ. lia.
  - assert (0 ≤ block_of k r c < n) as Hb.
    { pose proof (block_of_range k r c Hk0) as Hb. lia. }
    destruct (solution_units _ Hb) as (_ & _ & Hblock).
    apply (each_once_distinct s (block_cells k (block_of k r c)) (r, c) (r', c') v);
      try done.
    + apply in_block_cells; lia.
    + rewrite Heq. apply in_block_cells; lia.
Qed.

(** The value a solution puts in an empty cell is a candidate there. *)
Lemma solution_candidate r c v :
  cell a r c = Some 0 → cell s r c = Some v → candidate a r c v.
Proof.
  intros Hcell Hv. destruct (cell_range a r c 0 Hvalid Hcell) as (Hr & Hc & _).
  destruct (solution_filled r c Hr Hc) as (w & Hw & Hrange).
  assert (w = v) as -> by congruence. split; [done |].
  intros r' c' Hcell'.
  destruct (cell_range a r' c' v Hvalid Hcell') as (Hr' & Hc' & _).
  assert (cell s r' c' = Some v) as Hv'.
  { pose proof Hagrees as Hag. unfold agrees in Hag. rewrite Forall_forall in Hag.
    rewrite <- Hcell'. apply (Hag (r', c')); [by apply elem_of_all_cells |].
    simpl. rewrite Hcell'. intros [=]. lia. }
  assert (¬ peer k (r, c) (r', c')) as Hnp.
  { intros Hpeer.
    pose proof (solution_distinct r c r' c' v Hr Hc Hr' Hc' Hpeer Hv Hv') as [= -> ->].
    rewrite Hcell in Hcell'. injection Hcell' as <-. lia. }
  unfold peer in Hnp. simpl in Hnp. split_and!; intros Heq; apply Hnp; auto.
Qed.

Lemma solution_proposition r c v :
  cell a r c = Some 0 → cell s r c = Some v →
  ∃ p, p ∈ ps ∧ coords p = mkCoordinates r c (block_of k r c) ∧ val p = v.
Proof.
  intros Hcell Hv.
  assert ((mkCoordinates r c (block_of k r c), v) ∈ pairs_of a (ndenumerate a))
    as Hin.
  { apply elem_of_pairs_of. split_and!; [done | done |]. by apply solution_candidate. }
  rewrite <- (mk_props_pairs 1 (pairs_of a (ndenumerate a))) in Hin.
  apply list_elem_of_fmap in Hin as (p & [= Hco Hval] & Hp). by exists p.
Qed.

Lemma coords_of_proposition p :
  p ∈ ps →
  coords p = mkCoordinates (row (coords p)) (col (coords p))
               (block_of k (row (coords p)) (col (coords p))) ∧
  0 ≤ row (coords p) < n ∧ 0 ≤ col (coords p) < n.
Proof.
  intros Hp. destruct (proposition_facts a p Hp) as (_ & _ & Hcell & Hb & _).
  destruct (cell_range a _ _ 0 Hvalid Hcell) as (Hr & Hc & _).
  split; [| done]. destruct (coords p) as [r c b]. simpl in *. by rewrite Hb.
Qed.

(** Two different propositions in conflict are not both true in a solution. *)
Lemma solution_no_conflict p q :
  p ∈ ps → q ∈ ps → conflict p q →
  cell s (row (coords p)) (col (coords p)) = Some (val p) →
  cell s (row (coords q)) (col (coords q)) = Some (val q) →
  p = q.
Proof.
  intros Hp Hq Hconf Hcp Hcq. apply (props_injective a p q Hp Hq). unfold key_of.
  destruct (coords_of_proposition p Hp) as (Hpco & Hpr & Hpc).
  destruct (coords_of_proposition q Hq) as (Hqco & Hqr & Hqc).
  assert (peer k (row (coords p), col (coords p)) (row (coords q), col (coords q))
          ∧ val p = val q) as [Hpeer Hval].
  { unfold peer. simpl. destruct Hconf as [Hco | [[? ?] | [[? ?] | [Hb ?]]]].
    - rewrite Hco in Hcp |- *. split; [by left | congruence].
    - split; [by left | done].
    - split; [right; by left | done].
    - split; [| done]. right. right.
      rewrite Hpco, Hqco in Hb. exact Hb. }
  rewrite <- Hval in Hcq.
  pose proof (solution_distinct _ _ _ _ _ Hpr Hpc Hqr Hqc Hpeer Hcp Hcq) as [= Hr Hc].
  by rewrite Hr, Hc, Hval.
Qed.

Lemma model_of_satisfies : model_satisfies (model_of a s) (cnf (encoding_of self a)).
Proof.
  split.
  - apply Forall_forall. intros l Hl Hneg.
    apply elem_of_model_of in Hl as (p & Hp & [[-> Hc] | [-> Hc]]).
    + by apply (model_of_false a s p Hp) in Hneg.
    + rewrite Z.opp_involutive in Hneg. by apply (model_of_true a s p Hp) in Hneg.
  - apply Forall_forall. intros cl Hcl. apply Exists_exists.
    apply elem_of_encoding_cnf in Hcl
      as [(p & Hp & ->) | (p & q & Hb & Hconf & ->)].
    + destruct (proposition_facts a p Hp) as (_ & _ & Hcell & _).
      destruct (coords_of_proposition p Hp) as (Hpco & Hpr & Hpc).
      destruct (solution_filled _ _ Hpr Hpc) as (v & Hv & _).
      destruct (solution_proposition _ _ v Hcell Hv) as (q & Hq & Hqco & Hqv).
      exists (id q). split.
      * apply list_elem_of_fmap. exists q. split; [done |].
        apply list_elem_of_filter. split; [congruence | done].
      * apply (model_of_true a s q Hq). rewrite Hqco, Hqv. exact Hv.
    + destruct (before_elem _ _ _ Hb) as [Hp Hq].
      assert (p ≠ q) as Hne.
      { destruct Hb as (i & j & Hij & Hi & Hj). intros ->.
        pose proof (NoDup_fmap_1 _ _ (props_NoDup a)) as Hnd.
        pose proof (NoDup_lookup _ i j q Hnd Hi Hj). lia. }
      destruct (decide (cell s (row (coords p)) (col (coords p)) = Some (val p)))
        as [Hcp | Hcp].
      2: { exists (- id p). split; [by left |]. by apply model_of_false. }
      destruct (decide (cell s (row (coords q)) (col (coords q)) = Some (val q)))
        as [Hcq | Hcq].
      2: { exists (- id q). split; [right; by left |]. by apply model_of_false. }
      by destruct (Hne (solution_no_conflict p q Hp Hq Hconf Hcp Hcq)).
Qed.

Lemma decoded_model_of : decoded (propositions_of a) a (model_of a s) = s.
Proof.
  apply (square_ext n);
    [by apply decoded_square, valid_grid_square | done |].
  intros r c Hr Hc.
  rewrite (cell_decoded n);
    [| by apply valid_grid_square | by apply propositions_of_in_grid].
  destruct (last_write (propositions_of a) (model_of a s) r c) as [w|] eqn:Hlw.
  - apply last_write_Some in Hlw as (pid & p & Hin & _ & Hget & <- & <- & <-).
    pose proof (dict_get_values _ _ _ Hget) as Hp.
    pose proof (dict_get_mk_props_id _ _ _ _ Hget) as <-.
    symmetry. by apply (model_of_true a s p Hp).
  - destruct (square_cell n a r c (valid_grid_square a Hvalid) Hr Hc) as [v0 Hv0].
    destruct (decide (v0 = 0)) as [-> | Hne].
    + exfalso. destruct (solution_filled r c Hr Hc) as (v & Hv & _).
      destruct (solution_proposition r c v Hv0 Hv) as (q & Hq & Hqco & Hqv).
      destruct (proposition_facts a q Hq) as (Hpos & Hget & _).
      destruct (last_write_is_Some (propositions_of a) (model_of a s) r c (id q) q)
        as [w Hw]; [| done | done | by rewrite Hqco | by rewrite Hqco | congruence].
      apply (model_of_true a s q Hq). by rewrite Hqco, Hqv.
    + pose proof Hagrees as Hag. unfold agrees in Hag. rewrite Forall_forall in Hag.
      symmetry. apply (Hag (r, c)); [by apply elem_of_all_cells |].
      simpl. rewrite Hv0. by intros [= ?].
Qed.
End completeness.

(** X8.  The encoding loses no solution.  If a filled grid [s] of the shape
    of a valid puzzle is solved and agrees with the puzzle on its pre-filled
    cells, then the result list that holds the id of every proposition true
    in [s] and the negated id of every other one is a model of the formula
    [encode] builds, and [decode] turns it back into [s]. *)
Theorem encoding_complete (σ : store) (self : SudokuGrid) (a s : ndarray) :
  σ !! _array self = Some a →
  valid_grid a →
  square (grid_size a) s →
  solved s →
  agrees a s →
  ∃ e, encode self σ = Ok (e, σ) ∧
       model_satisfies (model_of a s) (cnf e) ∧
       decode e (model_of a s) σ = Ok (mkSudokuGrid (length σ), σ ++ [s]).
Proof.
  intros Hσ Hvalid Hshape Hsolved Hagrees. exists (encoding_of self a).
  split_and!.
  - by apply encode_run.
  - by apply model_of_satisfies.
  - rewrite (decode_run _ _ a).
    + by rewrite encoding_of_propositions, decoded_model_of.
    + by rewrite encoding_of_puzzle.
    + done.
    + rewrite encoding_of_propositions. by apply propositions_of_in_grid.
Qed.

Lemma encoding_complete_witness :
  ∃ e, encode (mkSudokuGrid 0) [puzzle4] = Ok (e, [puzzle4]) ∧
       model_satisfies (model_of puzzle4 grid4) (cnf e) ∧
       decode e (model_of puzzle4 grid4) [puzzle4]
       = Ok (mkSudokuGrid 1, [puzzle4; grid4]).
Proof.
  apply (encoding_complete [puzzle4] (mkSudokuGrid 0) puzzle4 grid4 eq_refl
           puzzle4_valid); by_evaluation.
Defined.

(** ** The verdicts of [run_algorithm] *)

(** X9.  With an engine that is right about the formula it is given (a
    reported model satisfies it, and a formula reported unsatisfiable has no
    model), the verdicts of [run_algorithm] on a valid puzzle are right: a
    returned grid is a new object that agrees with the puzzle on its
    pre-filled cells, the puzzle itself is left as it was, and the grid is
    solved provided no pre-filled cell clashes with a peer and every empty
    cell has a candidate; and when no grid is returned, no solved grid of
    the puzzle's shape agrees with the puzzle. *)
Theorem run_algorithm_verdicts (Time : Type)
    (solve_limited : list (list Z) → Time → SolverRun)
    (self : SatSudokuSolver Time) (σ : store) (a : ndarray) (e : SudokuCNF) :
  σ !! _array (_puzzle Time self) = Some a →
  valid_grid a →
  encode (_puzzle Time self) σ = Ok (e, σ) →
  let solver := solve_limited (cnf e) (_time_limit Time self) in
  (status solver = Some true → model_satisfies (get_model solver) (cnf e)) →
  (status solver = Some false → ∀ results, ¬ model_satisfies results (cnf e)) →
  (∀ g σ', run_algorithm Time solve_limited self σ = Ok (Some g, σ') →
           ∃ a', σ' !! _array g = Some a' ∧
                 _array g ≠ _array (_puzzle Time self) ∧
                 σ' !! _array (_puzzle Time self) = Some a ∧
                 agrees a a' ∧
                 (prefilled_consistent a → empty_cells_have_candidates a →
                  solved a')) ∧
  (∀ σ', run_algorithm Time solve_limited self σ = Ok (None, σ') →
         σ' = σ ∧
         ∀ s, square (grid_size a) s → agrees a s → ¬ solved s).
Proof.
  intros Hσ Hvalid He. rewrite (encode_run _ _ _ Hσ Hvalid) in He.
  injection He as <-. intros solver Hsound Hcomplete.
  assert (run_algorithm Time solve_limited self σ
          = match status solver with
            | None => Raise TimeoutError
            | Some false => Ok (None, σ)
            | Some true =>
                Ok (Some (mkSudokuGrid (length σ)),
                    σ ++ [decoded (propositions_of a) a (get_model solver)])
            end) as ->.
  { unfold run_algorithm. rewrite bind_run, (encode_run _ _ _ Hσ Hvalid).
    fold solver. destruct (status solver) as [[|]|]; [| done | done].
    rewrite bind_run, (decode_run _ _ a).
    - by rewrite encoding_of_propositions.
    - by rewrite encoding_of_puzzle.
    - done.
    - rewrite encoding_of_propositions. by apply propositions_of_in_grid. }
  pose proof (lookup_lt_Some _ _ _ Hσ) as Hlt.
  destruct (status solver) as [[|]|].
  - split; [| done]. intros g σ' [= <- <-].
    exists (decoded (propositions_of a) a (get_model solver)). split_and!.
    + by rewrite list_lookup_middle.
    + simpl. lia.
    + by apply lookup_app_l_Some.
    + by apply decoded_agrees.
    + intros Hcons Hcand.
      by apply (decoded_solved (_puzzle Time self)); [| apply Hsound | |].
  - split; [done |]. intros σ' [= <-]. split; [done |].
    intros s Hshape Hagrees Hsolved.
    apply (Hcomplete eq_refl (model_of a s)). by apply model_of_satisfies.
  - by split.
Qed.

Lemma run_algorithm_verdicts_witness :
  ∃ g σ' a',
    run_algorithm Z (fun _ _ => mkSolverRun (Some true) [1; 2; 3; 4; 5; 6; 7; 8])
                  (mkSatSudokuSolver Z (mkSudokuGrid 0) 60) [puzzle4]
    = Ok (Some g, σ') ∧
    σ' !! _array g = Some a' ∧ agrees puzzle4 a' ∧ solved a'.
Proof.
  destruct (run_algorithm_verdicts Z
              (fun _ _ => mkSolverRun (Some true) [1; 2; 3; 4; 5; 6; 7; 8])
              (mkSatSudokuSolver Z (mkSudokuGrid 0) 60) [puzzle4] puzzle4
              (encoding_of (mkSudokuGrid 0) puzzle4)
              eq_refl puzzle4_valid ltac:(by vm_compute))
    as [Hpos _].
  - intros _. by_evaluation.
  - intros [=].
  - destruct (Hpos (mkSudokuGrid 1)
                [puzzle4; decoded (propositions_of puzzle4) puzzle4
                            [1; 2; 3; 4; 5; 6; 7; 8]]
                ltac:(by vm_compute))
      as (a' & Ha' & _ & _ & Hagrees & Hsolved).
    exists (mkSudokuGrid 1),
      [puzzle4; decoded (propositions_of puzzle4) puzzle4 [1; 2; 3; 4; 5; 6; 7; 8]],
      a'.
    split_and!; [by vm_compute | done | done |].
    apply Hsolved; by_evaluation.
Defined.

(** ** The rows [main] prints for an infeasible puzzle *)

(** X10.  The rows printed after INFEASIBLE identify the puzzle: two
    different valid grids are never printed as the same lines. *)
Theorem plain_rows_injective (a b : ndarray) :
  valid_grid a → valid_grid b → a ≠ b → plain_rows a ≠ plain_rows b.
Proof.
  assert (∀ a, valid_grid a →
               Forall (fun row => row ≠ [] ∧ Forall (fun v => 0 ≤ v) row) a) as Hrows.
  { intros a' (_ & Hall & _). apply Forall_forall. intros rw Hrw.
    rewrite Forall_forall in Hall. destruct (Hall rw Hrw) as [Hlen Hvals].
    split.
    - intros ->. destruct a'; [by apply elem_of_nil in Hrw |].
      unfold grid_size in Hlen. simpl in Hlen. lia.
    - eapply Forall_impl; [exact Hvals |]. intros v ?. simpl in *. lia. }
  intros Ha Hb Hne Heq. apply Hne.
  pose proof (parse_plain_rows a (Hrows a Ha)) as Hpa.
  pose proof (parse_plain_rows b (Hrows b Hb)) as Hpb.
  rewrite Heq in Hpa. congruence.
Qed.

Lemma plain_rows_injective_witness : plain_rows puzzle4 ≠ plain_rows grid4.
Proof.
  apply (plain_rows_injective puzzle4 grid4); [by_evaluation | by_evaluation |].
  intros Heq. discriminate Heq.
Defined.

(** ** Decoding over any proposition map *)

Lemma decode_step_cases n σ e g b pid :
  σ !! _array g = Some b → square n b →
  match write_fault n (propositions e) pid with
  | Some err => decode_step e g pid tt σ = Raise err
  | None => ∃ b', decode_step e g pid tt σ = Ok (tt, <[_array g := b']> σ) ∧
                  square n b'
  end.
Proof.
  intros Hσ Hsq. unfold decode_step, dict_contains, write_fault.
  destruct (Z.ltb_spec 0 pid) as [Hpos | Hneg]; simpl.
  2: { exists b. by rewrite list_insert_id. }
  destruct (dict_get pid (propositions e)) as [p|] eqn:Hp.
  - rewrite bool_decide_eq_true_2 by done.
    rewrite (setitem_run _ _ _ _ _ _ Hσ).
    destruct (decide (- n ≤ row (coords p) < n ∧ - n ≤ col (coords p) < n))
      as [[Hr Hc] | Hout].
    + destruct (decide (0 ≤ val p ≤ uint_max)) as [Hv | Hv].
      * rewrite (array_setitem_in_range n) by done.
        eexists. split; [done |]. by apply square_array_update.
      * by rewrite (array_setitem_overflow n).
    + by rewrite (array_setitem_out_of_range n).
  - rewrite bool_decide_eq_false_2 by (by intros [? ?]).
    exists b. by rewrite list_insert_id.
Qed.

Lemma decode_loop_cases n σ e g b results :
  σ !! _array g = Some b → square n b →
  match first_fault n (propositions e) results with
  | Some err => for_each results (decode_step e g) tt σ = Raise err
  | None => ∃ b', for_each results (decode_step e g) tt σ
                  = Ok (tt, <[_array g := b']> σ) ∧
                  square n b'
  end.
Proof.
  revert σ b. induction results as [|pid results IH]; intros σ b Hσ Hsq.
  - exists b. cbn [for_each]. by rewrite ret_run, list_insert_id.
  - cbn [for_each first_fault]. rewrite bind_run.
    pose proof (decode_step_cases n σ e g b pid Hσ Hsq) as Hstep.
    destruct (write_fault n (propositions e) pid) as [err|].
    + by rewrite Hstep.
    + destruct Hstep as (b' & -> & Hsq').
      assert (<[_array g := b']> σ !! _array g = Some b') as Hσ'.
      { apply list_lookup_insert_eq. by eapply lookup_lt_Some. }
      pose proof (IH _ b' Hσ' Hsq') as Hrest.
      destruct (first_fault n (propositions e) results) as [err|]; [done |].
      destruct Hrest as (b'' & -> & Hsq'').
      exists b''. by rewrite list_insert_insert_eq.
Qed.

Lemma write_fault_not_KeyError n d pid : write_fault n d pid ≠ Some KeyError.
Proof.
  unfold write_fault. destruct (0 <? pid); [| done].
  destruct (dict_get pid d); [| done]. by repeat destruct (decide _).
Qed.

Lemma first_fault_not_KeyError n d results : first_fault n d results ≠ Some KeyError.
Proof.
  induction results as [|pid results IH]; [done |]. cbn [first_fault].
  pose proof (write_fault_not_KeyError n d pid).
  by destruct (write_fault n d pid) as [err|].
Qed.

(** X11.  [decode] over any proposition map, on a valid puzzle of side n.
    The ids of the result list are taken in order; an id that is not
    positive or not a key of the map is passed over, so [KeyError] is never
    raised.  The first positive key id whose proposition cannot be written
    stops the run: with [IndexError] when its row or its column is outside
    [-n, n), and otherwise with [OverflowError] when its value is not one of
    the array's type.  When there is no such id, a new n x n grid is
    returned. *)
Theorem decode_any_propositions (σ : store) (e : SudokuCNF) (a : ndarray)
    (results : list Z) :
  σ !! _array (puzzle e) = Some a →
  valid_grid a →
  match first_fault (grid_size a) (propositions e) results with
  | Some err => decode e results σ = Raise err
  | None => ∃ a', decode e results σ = Ok (mkSudokuGrid (length σ), σ ++ [a']) ∧
                  square (grid_size a) a'
  end ∧
  decode e results σ ≠ Raise KeyError.
Proof.
  intros Hσ Hvalid.
  assert (decode e results σ
          = match for_each results (decode_step e (mkSudokuGrid (length σ))) tt
                           (σ ++ [a]) with
            | Ok (_, σ') => Ok (mkSudokuGrid (length σ), σ')
            | Raise err => Raise err
            end) as ->.
  { unfold decode. rewrite bind_run, (copy_run _ _ _ Hσ Hvalid). rewrite bind_run.
    by destruct (for_each _ _ _ _) as [[[] σ'] | err]. }
  pose proof (decode_loop_cases (grid_size a) (σ ++ [a]) e
                (mkSudokuGrid (length σ)) a results) as Hloop.
  pose proof (first_fault_not_KeyError (grid_size a) (propositions e) results)
    as Hkey.
  destruct (first_fault (grid_size a) (propositions e) results) as [err|].
  - rewrite Hloop; [| simpl; by rewrite list_lookup_middle
                    | by apply valid_grid_square].
    split; [done | congruence].
  - destruct Hloop as (b' & -> & Hsq');
      [simpl; by rewrite list_lookup_middle | by apply valid_grid_square |].
    split; [| done]. exists b'. split; [| done].
    do 2 f_equal. simpl.
    replace (length σ) with (length σ + 0)%nat at 1 by lia.
    by rewrite insert_app_r.
Qed.

Lemma decode_any_propositions_witness :
  decode (mkSudokuCNF [] [(1, mkProposition (mkCoordinates 4 0 0) 1 1);
                          (2, mkProposition (mkCoordinates 0 0 0) (-1) 2)]
                      (mkSudokuGrid 0)) [-1; 3; 2; 1] [grid4]
  = Raise OverflowError.
Proof.
  apply (decode_any_propositions [grid4]
           (mkSudokuCNF [] [(1, mkProposition (mkCoordinates 4 0 0) 1 1);
                            (2, mkProposition (mkCoordinates 0 0 0) (-1) 2)]
                        (mkSudokuGrid 0)) grid4 [-1; 3; 2; 1] eq_refl
           ltac:(by_evaluation)).
Defined.
